(** * generatorbnf: a shallow embedding of the grammar compiler and evaluator

  The development follows the TypeScript sources:
  - [JsString], [JsNumber], [Js]: the fragment of JavaScript the program
    relies on (strings, IEEE doubles, values, objects on a heap, coercions);
  - [Lexer]   : parser/lexer.ts;
  - [Parser]  : parser/parser.ts;
  - [Nodes]   : ast/nodes.ts (the tree-walking evaluator);
  - [Generator] : generator.ts (seeded random source, execute).

  JavaScript numbers are Rocq's primitive binary64 floats; strings are
  sequences of code units below 256 (the grammar surface is ASCII). *)

From Stdlib Require Import Bool List ZArith Lia Ascii String.
From Stdlib Require Import Floats.
Import ListNotations.

Local Open Scope string_scope.

(* ================================================================== *)
(** * Strings *)

Module JsString.

Definition code (c : ascii) : nat := nat_of_ascii c.

(** WhiteSpace and LineTerminator code units below 256 (what
    [String.prototype.trim] strips). *)
Definition is_space (c : ascii) : bool :=
  let n := code c in
  Nat.eqb n 9 || Nat.eqb n 10 || Nat.eqb n 11 || Nat.eqb n 12
  || Nat.eqb n 13 || Nat.eqb n 32 || Nat.eqb n 160.

Definition rev (s : string) : string :=
  string_of_list_ascii (List.rev (list_ascii_of_string s)).

Fixpoint trimStart (s : string) : string :=
  match s with
  | EmptyString => EmptyString
  | String c r => if is_space c then trimStart r else s
  end.

Definition trimEnd (s : string) : string := rev (trimStart (rev s)).

Definition trim (s : string) : string := trimEnd (trimStart s).

(** [s.startsWith(p)] *)
Definition startsWith (p s : string) : bool := String.prefix p s.

(** [s.endsWith(p)] *)
Definition endsWith (p s : string) : bool := String.prefix (rev p) (rev s).

Definition head (s : string) : option ascii :=
  match s with EmptyString => None | String c _ => Some c end.

(** [/^[...]/.test(s)] for a character class given as a string *)
Definition starts_with_one_of (cls s : string) : bool :=
  match s with
  | EmptyString => false
  | String c _ =>
      existsb (fun d => Ascii.eqb c d) (list_ascii_of_string cls)
  end.

Definition newline : string := String (ascii_of_nat 10) EmptyString.

Definition is_digit (c : ascii) : bool :=
  Nat.leb 48 (code c) && Nat.leb (code c) 57.

Definition digit_val (c : ascii) : Z := Z.of_nat (code c - 48).

Definition digit_char (d : Z) : ascii := ascii_of_nat (48 + Z.to_nat d).

(** decimal digits of a non-negative integer, most significant first *)
Fixpoint digits_fuel (fuel : nat) (n : Z) (acc : string) : string :=
  match fuel with
  | O => acc
  | S f =>
      let acc' := String (digit_char (n mod 10)) acc in
      if (n <? 10)%Z then acc' else digits_fuel f (n / 10) acc'
  end.

Definition of_Z_digits (n : Z) : string :=
  digits_fuel (S (Z.to_nat (Z.log2 n))) n EmptyString.

Definition of_Z (n : Z) : string :=
  if (n <? 0)%Z then String "-" (of_Z_digits (- n)) else of_Z_digits n.

Definition of_nat (n : nat) : string := of_Z_digits (Z.of_nat n).

Fixpoint repeat_char (c : ascii) (n : nat) : string :=
  match n with O => EmptyString | S k => String c (repeat_char c k) end.

End JsString.

(* ================================================================== *)
(** * Numbers: IEEE 754 binary64 *)

Module JsNumber.
Import JsString.

Definition num := float.

(** The double nearest to the integer [z] (ties to even). *)
Definition of_Z (z : Z) : num :=
  SF2Prim (binary_normalize prec emax z 0 false).

(** The double nearest to [n / d], [n >= 0], [d > 0] (ties to even).
    The quotient is taken with at least 64 significant bits and the
    remainder is folded into a sticky bit before the final rounding. *)
Definition of_ratio (n d : Z) : num :=
  if (n =? 0)%Z then PrimFloat.zero
  else
    let s := Z.max 0 (64 + Z.log2 d - Z.log2 n) in
    let q := (Z.shiftl n s / d)%Z in
    let r := (Z.shiftl n s mod d)%Z in
    let m := (2 * q + (if (r =? 0)%Z then 0 else 1))%Z in
    SF2Prim (binary_normalize prec emax m (- s - 1) false).

Definition ndigits10 (n : Z) : Z :=
  Z.of_nat (String.length (of_Z_digits n)).

(** The double nearest to [m * 10^e], [m >= 0]. *)
Definition of_decimal (m e : Z) : num :=
  if (m =? 0)%Z then PrimFloat.zero
  else
    let d := ndigits10 m in
    if (310 <? d + e)%Z then PrimFloat.infinity
    else if (d + e <? -325)%Z then PrimFloat.zero
    else if (0 <=? e)%Z then of_ratio (m * 10 ^ e) 1
    else of_ratio m (10 ^ (- e)).

(** Exact value of a finite positive double as a fraction. *)
Definition to_ratio (x : num) : option (Z * Z) :=
  match Prim2SF x with
  | S754_finite _ m e =>
      if (0 <=? e)%Z then Some (Z.shiftl (Zpos m) e, 1%Z)
      else Some (Zpos m, Z.shiftl 1 (- e))
  | S754_zero _ => Some (0%Z, 1%Z)
  | _ => None
  end.

Definition is_neg (x : num) : bool := PrimFloat.ltb x PrimFloat.zero.

(** Truncation towards zero of a finite double; [None] for NaN and the
    infinities. *)
Definition trunc (x : num) : option Z :=
  match to_ratio x with
  | Some (n, d) => Some (if is_neg x then (- (n / d))%Z else (n / d)%Z)
  | None => None
  end.

(** [Math.floor] as an integer, for finite arguments *)
Definition floor (x : num) : option Z :=
  match to_ratio x with
  | Some (n, d) =>
      Some (if is_neg x then (- ((n + d - 1) / d))%Z else (n / d)%Z)
  | None => None
  end.

Definition two32 : Z := 4294967296%Z.

(** ToUint32 *)
Definition to_uint32 (x : num) : Z :=
  match trunc x with
  | Some z => (z mod two32)%Z
  | None => 0%Z
  end.

(** ToInt32 *)
Definition to_int32 (x : num) : Z :=
  let u := to_uint32 x in
  if (u <? 2147483648)%Z then u else (u - two32)%Z.

Definition isNaN (x : num) : bool := PrimFloat.is_nan x.

(** Identity of number values as JavaScript can observe it with [===]
    and [Object.is] combined: same bits. *)
Definition same (x y : num) : bool :=
  match PrimFloat.compare x y with
  | FEq => Bool.eqb (PrimFloat.get_sign x) (PrimFloat.get_sign y)
  | FNotComparable => PrimFloat.is_nan x && PrimFloat.is_nan y
  | _ => false
  end.

(* ---------------------------------------------------------------- *)
(** ** Number::toString (radix 10) *)

(** Does the decimal [s * 10^e] read back as [x]? *)
Definition reads_back (x : num) (s e : Z) : bool :=
  PrimFloat.eqb (of_decimal s e) x.

(** [n] with [10^(n-1) <= nv/dv < 10^n] *)
Definition decimal_exponent (nv dv : Z) : Z :=
  let n0 := (ndigits10 nv - ndigits10 dv)%Z in
  let ge :=
    if (0 <=? n0)%Z then (dv * 10 ^ n0 <=? nv)%Z
    else (dv <=? nv * 10 ^ (- n0))%Z in
  if ge then (n0 + 1)%Z else n0.

(** For [k] digits: the candidates [floor] and [floor + 1] of
    [v / 10^(n-k)], the nearer one first (ties: the even one). *)
Definition candidates (nv dv n k : Z) : list (Z * Z) :=
  let e := (n - k)%Z in
  let '(nt, dt) :=
    if (0 <=? e)%Z then (nv, dv * 10 ^ e)%Z else (nv * 10 ^ (- e), dv)%Z in
  let lo := (nt / dt)%Z in
  let hi := (lo + 1)%Z in
  let rem2 := (2 * (nt - lo * dt))%Z in
  let clo := (lo, e) in
  let chi := if (hi =? 10 ^ k)%Z then (10 ^ (k - 1), e + 1)%Z else (hi, e) in
  let lo_first :=
    if (rem2 <? dt)%Z then true
    else if (dt <? rem2)%Z then false
    else Z.even lo in
  if lo_first then [clo; chi] else [chi; clo].

Fixpoint shortest (x : num) (nv dv n : Z) (k : Z) (fuel : nat)
  : option (Z * Z) :=
  match fuel with
  | O => None
  | S f =>
      match
        find (fun c => reads_back x (fst c) (snd c))
             (filter (fun c => (10 ^ (k - 1) <=? fst c)%Z)
                     (candidates nv dv n k))
      with
      | Some c => Some c
      | None => shortest x nv dv n (k + 1) f
      end
  end.

(** digits [s] (as a string of length [k]) and exponent [n] of a
    positive finite double *)
Definition shortest_digits (x : num) : option (string * Z) :=
  match to_ratio x with
  | Some (nv, dv) =>
      let n := decimal_exponent nv dv in
      match shortest x nv dv n 1 17 with
      | Some (s, e) =>
          let ds := of_Z_digits s in
          Some (ds, (e + Z.of_nat (String.length ds))%Z)
      | None => None
      end
  | None => None
  end.

Definition format_positive (ds : string) (n : Z) : string :=
  let k := Z.of_nat (String.length ds) in
  if ((k <=? n) && (n <=? 21))%Z then
    ds ++ repeat_char "0" (Z.to_nat (n - k))
  else if ((0 <? n) && (n <=? 21))%Z then
    substring 0 (Z.to_nat n) ds ++ "."
      ++ substring (Z.to_nat n) (Z.to_nat (k - n)) ds
  else if ((-6 <? n) && (n <=? 0))%Z then
    "0." ++ repeat_char "0" (Z.to_nat (- n)) ++ ds
  else
    let ex := (n - 1)%Z in
    let sign := if (ex <? 0)%Z then "-" else "+" in
    let mant :=
      if (k =? 1)%Z then ds
      else substring 0 1 ds ++ "." ++ substring 1 (Z.to_nat (k - 1)) ds in
    mant ++ "e" ++ sign ++ of_Z_digits (Z.abs ex).

(** [String(x)] for a number *)
Definition to_string (x : num) : string :=
  if PrimFloat.is_nan x then "NaN"
  else if PrimFloat.is_zero x then "0"
  else if PrimFloat.is_infinity x then
    (if is_neg x then "-Infinity" else "Infinity")
  else
    let a := PrimFloat.abs x in
    match shortest_digits a with
    | Some (ds, n) =>
        (if is_neg x then "-" else "") ++ format_positive ds n
    | None => "NaN"
    end.

(* ---------------------------------------------------------------- *)
(** ** StringToNumber: [Number(s)] for a string *)

(** a maximal run of decimal digits: its value, its length, the rest *)
Fixpoint take_digits (s : string) (acc : Z) (len : Z) : Z * Z * string :=
  match s with
  | String c r =>
      if is_digit c then take_digits r (acc * 10 + digit_val c)%Z (len + 1)%Z
      else (acc, len, s)
  | EmptyString => (acc, len, s)
  end.

Definition hex_val (c : ascii) : option Z :=
  let n := code c in
  if is_digit c then Some (digit_val c)
  else if Nat.leb 97 n && Nat.leb n 102 then Some (Z.of_nat (n - 87))
  else if Nat.leb 65 n && Nat.leb n 70 then Some (Z.of_nat (n - 55))
  else None.

(** digits in base [b]; [None] when empty or on a foreign character *)
Fixpoint radix_digits (b : Z) (s : string) (acc : Z) (seen : bool)
  : option Z :=
  match s with
  | EmptyString => if seen then Some acc else None
  | String c r =>
      match hex_val c with
      | Some d =>
          if (d <? b)%Z then radix_digits b r (acc * b + d)%Z true else None
      | None => None
      end
  end.

(** ExponentPart, optional: the exponent and the rest *)
Definition take_exponent (s : string) : option (Z * string) :=
  match s with
  | String c r =>
      if Ascii.eqb c "e" || Ascii.eqb c "E" then
        let '(neg, r') :=
          match r with
          | String "+" t => (false, t)
          | String "-" t => (true, t)
          | _ => (false, r)
          end in
        let '(v, len, rest) := take_digits r' 0 0 in
        if (len =? 0)%Z then None
        else Some (if neg then (- v)%Z else v, rest)
      else Some (0%Z, s)
  | EmptyString => Some (0%Z, s)
  end.

(** StrUnsignedDecimalLiteral *)
Definition unsigned_decimal (s : string) : option num :=
  if String.eqb s "Infinity" then Some PrimFloat.infinity
  else
    let '(ip, ilen, r1) := take_digits s 0 0 in
    let '(fp, flen, r2) :=
      match r1 with
      | String "." t => take_digits t 0 0
      | _ => (0%Z, 0%Z, r1)
      end in
    let has_dot := match r1 with String "." _ => true | _ => false end in
    if ((ilen =? 0) && (flen =? 0))%Z then None
    else if negb has_dot && (ilen =? 0)%Z then None
    else
      match take_exponent r2 with
      | Some (ex, EmptyString) =>
          Some (of_decimal (ip * 10 ^ flen + fp) (ex - flen))
      | _ => None
      end.

Definition of_string (s0 : string) : num :=
  let s := trim s0 in
  match s with
  | EmptyString => PrimFloat.zero
  | String "0" (String x r) =>
      let radix :=
        if Ascii.eqb x "x" || Ascii.eqb x "X" then Some 16%Z
        else if Ascii.eqb x "o" || Ascii.eqb x "O" then Some 8%Z
        else if Ascii.eqb x "b" || Ascii.eqb x "B" then Some 2%Z
        else None in
      match radix with
      | Some b =>
          match radix_digits b r 0 false with
          | Some v => of_Z v
          | None => PrimFloat.nan
          end
      | None =>
          match unsigned_decimal s with
          | Some v => v
          | None => PrimFloat.nan
          end
      end
  | String "+" r =>
      match unsigned_decimal r with Some v => v | None => PrimFloat.nan end
  | String "-" r =>
      match unsigned_decimal r with
      | Some v => PrimFloat.opp v
      | None => PrimFloat.nan
      end
  | _ =>
      match unsigned_decimal s with Some v => v | None => PrimFloat.nan end
  end.

(** [parseFloat(s)] on the text of a NUMBER token (digits with an
    optional fraction): the longest numeric prefix. *)
Definition parseFloat (s0 : string) : num :=
  let s := trimStart s0 in
  let '(neg, s1) :=
    match s with
    | String "+" t => (false, t)
    | String "-" t => (true, t)
    | _ => (false, s)
    end in
  let '(ip, ilen, r1) := take_digits s1 0 0 in
  let '(fp, flen, r2) :=
    match r1 with
    | String "." t => take_digits t 0 0
    | _ => (0%Z, 0%Z, r1)
    end in
  if ((ilen =? 0) && (flen =? 0))%Z then
    (if String.prefix "Infinity" s1
     then (if neg then PrimFloat.neg_infinity else PrimFloat.infinity)
     else PrimFloat.nan)
  else
    let ex :=
      match r2 with
      | String c _ =>
          if Ascii.eqb c "e" || Ascii.eqb c "E" then
            match take_exponent r2 with
            | Some (e, _) => e
            | None => 0%Z
            end
          else 0%Z
      | EmptyString => 0%Z
      end in
    let v := of_decimal (ip * 10 ^ flen + fp) (ex - flen) in
    if neg then PrimFloat.opp v else v.

End JsNumber.

(* ================================================================== *)
(** * JavaScript values, objects and coercions *)

Module Js.
Import JsString JsNumber.

(** Object identities.  [Pre n] is an object that existed before the
    call to [execute] (the caller's knowledge lives there); [New n] is
    the [n]-th object allocated by the call itself; [ObjectPrototype] is
    [Object.prototype], the one object every plain object and every
    array inherits from. *)
Inductive loc := Pre (n : nat) | New (n : nat) | ObjectPrototype.

Definition loc_eqb (a b : loc) : bool :=
  match a, b with
  | Pre n, Pre m => Nat.eqb n m
  | New n, New m => Nat.eqb n m
  | ObjectPrototype, ObjectPrototype => true
  | _, _ => false
  end.

Inductive prim :=
| PUndefined
| PNull
| PBool (b : bool)
| PNum (x : num)
| PStr (s : string).

Inductive value :=
| VPrim (p : prim)
| VRef (l : loc).

Abbreviation VUndefined := (VPrim PUndefined).
Abbreviation VNull := (VPrim PNull).
Abbreviation VBool b := (VPrim (PBool b)).
Abbreviation VNum x := (VPrim (PNum x)).
Abbreviation VStr s := (VPrim (PStr s)).

(** Plain data objects: own enumerable properties in
    [OwnPropertyKeys] order, and arrays without holes. *)
Inductive object :=
| OObject (props : list (string * value))
| OArray (elems : list value).

(** The objects a call can reach.  [prototype] holds what
    [Object.prototype] has beside the members the engine gave it: the
    properties a program has put there, and the values that replace
    built-in members. *)
Record heap := mkHeap {
  pre : list object;
  fresh : list object;
  prototype : list (string * value)
}.

Inductive error_name := EvaluationError | ParseError | TypeError | SyntaxError.

(** A thrown [Error]: its class and its [message]. *)
Record error := mkError { name : error_name; message : string }.

(** Ways in which the model, not the program, stops. *)
Inductive stuck_reason :=
| OutOfFuel     (* the recursion budget of the model is exhausted *)
| Dangling      (* a reference to an object the heap does not hold *)
| Unmodelled.   (* the functions the built-in prototypes hold, a change
                    of prototype, array writes *)

Inductive outcome (A : Type) :=
| Ok (a : A)
| Throw (e : error)
| Stuck (why : stuck_reason).
Arguments Ok {A} a.
Arguments Throw {A} e.
Arguments Stuck {A} why.

(* ---------------------------------------------------------------- *)
(** ** Association lists: [Map<string, any>] and property lists *)

Fixpoint alist_get {A} (k : string) (l : list (string * A)) : option A :=
  match l with
  | [] => None
  | (k', v) :: r => if String.eqb k k' then Some v else alist_get k r
  end.

Definition alist_has {A} (k : string) (l : list (string * A)) : bool :=
  match alist_get k l with Some _ => true | None => false end.

(** [Map.prototype.set]: replace in place, or append. *)
Fixpoint alist_set {A} (k : string) (v : A) (l : list (string * A))
  : list (string * A) :=
  match l with
  | [] => [(k, v)]
  | (k', v') :: r =>
      if String.eqb k k' then (k, v) :: r else (k', v') :: alist_set k v r
  end.

(** An array index: the canonical decimal text of [n < 2^32 - 1]. *)
Definition array_index (s : string) : option Z :=
  match s with
  | EmptyString => None
  | String c r =>
      if forallb is_digit (list_ascii_of_string s)
      then
        if Ascii.eqb c "0" && negb (String.eqb s "0") then None
        else
          let '(v, _, _) := take_digits s 0 0 in
          if (v <? 4294967295)%Z then Some v else None
      else None
  end.

(** Defining a new own property of an ordinary object: array-index
    keys stay in ascending order before all other keys, which keep
    their creation order. *)
Fixpoint prop_insert (k : string) (v : value) (l : list (string * value))
  : list (string * value) :=
  match l with
  | [] => [(k, v)]
  | (k', v') :: r =>
      match array_index k, array_index k' with
      | Some n, Some n' =>
          if (n <? n')%Z then (k, v) :: l else (k', v') :: prop_insert k v r
      | Some _, None => (k, v) :: l
      | None, _ => (k', v') :: prop_insert k v r
      end
  end.

(** [o[k] = v] on the property list of an ordinary object *)
Definition prop_set (k : string) (v : value) (l : list (string * value))
  : list (string * value) :=
  if alist_has k l then alist_set k v l else prop_insert k v l.

Fixpoint list_set {A} (n : nat) (x : A) (l : list A) : option (list A) :=
  match l, n with
  | [], _ => None
  | _ :: r, O => Some (x :: r)
  | y :: r, S m =>
      match list_set m x r with
      | Some r' => Some (y :: r')
      | None => None
      end
  end.

(* ---------------------------------------------------------------- *)
(** ** The heap *)

Definition heap_get (h : heap) (l : loc) : option object :=
  match l with
  | Pre n => nth_error (pre h) n
  | New n => nth_error (fresh h) n
  | ObjectPrototype => Some (OObject (prototype h))
  end.

Definition heap_alloc (h : heap) (o : object) : loc * heap :=
  (New (List.length (fresh h)),
   mkHeap (pre h) (fresh h ++ [o]) (prototype h)).

Definition heap_put (h : heap) (l : loc) (o : object) : option heap :=
  match l with
  | Pre n =>
      match list_set n o (pre h) with
      | Some p => Some (mkHeap p (fresh h) (prototype h))
      | None => None
      end
  | New n =>
      match list_set n o (fresh h) with
      | Some f => Some (mkHeap (pre h) f (prototype h))
      | None => None
      end
  | ObjectPrototype =>
      match o with
      | OObject props => Some (mkHeap (pre h) (fresh h) props)
      | OArray _ => None
      end
  end.

(* ---------------------------------------------------------------- *)
(** ** The entropy source

    [createSeededRandom] of generator.ts returns a closure over the
    mutable number [state]; [Math.random], used when no seed is given,
    is taken as the sequence of values it is going to yield. *)

Inductive entropy :=
| Seeded (state : num)
| External (draws : nat -> num) (pos : nat).

Definition xor32 (a b : Z) : Z :=
  let u := Z.lxor (a mod two32) (b mod two32) in
  if (u <? 2147483648)%Z then u else (u - two32)%Z.

(** [x >>> n] on a uint32 [x]: the shift count is taken modulo 32. *)
Definition ushr32 (x n : Z) : Z := Z.shiftr (x mod two32) (n mod 32).

(** The body of the closure returned by [createSeededRandom]:
<<
  state = ((state * 747796405) + 2891336453) >>> 0;
  const word = ((state >>> ((state >>> 28) + 4)) ^ state) * 277803737;
  const result = (word ^ (word >>> 22)) >>> 0;
  return result / 4294967296;
>> *)
Definition seeded_next (state : num) : num * num :=
  let state1 :=
    to_uint32 (PrimFloat.add (PrimFloat.mul state (JsNumber.of_Z 747796405))
                             (JsNumber.of_Z 2891336453)) in
  let count := PrimFloat.add (JsNumber.of_Z (ushr32 state1 28)) (JsNumber.of_Z 4) in
  let shifted := ushr32 state1 (to_uint32 count) in
  let word :=
    PrimFloat.mul (JsNumber.of_Z (xor32 shifted state1)) (JsNumber.of_Z 277803737) in
  let result :=
    (xor32 (to_int32 word) (ushr32 (to_uint32 word) 22) mod two32)%Z in
  (PrimFloat.div (JsNumber.of_Z result) (JsNumber.of_Z two32), JsNumber.of_Z state1).

(** One call of [context.random()]: the value and the source afterwards. *)
Definition entropy_next (e : entropy) : num * entropy :=
  match e with
  | Seeded st => let '(r, st') := seeded_next st in (r, Seeded st')
  | External draws pos => (draws pos, External draws (S pos))
  end.

(* ---------------------------------------------------------------- *)
(** ** The store and the evaluation monad *)

(** A [Map<string, any>]: its entries in insertion order. *)
Definition varmap := list (string * value).

(** Everything mutable an execution can reach: the objects, the
    [Map] instances holding variables (a context refers to one by its
    index), and the state captured by the entropy source. *)
Record store := mkStore {
  objects : heap;
  maps : list varmap;
  source : entropy
}.

Definition M (A : Type) : Type := store -> outcome (A * store).

Definition ret {A} (a : A) : M A := fun st => Ok (a, st).

Definition bind {A B} (c : M A) (k : A -> M B) : M B :=
  fun st =>
    match c st with
    | Ok (a, st') => k a st'
    | Throw e => Throw e
    | Stuck w => Stuck w
    end.

Definition throw {A} (n : error_name) (msg : string) : M A :=
  fun _ => Throw (mkError n msg).

Definition stuck {A} (w : stuck_reason) : M A := fun _ => Stuck w.

Declare Scope js_scope.
Delimit Scope js_scope with js.
Notation "x <- c ;; k" := (bind c (fun x => k))
  (at level 61, c at next level, right associativity) : js_scope.
Notation "c ;;; k" := (bind c (fun _ => k))
  (at level 61, right associativity) : js_scope.
Local Open Scope js_scope.

(** [try { c } catch (error) { throw h(error) }] *)
Definition rethrow {A} (c : M A) (h : error -> error) : M A :=
  fun st =>
    match c st with
    | Throw e => Throw (h e)
    | r => r
    end.

Definition get_object (l : loc) : M object :=
  fun st =>
    match heap_get (objects st) l with
    | Some o => Ok (o, st)
    | None => Stuck Dangling
    end.

Definition alloc (o : object) : M value :=
  fun st =>
    let '(l, h) := heap_alloc (objects st) o in
    Ok (VRef l, mkStore h (maps st) (source st)).

Definition put_object (l : loc) (o : object) : M unit :=
  fun st =>
    match heap_put (objects st) l o with
    | Some h => Ok (tt, mkStore h (maps st) (source st))
    | None => Stuck Dangling
    end.

(** what [Object.prototype] holds beside its built-in members: every
    object inherits these entries *)
Definition shared_entries : M (list (string * value)) :=
  fun st => Ok (prototype (objects st), st).

(** [new Map(entries)] *)
Definition map_new (entries : varmap) : M nat :=
  fun st =>
    Ok (List.length (maps st),
        mkStore (objects st) (maps st ++ [entries]) (source st)).

Definition map_entries (m : nat) : M varmap :=
  fun st =>
    match nth_error (maps st) m with
    | Some e => Ok (e, st)
    | None => Stuck Dangling
    end.

(** [m.set(k, v)] *)
Definition map_set (m : nat) (k : string) (v : value) : M unit :=
  fun st =>
    match nth_error (maps st) m with
    | Some e =>
        match list_set m (alist_set k v e) (maps st) with
        | Some ms => Ok (tt, mkStore (objects st) ms (source st))
        | None => Stuck Dangling
        end
    | None => Stuck Dangling
    end.

(** [m.get(k)]: [undefined] when absent *)
Definition map_get (m : nat) (k : string) : M value :=
  e <- map_entries m ;;
  ret (match alist_get k e with Some v => v | None => VUndefined end).

(** [m.has(k)] *)
Definition map_has (m : nat) (k : string) : M bool :=
  e <- map_entries m ;; ret (alist_has k e).

(** [for (const [key, value] of src.entries()) dst.set(key, value)] *)
Fixpoint set_all (dst : nat) (entries : varmap) : M unit :=
  match entries with
  | [] => ret tt
  | (k, v) :: r => map_set dst k v ;;; set_all dst r
  end.

Definition copy_entries (src dst : nat) : M unit :=
  e <- map_entries src ;; set_all dst e.

(** [context.random()] *)
Definition random : M num :=
  fun st =>
    let '(r, e) := entropy_next (source st) in
    Ok (r, mkStore (objects st) (maps st) e).

Fixpoint mapM {A B} (f : A -> M B) (l : list A) : M (list B) :=
  match l with
  | [] => ret []
  | a :: r => b <- f a ;; bs <- mapM f r ;; ret (b :: bs)
  end.

(* ---------------------------------------------------------------- *)
(** ** Coercions *)

Definition typeof (v : value) : string :=
  match v with
  | VUndefined => "undefined"
  | VNull => "object"
  | VBool _ => "boolean"
  | VNum _ => "number"
  | VStr _ => "string"
  | VRef _ => "object"
  end.

(** ToString on a primitive *)
Definition prim_to_string (p : prim) : string :=
  match p with
  | PUndefined => "undefined"
  | PNull => "null"
  | PBool true => "true"
  | PBool false => "false"
  | PNum x => JsNumber.to_string x
  | PStr s => s
  end.

(** ToNumber on a primitive *)
Definition prim_to_number (p : prim) : num :=
  match p with
  | PUndefined => PrimFloat.nan
  | PNull => PrimFloat.zero
  | PBool true => PrimFloat.one
  | PBool false => PrimFloat.zero
  | PNum x => x
  | PStr s => JsNumber.of_string s
  end.

Definition typeof_name (v : value) : string :=
  match v with
  | VNull => "null"
  | _ => typeof v
  end.

(** ToBoolean *)
Definition truthy (v : value) : bool :=
  match v with
  | VUndefined | VNull => false
  | VBool b => b
  | VNum x => negb (PrimFloat.is_zero x || PrimFloat.is_nan x)
  | VStr s => negb (String.eqb s "")
  | VRef _ => true
  end.

(** [String(v)].  A plain object answers ["[object Object]"] through
    [Object.prototype.toString], unless a data property named [toString]
    hides or replaces it, on the object or on [Object.prototype] (then
    no conversion exists); an array joins its elements with commas,
    [null] and [undefined] giving the empty text. *)
Fixpoint to_string (fuel : nat) (v : value) : M string :=
  match v with
  | VPrim p => ret (prim_to_string p)
  | VRef l =>
      match fuel with
      | O => stuck OutOfFuel
      | S f =>
          o <- get_object l ;;
          match o with
          | OObject props =>
              shared <- shared_entries ;;
              if alist_has "toString" props || alist_has "toString" shared
              then throw TypeError "Cannot convert object to primitive value"
              else ret "[object Object]"
          | OArray elems =>
              parts <- mapM (fun e =>
                               match e with
                               | VUndefined | VNull => ret ""
                               | _ => to_string f e
                               end) elems ;;
              ret (String.concat "," parts)
          end
      end
  end.

(** ToPrimitive (for plain data every hint gives the same answer) *)
Definition to_primitive (fuel : nat) (v : value) : M prim :=
  match v with
  | VPrim p => ret p
  | VRef _ => s <- to_string fuel v ;; ret (PStr s)
  end.

(** [Number(v)] *)
Definition to_number (fuel : nat) (v : value) : M num :=
  p <- to_primitive fuel v ;; ret (prim_to_number p).

(** [!isNaN(Number(v))]: "numeric-looking" *)
Definition numeric_looking (fuel : nat) (v : value) : M bool :=
  x <- to_number fuel v ;; ret (negb (JsNumber.isNaN x)).

(* ---------------------------------------------------------------- *)
(** ** Operators *)

Definition prim_add (a b : prim) : prim :=
  match a, b with
  | PStr s, _ => PStr (s ++ prim_to_string b)
  | _, PStr t => PStr (prim_to_string a ++ t)
  | _, _ => PNum (PrimFloat.add (prim_to_number a) (prim_to_number b))
  end.

(** [a + b] *)
Definition js_add (fuel : nat) (a b : value) : M value :=
  pa <- to_primitive fuel a ;;
  pb <- to_primitive fuel b ;;
  ret (VPrim (prim_add pa pb)).

(** [a - b], [a * b], [a / b] *)
Definition js_arith (op : num -> num -> num) (fuel : nat) (a b : value)
  : M value :=
  x <- to_number fuel a ;;
  y <- to_number fuel b ;;
  ret (VNum (op x y)).

Definition js_sub := js_arith PrimFloat.sub.
Definition js_mul := js_arith PrimFloat.mul.
Definition js_div := js_arith PrimFloat.div.

(** IsLooselyEqual on primitives *)
Definition prim_loose_eq (a b : prim) : bool :=
  match a, b with
  | PUndefined, PUndefined | PNull, PNull => true
  | PUndefined, PNull | PNull, PUndefined => true
  | PUndefined, _ | PNull, _ | _, PUndefined | _, PNull => false
  | PStr s, PStr t => String.eqb s t
  | PBool x, PBool y => Bool.eqb x y
  | _, _ => PrimFloat.eqb (prim_to_number a) (prim_to_number b)
  end.

(** [a == b] *)
Definition js_loose_eq (fuel : nat) (a b : value) : M bool :=
  match a, b with
  | VPrim p, VPrim q => ret (prim_loose_eq p q)
  | VRef l, VRef m => ret (loc_eqb l m)
  | VRef _, VPrim (PUndefined | PNull) => ret false
  | VPrim (PUndefined | PNull), VRef _ => ret false
  | VRef _, VPrim q => p <- to_primitive fuel a ;; ret (prim_loose_eq p q)
  | VPrim p, VRef _ => q <- to_primitive fuel b ;; ret (prim_loose_eq p q)
  end.

(** IsLessThan on primitives; [None] is the answer [undefined]. *)
Definition prim_lt (a b : prim) : option bool :=
  match a, b with
  | PStr s, PStr t => Some (String.ltb s t)
  | _, _ =>
      let x := prim_to_number a in
      let y := prim_to_number b in
      if JsNumber.isNaN x || JsNumber.isNaN y then None
      else Some (PrimFloat.ltb x y)
  end.

Definition js_lt (fuel : nat) (a b : value) : M bool :=
  pa <- to_primitive fuel a ;;
  pb <- to_primitive fuel b ;;
  ret (match prim_lt pa pb with Some r => r | None => false end).

Definition js_gt (fuel : nat) (a b : value) : M bool :=
  pa <- to_primitive fuel a ;;
  pb <- to_primitive fuel b ;;
  ret (match prim_lt pb pa with Some r => r | None => false end).

Definition js_le (fuel : nat) (a b : value) : M bool :=
  pa <- to_primitive fuel a ;;
  pb <- to_primitive fuel b ;;
  ret (match prim_lt pb pa with Some r => negb r | None => false end).

Definition js_ge (fuel : nat) (a b : value) : M bool :=
  pa <- to_primitive fuel a ;;
  pb <- to_primitive fuel b ;;
  ret (match prim_lt pa pb with Some r => negb r | None => false end).

(* ---------------------------------------------------------------- *)
(** ** Properties

    A plain object inherits from [Object.prototype]; an array, a string,
    a number and a boolean inherit from the prototype of their kind,
    which inherits from [Object.prototype].  [Object.prototype] is an
    object of the heap like the others: what a program writes to it is
    there for every object, in this call and in the next.  The functions
    the built-in prototypes hold are not modelled, nor are the other
    prototypes as objects: reading one of them stops the model with
    [Unmodelled]. *)

Definition object_prototype_names : list string :=
  ["constructor"; "__defineGetter__"; "__defineSetter__"; "hasOwnProperty";
   "__lookupGetter__"; "__lookupSetter__"; "isPrototypeOf";
   "propertyIsEnumerable"; "toString"; "valueOf"; "__proto__";
   "toLocaleString"].

(** the own members of [Array.prototype], [length] apart *)
Definition array_method_names : list string :=
  ["at"; "concat"; "copyWithin"; "fill"; "find"; "findIndex"; "findLast";
   "findLastIndex"; "lastIndexOf"; "pop"; "push"; "reverse"; "shift";
   "unshift"; "slice"; "sort"; "splice"; "includes"; "indexOf"; "join";
   "keys"; "entries"; "values"; "forEach"; "filter"; "flat"; "flatMap";
   "map"; "every"; "some"; "reduce"; "reduceRight"; "toReversed";
   "toSorted"; "toSpliced"; "with"; "constructor"; "toString";
   "toLocaleString"].

(** the own members of [String.prototype], [length] apart *)
Definition string_method_names : list string :=
  ["anchor"; "at"; "big"; "blink"; "bold"; "charAt"; "charCodeAt";
   "codePointAt"; "concat"; "endsWith"; "fontcolor"; "fontsize"; "fixed";
   "includes"; "indexOf"; "isWellFormed"; "italics"; "lastIndexOf"; "link";
   "localeCompare"; "match"; "matchAll"; "normalize"; "padEnd"; "padStart";
   "repeat"; "replace"; "replaceAll"; "search"; "slice"; "small"; "split";
   "strike"; "sub"; "substr"; "substring"; "sup"; "startsWith";
   "toWellFormed"; "trim"; "trimStart"; "trimLeft"; "trimEnd"; "trimRight";
   "toLocaleLowerCase"; "toLocaleUpperCase"; "toLowerCase"; "toUpperCase";
   "constructor"; "toString"; "valueOf"].

Definition number_method_names : list string :=
  ["toExponential"; "toFixed"; "toPrecision"; "constructor"; "toString";
   "toLocaleString"; "valueOf"].

Definition boolean_method_names : list string :=
  ["constructor"; "toString"; "valueOf"].

Definition mem (k : string) (l : list string) : bool :=
  existsb (String.eqb k) l.

(** what a name no object on the way defines answers: [dflt], unless it
    is one of the functions of [Object.prototype] *)
Definition absent {A} (k : string) (inherited : list string) (dflt : A)
  : M A :=
  if mem k inherited then stuck Unmodelled else ret dflt.

(** [k in v] for a [k] that [v] does not have itself; [methods] are the
    members of the prototype between [v] and [Object.prototype] *)
Definition inherited_has (k : string) (methods : list string) : M bool :=
  shared <- shared_entries ;;
  ret (mem k methods || alist_has k shared || mem k object_prototype_names).

(** [v[k]] for a [k] that [v] does not have itself.  The accessor
    [__proto__] of [Object.prototype] answers the prototype of [v]:
    [proto], when that is an object of the model. *)
Definition inherited_get (k : string) (methods : list string)
  (proto : option value) : M value :=
  if mem k methods then stuck Unmodelled
  else
    shared <- shared_entries ;;
    match alist_get k shared with
    | Some x => ret x
    | None =>
        if String.eqb k "__proto__" then
          match proto with
          | Some p => ret p
          | None => stuck Unmodelled
          end
        else absent k object_prototype_names VUndefined
    end.

(** the prototype of the plain object at [l] *)
Definition prototype_of (l : loc) : value :=
  match l with
  | ObjectPrototype => VNull
  | _ => VRef ObjectPrototype
  end.

(** [k in v] *)
Definition has_property (v : value) (k : string) : M bool :=
  match v with
  | VPrim p =>
      throw TypeError
        ("Cannot use 'in' operator to search for '" ++ k ++ "' in "
           ++ prim_to_string p)
  | VRef l =>
      o <- get_object l ;;
      match o with
      | OObject props =>
          if alist_has k props then ret true else inherited_has k []
      | OArray elems =>
          match array_index k with
          | Some i =>
              if (i <? Z.of_nat (List.length elems))%Z then ret true
              else inherited_has k array_method_names
          | None =>
              if String.eqb k "length" then ret true
              else inherited_has k array_method_names
          end
      end
  end.

(** [v[k]] *)
Definition get_property (v : value) (k : string) : M value :=
  match v with
  | VUndefined | VNull =>
      throw TypeError
        ("Cannot read properties of " ++ typeof_name v
           ++ " (reading '" ++ k ++ "')")
  | VBool _ => inherited_get k boolean_method_names None
  | VNum _ => inherited_get k number_method_names None
  | VStr s =>
      match array_index k with
      | Some i =>
          match String.get (Z.to_nat i) s with
          | Some c => ret (VStr (String c EmptyString))
          | None => inherited_get k string_method_names None
          end
      | None =>
          if String.eqb k "length"
          then ret (VNum (JsNumber.of_Z (Z.of_nat (String.length s))))
          else inherited_get k string_method_names None
      end
  | VRef l =>
      o <- get_object l ;;
      match o with
      | OObject props =>
          match alist_get k props with
          | Some x => ret x
          | None => inherited_get k [] (Some (prototype_of l))
          end
      | OArray elems =>
          match array_index k with
          | Some i =>
              match nth_error elems (Z.to_nat i) with
              | Some x => ret x
              | None => inherited_get k array_method_names None
              end
          | None =>
              if String.eqb k "length"
              then ret (VNum (JsNumber.of_Z (Z.of_nat (List.length elems))))
              else inherited_get k array_method_names None
          end
      end
  end.

(** [v[k] = x] in strict code (class bodies are strict).  A name the
    prototypes define as a data property becomes an own property of [v];
    [__proto__], an accessor of [Object.prototype] as long as nothing
    replaces it, has a setter, which ignores a primitive [x] and a
    primitive [v]. *)
Definition set_property (v : value) (k : string) (x : value) : M unit :=
  match v with
  | VUndefined | VNull =>
      throw TypeError
        ("Cannot set properties of " ++ typeof_name v
           ++ " (setting '" ++ k ++ "')")
  | VPrim p =>
      shared <- shared_entries ;;
      if String.eqb k "__proto__" && negb (alist_has k shared) then ret tt
      else
        throw TypeError
          ("Cannot create property '" ++ k ++ "' on " ++ typeof v ++ " '"
             ++ prim_to_string p ++ "'")
  | VRef l =>
      o <- get_object l ;;
      shared <- shared_entries ;;
      match o with
      | OObject props =>
          if String.eqb k "__proto__" && negb (alist_has k props)
             && negb (alist_has k shared)
          then
            match x with
            | VRef _ | VNull => stuck Unmodelled
            | _ => ret tt
            end
          else put_object l (OObject (prop_set k x props))
      | OArray _ => stuck Unmodelled
      end
  end.

(** the keys of an array: ["0"], ["1"], ... *)
Definition index_keys (n : nat) : list string :=
  map JsString.of_nat (seq 0 n).

(** [Object.keys(v)] for [v] an object or an array *)
Definition object_keys (v : value) : M (list string) :=
  match v with
  | VPrim _ => ret []
  | VRef l =>
      o <- get_object l ;;
      match o with
      | OObject props => ret (map fst props)
      | OArray elems => ret (index_keys (List.length elems))
      end
  end.

(** [Array.isArray(v)] *)
Definition is_array (v : value) : M (option (list value)) :=
  match v with
  | VPrim _ => ret None
  | VRef l =>
      o <- get_object l ;;
      match o with
      | OObject _ => ret None
      | OArray elems => ret (Some elems)
      end
  end.

(** the own enumerable properties [{...v}] copies *)
Definition spread_entries (v : value) : M (list (string * value)) :=
  match v with
  | VStr s =>
      ret (combine (index_keys (String.length s))
                   (map (fun c => VStr (String c EmptyString))
                        (list_ascii_of_string s)))
  | VPrim _ => ret []
  | VRef l =>
      o <- get_object l ;;
      match o with
      | OObject props => ret props
      | OArray elems => ret (combine (index_keys (List.length elems)) elems)
      end
  end.

Definition define_all (entries acc : list (string * value))
  : list (string * value) :=
  fold_left (fun a kv => prop_set (fst kv) (snd kv) a) entries acc.

(** [{ ...a, ...b }] *)
Definition spread2 (a b : value) : M value :=
  ea <- spread_entries a ;;
  eb <- spread_entries b ;;
  alloc (OObject (define_all eb (define_all ea []))).

(** [{ ...a }] *)
Definition spread1 (a : value) : M value :=
  ea <- spread_entries a ;;
  alloc (OObject (define_all ea [])).

(* ---------------------------------------------------------------- *)
(** ** [JSON.parse(JSON.stringify(v))]

    The JSON text is kept as its syntax tree.  A number is written with
    [Number::toString] and read back from that text. *)

#[warnings="-register-all"]
Inductive json :=
| JNull
| JBool (b : bool)
| JNum (x : num)
| JStr (s : string)
| JArr (items : list json)
| JObj (members : list (string * json)).

Definition is_finite (x : num) : bool :=
  negb (PrimFloat.is_nan x || PrimFloat.is_infinity x).

Fixpoint present {A} (l : list (string * option A)) : list (string * A) :=
  match l with
  | [] => []
  | (k, Some a) :: r => (k, a) :: present r
  | (_, None) :: r => present r
  end.

(** [JSON.stringify]: [None] is the answer [undefined]. *)
Fixpoint stringify (fuel : nat) (stack : list loc) (v : value)
  : M (option json) :=
  match v with
  | VUndefined => ret None
  | VNull => ret (Some JNull)
  | VBool b => ret (Some (JBool b))
  | VNum x =>
      ret (Some (if is_finite x
                 then JNum (JsNumber.of_string (JsNumber.to_string x))
                 else JNull))
  | VStr s => ret (Some (JStr s))
  | VRef l =>
      if existsb (loc_eqb l) stack
      then throw TypeError "Converting circular structure to JSON"
      else
        match fuel with
        | O => stuck OutOfFuel
        | S f =>
            o <- get_object l ;;
            match o with
            | OArray elems =>
                items <- mapM (fun e =>
                                 r <- stringify f (l :: stack) e ;;
                                 ret (match r with
                                      | Some j => j
                                      | None => JNull
                                      end)) elems ;;
                ret (Some (JArr items))
            | OObject props =>
                members <- mapM (fun kv =>
                                   r <- stringify f (l :: stack) (snd kv) ;;
                                   ret (fst kv, r)) props ;;
                ret (Some (JObj (present members)))
            end
        end
  end.

(** [JSON.parse]: every object and array of the text is a new object. *)
Fixpoint parse (j : json) : M value :=
  match j with
  | JNull => ret VNull
  | JBool b => ret (VBool b)
  | JNum x => ret (VNum x)
  | JStr s => ret (VStr s)
  | JArr items => vs <- mapM parse items ;; alloc (OArray vs)
  | JObj members =>
      kvs <- mapM (fun kj => v <- parse (snd kj) ;; ret (fst kj, v)) members ;;
      alloc (OObject (define_all kvs []))
  end.

Definition json_clone (fuel : nat) (v : value) : M value :=
  r <- stringify fuel [] v ;;
  match r with
  | Some j => parse j
  | None => throw SyntaxError "'undefined' is not valid JSON"
  end.

End Js.

(* ================================================================== *)
(** * types.ts: tokens and errors *)

Module Types.

Inductive TokenType :=
| STRING | NUMBER | IDENTIFIER
| ASSIGN | PLUS_ASSIGN | MINUS_ASSIGN | PLUS | MINUS | MULTIPLY | DIVIDE
| EQUALS | NOT_EQUALS | LESS_THAN | GREATER_THAN | LESS_EQUAL | GREATER_EQUAL
| DOT | COMMA | PIPE | COLON | DOUBLE_COLON | QUESTION | EXCLAMATION
| SEMICOLON
| LPAREN | RPAREN | LBRACKET | RBRACKET
| DOLLAR | NEWLINE | EOF
| ASSIGN_OP.

Definition TokenType_eqb (a b : TokenType) : bool :=
  match a, b with
  | STRING, STRING | NUMBER, NUMBER | IDENTIFIER, IDENTIFIER
  | ASSIGN, ASSIGN | PLUS_ASSIGN, PLUS_ASSIGN | MINUS_ASSIGN, MINUS_ASSIGN
  | PLUS, PLUS | MINUS, MINUS | MULTIPLY, MULTIPLY | DIVIDE, DIVIDE
  | EQUALS, EQUALS | NOT_EQUALS, NOT_EQUALS | LESS_THAN, LESS_THAN
  | GREATER_THAN, GREATER_THAN | LESS_EQUAL, LESS_EQUAL
  | GREATER_EQUAL, GREATER_EQUAL
  | DOT, DOT | COMMA, COMMA | PIPE, PIPE | COLON, COLON
  | DOUBLE_COLON, DOUBLE_COLON | QUESTION, QUESTION
  | EXCLAMATION, EXCLAMATION | SEMICOLON, SEMICOLON
  | LPAREN, LPAREN | RPAREN, RPAREN | LBRACKET, LBRACKET
  | RBRACKET, RBRACKET
  | DOLLAR, DOLLAR | NEWLINE, NEWLINE | EOF, EOF | ASSIGN_OP, ASSIGN_OP => true
  | _, _ => false
  end.

Record Token := mkToken {
  type : TokenType;
  value : string;
  line : nat;
  column : nat
}.

(** [class ParseError]: [message] is the text handed to the constructor;
    the [Error] message is [error_message]. *)
Record ParseError := mkParseError {
  message : string;
  error_line : nat;
  error_column : nat
}.

Definition error_message (e : ParseError) : string :=
  "Parse error at line " ++ JsString.of_nat (error_line e) ++ ", column "
    ++ JsString.of_nat (error_column e) ++ ": " ++ message e.

(** Result of lexing or parsing: a value, a thrown [ParseError], or the
    model's recursion budget exhausted. *)
Inductive presult (A : Type) :=
| Parsed (a : A)
| Failed (e : ParseError)
| Timeout.
Arguments Parsed {A} a.
Arguments Failed {A} e.
Arguments Timeout {A}.

End Types.

(* ================================================================== *)
(** * parser/lexer.ts *)

Module Lexer.
Import Types.

Record Lexer := mkLexer {
  input : string;
  position : nat;
  cur_line : nat;
  cur_column : nat
}.

Definition new (input : string) : Lexer := mkLexer input 0 1 1.

Definition nul : ascii := ascii_of_nat 0.
Definition lf : ascii := ascii_of_nat 10.
Definition cr : ascii := ascii_of_nat 13.
Definition tab : ascii := ascii_of_nat 9.
Definition dquote : ascii := ascii_of_nat 34.
Definition squote : ascii := ascii_of_nat 39.
Definition backslash : ascii := ascii_of_nat 92.

Definition str (c : ascii) : string := String c EmptyString.

Definition isAtEnd (L : Lexer) : bool :=
  Nat.leb (String.length (input L)) (position L).

Definition char_at (L : Lexer) (i : nat) : ascii :=
  match String.get i (input L) with Some c => c | None => nul end.

Definition peek (L : Lexer) : ascii :=
  if isAtEnd L then nul else char_at L (position L).

Definition peekNext (L : Lexer) : ascii :=
  if Nat.leb (String.length (input L)) (position L + 1) then nul
  else char_at L (position L + 1).

Definition advance (L : Lexer) : ascii * Lexer :=
  if isAtEnd L then (nul, L)
  else
    let c := char_at L (position L) in
    (c,
     if Ascii.eqb c lf
     then mkLexer (input L) (S (position L)) (S (cur_line L)) 1
     else mkLexer (input L) (S (position L)) (cur_line L) (S (cur_column L))).

(** [match] *)
Definition match_ (L : Lexer) (expected : ascii) : bool * Lexer :=
  if isAtEnd L || negb (Ascii.eqb (char_at L (position L)) expected)
  then (false, L)
  else (true,
        mkLexer (input L) (S (position L)) (cur_line L) (S (cur_column L))).

Definition isDigit (c : ascii) : bool :=
  Nat.leb 48 (nat_of_ascii c) && Nat.leb (nat_of_ascii c) 57.

Definition isAlpha (c : ascii) : bool :=
  let n := nat_of_ascii c in
  (Nat.leb 97 n && Nat.leb n 122) || (Nat.leb 65 n && Nat.leb n 90)
  || Nat.eqb n 95.

Definition isAlphaNumeric (c : ascii) : bool := isAlpha c || isDigit c.

(** [while (!this.isAtEnd() && pred(this.peek())) value += this.advance()] *)
Fixpoint take_while (fuel : nat) (pred : ascii -> bool) (value : string)
  (L : Lexer) : option (string * Lexer) :=
  match fuel with
  | O => None
  | S f =>
      if negb (isAtEnd L) && pred (peek L)
      then let '(c, L1) := advance L in take_while f pred (value ++ str c) L1
      else Some (value, L)
  end.

(** the loop of [string]; a raw line feed inside the literal bumps the
    line counter without consuming the character *)
Fixpoint string_loop (fuel : nat) (quote : ascii) (value : string)
  (L : Lexer) : option (string * Lexer) :=
  match fuel with
  | O => None
  | S f =>
      if negb (isAtEnd L) && negb (Ascii.eqb (peek L) quote) then
        if Ascii.eqb (peek L) lf then
          string_loop f quote value
            (mkLexer (input L) (position L) (S (cur_line L)) 0)
        else if Ascii.eqb (peek L) backslash then
          let '(_, L1) := advance L in
          let '(escaped, L2) := advance L1 in
          let piece :=
            if Ascii.eqb escaped "n" then str lf
            else if Ascii.eqb escaped "t" then str tab
            else if Ascii.eqb escaped "r" then str cr
            else if Ascii.eqb escaped backslash then str backslash
            else if Ascii.eqb escaped dquote then str dquote
            else if Ascii.eqb escaped squote then str squote
            else str escaped in
          string_loop f quote (value ++ piece) L2
        else
          let '(c, L1) := advance L in
          string_loop f quote (value ++ str c) L1
      else Some (value, L)
  end.

Definition string_ (fuel : nat) (quote : ascii) (startLine startColumn : nat)
  (L : Lexer) : presult (Token * Lexer) :=
  match string_loop fuel quote EmptyString L with
  | None => Timeout
  | Some (value, L1) =>
      if isAtEnd L1
      then Failed (mkParseError "Unterminated string" startLine startColumn)
      else
        let '(_, L2) := advance L1 in
        Parsed (mkToken STRING value startLine startColumn, L2)
  end.

(** [this.position--; this.column--] *)
Definition back_up (L : Lexer) : Lexer :=
  mkLexer (input L) (position L - 1) (cur_line L) (cur_column L - 1).

Definition number (fuel : nat) (startLine startColumn : nat) (L0 : Lexer)
  : presult (Token * Lexer) :=
  let L := back_up L0 in
  match take_while fuel isDigit EmptyString L with
  | None => Timeout
  | Some (value, L1) =>
      if negb (isAtEnd L1) && Ascii.eqb (peek L1) "." && isDigit (peekNext L1)
      then
        let '(dot, L2) := advance L1 in
        match take_while fuel isDigit (value ++ str dot) L2 with
        | None => Timeout
        | Some (value', L3) =>
            Parsed (mkToken NUMBER value' startLine startColumn, L3)
        end
      else Parsed (mkToken NUMBER value startLine startColumn, L1)
  end.

Definition identifier (fuel : nat) (startLine startColumn : nat) (L0 : Lexer)
  : presult (Token * Lexer) :=
  match take_while fuel isAlphaNumeric EmptyString (back_up L0) with
  | None => Timeout
  | Some (value, L1) =>
      Parsed (mkToken IDENTIFIER value startLine startColumn, L1)
  end.

(** the comment loop: [while (!isAtEnd() && peek() !== '\n') advance()] *)
Fixpoint skip_comment (fuel : nat) (L : Lexer) : option Lexer :=
  match fuel with
  | O => None
  | S f =>
      if negb (isAtEnd L) && negb (Ascii.eqb (peek L) lf)
      then skip_comment f (snd (advance L))
      else Some L
  end.

Fixpoint skipWhitespace (fuel : nat) (L : Lexer) : option Lexer :=
  match fuel with
  | O => None
  | S f =>
      if isAtEnd L then Some L
      else
        let c := peek L in
        if Ascii.eqb c " " || Ascii.eqb c cr || Ascii.eqb c tab
        then skipWhitespace f (snd (advance L))
        else if Ascii.eqb c "#" then
          match skip_comment fuel L with
          | Some L1 => skipWhitespace f L1
          | None => None
          end
        else Some L
  end.

(** a token of one character, or of two when [second] follows *)
Definition one_or_two (L : Lexer) (c second : ascii) (two one : TokenType)
  (startLine startColumn : nat) : presult (Token * Lexer) :=
  let '(m, L1) := match_ L second in
  if m
  then Parsed (mkToken two (str c ++ str second) startLine startColumn, L1)
  else Parsed (mkToken one (str c) startLine startColumn, L).

Definition nextToken (fuel : nat) (L0 : Lexer) : presult (Token * Lexer) :=
  let startLine := cur_line L0 in
  let startColumn := cur_column L0 in
  let '(char, L) := advance L0 in
  let single t := Parsed (mkToken t (str char) startLine startColumn, L) in
  if Ascii.eqb char lf then single NEWLINE
  else if Ascii.eqb char "(" then single LPAREN
  else if Ascii.eqb char ")" then single RPAREN
  else if Ascii.eqb char "[" then single LBRACKET
  else if Ascii.eqb char "]" then single RBRACKET
  else if Ascii.eqb char "." then single DOT
  else if Ascii.eqb char "," then single COMMA
  else if Ascii.eqb char "|" then single PIPE
  else if Ascii.eqb char "?" then single QUESTION
  else if Ascii.eqb char ";" then single SEMICOLON
  else if Ascii.eqb char "$" then single DOLLAR
  else if Ascii.eqb char "+" then
    one_or_two L char "=" PLUS_ASSIGN PLUS startLine startColumn
  else if Ascii.eqb char "-" then
    one_or_two L char "=" MINUS_ASSIGN MINUS startLine startColumn
  else if Ascii.eqb char "*" then single MULTIPLY
  else if Ascii.eqb char "/" then single DIVIDE
  else if Ascii.eqb char "=" then
    one_or_two L char "=" EQUALS ASSIGN startLine startColumn
  else if Ascii.eqb char "!" then
    one_or_two L char "=" NOT_EQUALS EXCLAMATION startLine startColumn
  else if Ascii.eqb char "<" then
    one_or_two L char "=" LESS_EQUAL LESS_THAN startLine startColumn
  else if Ascii.eqb char ">" then
    one_or_two L char "=" GREATER_EQUAL GREATER_THAN startLine startColumn
  else if Ascii.eqb char ":" then
    let '(m, L1) := match_ L "=" in
    if m then Parsed (mkToken ASSIGN_OP ":=" startLine startColumn, L1)
    else
      one_or_two L char ":" DOUBLE_COLON COLON startLine startColumn
  else if Ascii.eqb char dquote || Ascii.eqb char squote then
    string_ fuel char startLine startColumn L
  else if isDigit char then number fuel startLine startColumn L
  else if isAlpha char then identifier fuel startLine startColumn L
  else
    Failed (mkParseError ("Unexpected character '" ++ str char ++ "'")
                         startLine startColumn).

Fixpoint tokenize_loop (fuel : nat) (tokens : list Token) (L : Lexer)
  : presult (list Token * Lexer) :=
  match fuel with
  | O => Timeout
  | S f =>
      if isAtEnd L then Parsed (tokens, L)
      else
        match skipWhitespace fuel L with
        | None => Timeout
        | Some L1 =>
            if isAtEnd L1 then Parsed (tokens, L1)
            else
              match nextToken fuel L1 with
              | Parsed (token, L2) => tokenize_loop f (tokens ++ [token])%list L2
              | Failed e => Failed e
              | Timeout => Timeout
              end
        end
  end.

Definition tokenize (fuel : nat) (text : string) : presult (list Token) :=
  match tokenize_loop fuel [] (new text) with
  | Parsed (tokens, L) =>
      Parsed (tokens ++ [mkToken EOF "" (cur_line L) (cur_column L)])%list
  | Failed e => Failed e
  | Timeout => Timeout
  end.

End Lexer.

(* ================================================================== *)
(** * ast/nodes.ts *)

Module Nodes.
Import JsString Js.
Local Open Scope js_scope.

Inductive AssignmentOperator := OpSet | OpAdd | OpSub.          (* = += -= *)

Inductive BinaryOperator :=
| Plus | Minus | Times | Divide
| Equal | NotEqual | Less | Greater | LessEq | GreaterEq.

Record VariableReference := mkVariableReference {
  path : list string;
  isKnowledge : bool
}.

(** The expression nodes (what an [Alternative] holds). *)
#[warnings="-register-all"]
Inductive ASTNode :=
| Literal (value : prim)
| VarRef (ref : VariableReference)
| RuleReference (ruleName : string)
| Assignment (target : VariableReference) (operator : AssignmentOperator)
             (expression : ASTNode)
| BinaryExpression (left : ASTNode) (operator : BinaryOperator)
                   (right : ASTNode)
| ConditionalExpression (condition trueValue : ASTNode)
                        (falseValue : option ASTNode)
| SilentExpression (expression : ASTNode)
| CompoundExpression (expressions : list ASTNode).

Record Alternative := mkAlternative {
  elements : list ASTNode;
  weight : JsNumber.num
}.

Record Rule := mkRule {
  name : string;
  alternatives : list Alternative
}.

(** [rules: Map<string, Rule>] *)
Record Grammar := mkGrammar { rules : list (string * Rule) }.

(** [ExecutionContext]; [variables] is the identity of a [Map], the
    [random] closure is the [source] of the store. *)
Record ExecutionContext := mkContext {
  knowledge : Js.value;
  variables : nat;
  grammar : option Grammar
}.

Record EvaluationResult := mkResult {
  value : Js.value;
  updatedKnowledge : Js.value
}.

(** [new EvaluationError(message, path)]: the message of the [Error] *)
Definition EvaluationError_message (message : string) (path : option string)
  : string :=
  match path with
  | Some p =>
      if String.eqb p "" then "Evaluation error: " ++ message
      else "Evaluation error at " ++ p ++ ": " ++ message
  | None => "Evaluation error: " ++ message
  end.

Definition throw_EvaluationError {A} (message : string) : M A :=
  throw EvaluationError (EvaluationError_message message None).

(** [new Map(m)] *)
Definition map_copy (m : nat) : M nat :=
  e <- map_entries m ;; map_new e.

Definition VariableReference_toString (r : VariableReference) : string :=
  if isKnowledge r then "$$." ++ String.concat "." (tl (path r))
  else "$" ++ String.concat "." (path r).

(** [typeof value === 'string' && !isNaN(Number(value))
     && value.trim() !== '' ? Number(value) : value] *)
Definition number_if_numeric_text (v : Js.value) : Js.value :=
  match v with
  | VStr s =>
      if negb (JsNumber.isNaN (JsNumber.of_string s))
         && negb (String.eqb (trim s) "")
      then VNum (JsNumber.of_string s)
      else v
  | _ => v
  end.

(** [typeof result.value === 'string' ? result.value.trim() : ...] *)
Definition trim_result (r : EvaluationResult) : EvaluationResult :=
  match value r with
  | VStr s => mkResult (VStr (trim s)) (updatedKnowledge r)
  | _ => r
  end.

(** The test of [Alternative.evaluate] for putting a space before
    [valueStr]:
<<
  needsSpace && valueStr !== '\n' && !valueStr.startsWith('\n')
    && result !== '' && !result.endsWith('\n')
    && !/^[.,!?;:]/.test(valueStr)
>> *)
Definition space_before (needsSpace : bool) (result valueStr : string)
  : bool :=
  needsSpace
  && negb (String.eqb valueStr newline)
  && negb (startsWith newline valueStr)
  && negb (String.eqb result "")
  && negb (endsWith newline result)
  && negb (starts_with_one_of ".,!?;:" valueStr).

(** [elementResult.value !== null && elementResult.value !== undefined
     && elementResult.value !== ''] *)
Definition has_text (v : Js.value) : bool :=
  match v with
  | VNull | VUndefined => false
  | VStr s => negb (String.eqb s "")
  | _ => true
  end.

Section Evaluate.

(** budget for conversions to text and for the JSON copy *)
Variable fuel : nat.

(** [node.evaluate(context)] for the nodes below the one at hand *)
Variable evaluate : ASTNode -> ExecutionContext -> M EvaluationResult.

(* ---------------------------------------------------------------- *)
(** ** Alternative *)

Fixpoint Alternative_loop (elems : list ASTNode) (context : ExecutionContext)
  (currentVariables : nat) (result : string) (currentKnowledge : Js.value)
  (needsSpace : bool) : M EvaluationResult :=
  match elems with
  | [] => ret (mkResult (VStr result) currentKnowledge)
  | element :: rest =>
      let elementContext :=
        mkContext currentKnowledge currentVariables (grammar context) in
      elementResult <- evaluate element elementContext ;;
      acc <- (if has_text (value elementResult) then
                valueStr <- to_string fuel (value elementResult) ;;
                ret ((if space_before needsSpace result valueStr
                      then result ++ " " else result) ++ valueStr, true)
              else ret (result, needsSpace)) ;;
      copy_entries (variables elementContext) currentVariables ;;;
      Alternative_loop rest context currentVariables (fst acc)
                       (updatedKnowledge elementResult) (snd acc)
  end.

Definition Alternative_evaluate (alt : Alternative)
  (context : ExecutionContext) : M EvaluationResult :=
  currentVariables <- map_copy (variables context) ;;
  Alternative_loop (elements alt) context currentVariables ""
                   (knowledge context) false.

(* ---------------------------------------------------------------- *)
(** ** Rule *)

(** The body shared by the loop and the fallback of
    [selectWeightedAlternative]: evaluate under a copy of the variables,
    then write the entries of that copy back. *)
Definition evaluate_selected (alt : Alternative) (context : ExecutionContext)
  : M EvaluationResult :=
  altVariables <- map_copy (variables context) ;;
  let altContext :=
    mkContext (knowledge context) altVariables (grammar context) in
  result <- Alternative_evaluate alt altContext ;;
  copy_entries altVariables (variables context) ;;;
  ret result.

Fixpoint select_loop (alts : list Alternative) (fallback : Alternative)
  (random currentWeight : JsNumber.num) (context : ExecutionContext)
  : M EvaluationResult :=
  match alts with
  | [] => evaluate_selected fallback context
  | alt :: rest =>
      let currentWeight' := PrimFloat.add currentWeight (weight alt) in
      if PrimFloat.leb random currentWeight'
      then evaluate_selected alt context
      else select_loop rest fallback random currentWeight' context
  end.

Definition totalWeight (alts : list Alternative) : JsNumber.num :=
  fold_left (fun sum w => PrimFloat.add sum w) (map weight alts)
            PrimFloat.zero.

Definition selectWeightedAlternative (first : Alternative)
  (alts : list Alternative) (context : ExecutionContext)
  : M EvaluationResult :=
  r <- random ;;
  select_loop alts (last alts first) (PrimFloat.mul r (totalWeight alts))
              PrimFloat.zero context.

Definition Rule_evaluate (rule : Rule) (context : ExecutionContext)
  : M EvaluationResult :=
  match alternatives rule with
  | [] =>
      throw_EvaluationError ("Rule " ++ name rule ++ " has no alternatives")
  | [alt] => Alternative_evaluate alt context
  | first :: _ => selectWeightedAlternative first (alternatives rule) context
  end.

(* ---------------------------------------------------------------- *)
(** ** VariableReference *)

(** [item && typeof item === 'object' && key in item] *)
Definition object_with (key : string) (item : Js.value) : M bool :=
  match item with
  | VRef _ => has_property item key
  | VPrim _ => ret false
  end.

Definition item_weight (item : Js.value) : M Js.value :=
  w <- object_with "weight" item ;;
  if w then get_property item "weight" else ret (VNum PrimFloat.one).

Definition item_value (item : Js.value) : M Js.value :=
  w <- object_with "value" item ;;
  if w then get_property item "value" else ret item.

(** [array.some(...)] *)
Fixpoint some_weighted (array : list Js.value) : M bool :=
  match array with
  | [] => ret false
  | item :: rest =>
      w <- object_with "weight" item ;;
      if w then ret true else some_weighted rest
  end.

(** [array.reduce((sum, item) => sum + weight(item), 0)] *)
Fixpoint sum_weights (array : list Js.value) (sum : Js.value) : M Js.value :=
  match array with
  | [] => ret sum
  | item :: rest =>
      w <- item_weight item ;;
      sum' <- js_add fuel sum w ;;
      sum_weights rest sum'
  end.

(** the weighted walk; [None] when no item is reached *)
Fixpoint weighted_walk (array : list Js.value) (random currentWeight : Js.value)
  : M (option Js.value) :=
  match array with
  | [] => ret None
  | item :: rest =>
      w <- item_weight item ;;
      currentWeight' <- js_add fuel currentWeight w ;;
      hit <- js_le fuel random currentWeight' ;;
      if hit then v <- item_value item ;; ret (Some v)
      else weighted_walk rest random currentWeight'
  end.

(** [array[Math.floor(x)]] *)
Definition element_at_floor (array : list Js.value) (x : JsNumber.num) : Js.value :=
  match JsNumber.floor x with
  | Some z =>
      if (z <? 0)%Z then VUndefined
      else match nth_error array (Z.to_nat z) with
           | Some v => v
           | None => VUndefined
           end
  | None => VUndefined
  end.

Definition simple_selection (array : list Js.value)
  (context : ExecutionContext) : M EvaluationResult :=
  r <- random ;;
  let selected :=
    element_at_floor array
      (PrimFloat.mul r (JsNumber.of_Z (Z.of_nat (List.length array)))) in
  v <- item_value selected ;;
  ret (mkResult v (knowledge context)).

Definition selectFromArray (array : list Js.value) (context : ExecutionContext)
  : M EvaluationResult :=
  match array with
  | [] => ret (mkResult (VStr "") (knowledge context))
  | _ =>
      hasWeights <- some_weighted array ;;
      if hasWeights then
        total <- sum_weights array (VNum PrimFloat.zero) ;;
        r <- random ;;
        scaled <- js_mul fuel (VNum r) total ;;
        found <- weighted_walk array scaled (VNum PrimFloat.zero) ;;
        match found with
        | Some v => ret (mkResult v (knowledge context))
        | None => simple_selection array context
        end
      else simple_selection array context
  end.

(** the loop of [evaluateKnowledgePath] *)
Fixpoint walk_knowledge (parts : list string) (current : Js.value)
  (resolvedPath : list string) : M Js.value :=
  match parts with
  | [] => ret current
  | part :: rest =>
      match current with
      | VNull | VUndefined =>
          throw_EvaluationError
            ("Cannot access property '" ++ part ++ "' of "
               ++ typeof_name current)
      | _ =>
          found <- object_with part current ;;
          if found then
            next <- get_property current part ;;
            walk_knowledge rest next (resolvedPath ++ [part])
          else
            availableKeys <- object_keys current ;;
            throw_EvaluationError
              ("Property '" ++ part ++ "' not found at "
                 ++ String.concat "." resolvedPath ++ ". Available: ["
                 ++ String.concat ", " availableKeys ++ "]")
      end
  end.

Definition evaluateKnowledgePath (r : VariableReference)
  (context : ExecutionContext) : M EvaluationResult :=
  match path r with
  | root :: pathParts =>
      if String.eqb root "$" then
        current <- walk_knowledge pathParts (knowledge context) ["$$"] ;;
        arr <- is_array current ;;
        match arr with
        | Some array => selectFromArray array context
        | None => ret (mkResult current (knowledge context))
        end
      else throw_EvaluationError ("Expected '$$' but got '" ++ root ++ "'")
  | [] => throw_EvaluationError "Expected '$$' but got 'undefined'"
  end.

(** the dotted sub-path of a variable *)
Fixpoint walk_variable (parts : list string) (v : Js.value) : M Js.value :=
  match parts with
  | [] => ret v
  | part :: rest =>
      match v with
      | VPrim p =>
          throw_EvaluationError
            ("Cannot access property '" ++ part ++ "' of " ++ prim_to_string p)
      | VRef _ =>
          next <- get_property v part ;;
          walk_variable rest next
      end
  end.

Definition lookup_rule (context : ExecutionContext) (ruleName : string)
  : option Rule :=
  match grammar context with
  | Some g => alist_get ruleName (rules g)
  | None => None
  end.

Definition evaluateVariable (r : VariableReference)
  (context : ExecutionContext) : M EvaluationResult :=
  match path r with
  | [] => throw_EvaluationError "Variable or rule 'undefined' not defined"
  | varName :: subPath =>
      bound <- map_has (variables context) varName ;;
      if bound then
        v0 <- map_get (variables context) varName ;;
        v <- walk_variable subPath v0 ;;
        ret (mkResult (number_if_numeric_text v) (knowledge context))
      else
        match subPath, lookup_rule context varName with
        | [], Some rule =>
            result <- Rule_evaluate rule context ;;
            ret (trim_result result)
        | _, _ =>
            throw_EvaluationError
              ("Variable or rule '" ++ varName ++ "' not defined")
        end
  end.

Definition VariableReference_evaluate (r : VariableReference)
  (context : ExecutionContext) : M EvaluationResult :=
  rethrow
    (if isKnowledge r then evaluateKnowledgePath r context
     else evaluateVariable r context)
    (fun error =>
       mkError EvaluationError
         (EvaluationError_message
            ("Failed to resolve variable " ++ VariableReference_toString r
               ++ ": " ++ message error)
            (Some (VariableReference_toString r)))).

(* ---------------------------------------------------------------- *)
(** ** RuleReference *)

Definition RuleReference_evaluate (ruleName : string)
  (context : ExecutionContext) : M EvaluationResult :=
  bound <- map_has (variables context) ruleName ;;
  if bound then
    v <- map_get (variables context) ruleName ;;
    ret (mkResult (number_if_numeric_text v) (knowledge context))
  else
    match grammar context with
    | None =>
        throw_EvaluationError
          ("Cannot resolve rule reference '" ++ ruleName
             ++ "' - no grammar context")
    | Some g =>
        match alist_get ruleName (rules g) with
        | None => throw_EvaluationError ("Rule '" ++ ruleName ++ "' not found")
        | Some rule =>
            result <- Rule_evaluate rule context ;;
            ret (trim_result result)
        end
    end.

(* ---------------------------------------------------------------- *)
(** ** Assignment *)

(** [typeof value === 'string' && !isNaN(Number(value))
     ? Number(value) : value] *)
Definition number_if_numeric_string (v : Js.value) : Js.value :=
  match v with
  | VStr s =>
      if negb (JsNumber.isNaN (JsNumber.of_string s))
      then VNum (JsNumber.of_string s) else v
  | _ => v
  end.

(** [x || 0] *)
Definition or_zero (v : Js.value) : Js.value :=
  if truthy v then v else VNum PrimFloat.zero.

(** [!isNaN(Number(a)) && !isNaN(Number(b))] *)
Definition both_numeric (a b : Js.value) : M bool :=
  na <- numeric_looking fuel a ;;
  if na then numeric_looking fuel b else ret false.

(** The walk to the parent of the target property; missing steps are
    created as [{}].  Answers the parent and the final property name. *)
Fixpoint navigate (pathParts : list string) (current : Js.value)
  : M (Js.value * string) :=
  match pathParts with
  | [] => ret (current, "undefined")
  | [finalProp] => ret (current, finalProp)
  | part :: rest =>
      found <- has_property current part ;;
      (if found then ret tt
       else o <- alloc (OObject []) ;; set_property current part o) ;;;
      next <- get_property current part ;;
      navigate rest next
  end.

Definition assignToKnowledge (target : VariableReference)
  (operator : AssignmentOperator) (context : ExecutionContext)
  (v : Js.value) : M EvaluationResult :=
  match path target with
  | root :: pathParts =>
      if String.eqb root "$" then
        newKnowledge <- json_clone fuel (knowledge context) ;;
        cf <- navigate pathParts newKnowledge ;;
        let '(current, finalProp) := cf in
        resultValue <-
          match operator with
          | OpSet =>
              set_property current finalProp (number_if_numeric_string v) ;;;
              ret v
          | OpAdd =>
              cur <- get_property current finalProp ;;
              let currentAddValue := or_zero cur in
              numeric <- both_numeric currentAddValue v ;;
              resultValue <-
                (if numeric then js_arith PrimFloat.add fuel currentAddValue v
                 else js_add fuel currentAddValue v) ;;
              set_property current finalProp resultValue ;;;
              ret resultValue
          | OpSub =>
              cur <- get_property current finalProp ;;
              let currentSubValue := or_zero cur in
              numeric <- both_numeric currentSubValue v ;;
              resultValue <-
                (if numeric then js_sub fuel currentSubValue v
                 else throw_EvaluationError
                        "Subtraction is only valid for numeric values") ;;
              set_property current finalProp resultValue ;;;
              ret resultValue
          end ;;
        ret (mkResult resultValue newKnowledge)
      else throw_EvaluationError "Knowledge assignment must start with $$"
  | [] => throw_EvaluationError "Knowledge assignment must start with $$"
  end.

Definition assignToVariable (target : VariableReference)
  (operator : AssignmentOperator) (context : ExecutionContext)
  (v : Js.value) : M EvaluationResult :=
  match path target with
  | [] => stuck Unmodelled       (* the key [undefined] of a Map *)
  | varName :: _ =>
      resultValue <-
        match operator with
        | OpSet =>
            map_set (variables context) varName v ;;;
            ret v
        | OpAdd =>
            cur <- map_get (variables context) varName ;;
            resultValue <- js_add fuel (or_zero cur) v ;;
            map_set (variables context) varName resultValue ;;;
            ret resultValue
        | OpSub =>
            cur <- map_get (variables context) varName ;;
            resultValue <- js_sub fuel (or_zero cur) v ;;
            map_set (variables context) varName resultValue ;;;
            ret resultValue
        end ;;
      ret (mkResult resultValue (knowledge context))
  end.

Definition Assignment_evaluate (target : VariableReference)
  (operator : AssignmentOperator) (expression : ASTNode)
  (context : ExecutionContext) : M EvaluationResult :=
  exprResult <- evaluate expression context ;;
  let newContext :=
    mkContext (updatedKnowledge exprResult) (variables context)
              (grammar context) in
  if isKnowledge target
  then assignToKnowledge target operator newContext (value exprResult)
  else assignToVariable target operator newContext (value exprResult).

(* ---------------------------------------------------------------- *)
(** ** BinaryExpression *)

Definition trim_value (v : Js.value) : Js.value :=
  match v with
  | VStr s => VStr (trim s)
  | _ => v
  end.

(** [!isNaN(Number(v)) && v !== ''] *)
Definition numeric_operand (v : Js.value) : M bool :=
  n <- numeric_looking fuel v ;;
  ret (n && negb (match v with VStr s => String.eqb s "" | _ => false end)).

Definition bool_result (c : M bool) : M Js.value :=
  b <- c ;; ret (VBool b).

Definition applyOperator (operator : BinaryOperator) (left right : Js.value)
  : M Js.value :=
  let numLeft := number_if_numeric_string left in
  let numRight := number_if_numeric_string right in
  match operator with
  | Plus =>
      match numLeft, numRight with
      | VNum x, VNum y => ret (VNum (PrimFloat.add x y))
      | _, _ => js_add fuel left right
      end
  | Minus => js_sub fuel numLeft numRight
  | Times => js_mul fuel numLeft numRight
  | Divide => js_div fuel numLeft numRight
  | Equal => bool_result (js_loose_eq fuel left right)
  | NotEqual => b <- js_loose_eq fuel left right ;; ret (VBool (negb b))
  | Less => bool_result (js_lt fuel left right)
  | Greater => bool_result (js_gt fuel left right)
  | LessEq => bool_result (js_le fuel left right)
  | GreaterEq => bool_result (js_ge fuel left right)
  end.

Definition BinaryExpression_evaluate (left : ASTNode)
  (operator : BinaryOperator) (right : ASTNode) (context : ExecutionContext)
  : M EvaluationResult :=
  leftResult <- evaluate left context ;;
  let rightContext :=
    mkContext (updatedKnowledge leftResult) (variables context)
              (grammar context) in
  rightResult <- evaluate right rightContext ;;
  let leftValue := trim_value (value leftResult) in
  let rightValue := trim_value (value rightResult) in
  leftNumeric <- numeric_operand leftValue ;;
  rightNumeric <- numeric_operand rightValue ;;
  operands <-
    (if leftNumeric && rightNumeric then
       x <- to_number fuel leftValue ;;
       y <- to_number fuel rightValue ;;
       ret (VNum x, VNum y)
     else ret (leftValue, rightValue)) ;;
  result <- applyOperator operator (fst operands) (snd operands) ;;
  ret (mkResult result (updatedKnowledge rightResult)).

(* ---------------------------------------------------------------- *)
(** ** ConditionalExpression *)

(** One step of the [reduce] that joins the values of a compound
    branch:
<<
  if (acc && !acc.endsWith(' ') && !value.startsWith(' ')
      && !value.match(/^[.,!?]/)) return acc + ' ' + value;
  return acc + value;
>>
    [acc] is a string throughout; a [value] that is not a string has no
    [startsWith]. *)
Definition join_branch_value (acc : string) (v : Js.value) : M string :=
  spaced <-
    (if String.eqb acc "" || endsWith " " acc then ret false
     else
       match v with
       | VStr s =>
           ret (negb (startsWith " " s) && negb (starts_with_one_of ".,!?" s))
       | VNull | VUndefined =>
           throw TypeError
             ("Cannot read properties of " ++ typeof_name v
                ++ " (reading 'startsWith')")
       | _ => throw TypeError "value.startsWith is not a function"
       end) ;;
  text <- to_string fuel v ;;
  ret ((if spaced then acc ++ " " else acc) ++ text).

Fixpoint join_branch_values (results : list EvaluationResult) (acc : string)
  : M string :=
  match results with
  | [] => ret acc
  | res :: rest =>
      acc' <- join_branch_value acc (value res) ;;
      join_branch_values rest acc'
  end.

(** [results.reduce((acc, res) => ({ ...acc, ...res.updatedKnowledge }),
     context.knowledge)] *)
Fixpoint merge_knowledge (results : list EvaluationResult) (acc : Js.value)
  : M Js.value :=
  match results with
  | [] => ret acc
  | res :: rest =>
      acc' <- spread2 acc (updatedKnowledge res) ;;
      merge_knowledge rest acc'
  end.

Definition evaluateBranch (branch : ASTNode) (context : ExecutionContext)
  : M EvaluationResult :=
  match branch with
  | CompoundExpression exprs =>
      results <- mapM (fun expr => evaluate expr context) exprs ;;
      combinedValue <- join_branch_values results "" ;;
      merged <- merge_knowledge results (knowledge context) ;;
      ret (mkResult (VStr combinedValue) merged)
  | _ => evaluate branch context
  end.

Definition ConditionalExpression_evaluate (condition trueValue : ASTNode)
  (falseValue : option ASTNode) (context : ExecutionContext)
  : M EvaluationResult :=
  condResult <- evaluate condition context ;;
  let newContext :=
    mkContext (updatedKnowledge condResult) (variables context)
              (grammar context) in
  if truthy (value condResult) then evaluateBranch trueValue newContext
  else
    match falseValue with
    | Some branch => evaluateBranch branch newContext
    | None => ret (mkResult (VStr "") (updatedKnowledge condResult))
    end.

(* ---------------------------------------------------------------- *)
(** ** SilentExpression, CompoundExpression, Literal *)

Definition SilentExpression_evaluate (expression : ASTNode)
  (context : ExecutionContext) : M EvaluationResult :=
  result <- evaluate expression context ;;
  ret (mkResult (VStr "") (updatedKnowledge result)).

(** [for (const [key, value] of exprContext.variables.entries()) {
      currentVariables.set(key, value);
      context.variables.set(key, value); }] *)
Fixpoint set_both (working parent : nat) (entries : varmap) : M unit :=
  match entries with
  | [] => ret tt
  | (k, v) :: r =>
      map_set working k v ;;;
      map_set parent k v ;;;
      set_both working parent r
  end.

Fixpoint Compound_loop (exprs : list ASTNode) (context : ExecutionContext)
  (currentVariables : nat) (currentKnowledge lastValue : Js.value)
  : M EvaluationResult :=
  match exprs with
  | [] => ret (mkResult lastValue currentKnowledge)
  | expr :: rest =>
      let exprContext :=
        mkContext currentKnowledge currentVariables (grammar context) in
      result <- evaluate expr exprContext ;;
      entries <- map_entries (variables exprContext) ;;
      set_both currentVariables (variables context) entries ;;;
      Compound_loop rest context currentVariables (updatedKnowledge result)
                    (value result)
  end.

Definition CompoundExpression_evaluate (exprs : list ASTNode)
  (context : ExecutionContext) : M EvaluationResult :=
  currentVariables <- map_copy (variables context) ;;
  Compound_loop exprs context currentVariables (knowledge context) (VStr "").

Definition Literal_evaluate (v : prim) (context : ExecutionContext)
  : M EvaluationResult :=
  ret (mkResult (VPrim v) (knowledge context)).

(** dispatch on the class of the node *)
Definition evaluate_node (node : ASTNode) (context : ExecutionContext)
  : M EvaluationResult :=
  match node with
  | Literal v => Literal_evaluate v context
  | VarRef r => VariableReference_evaluate r context
  | RuleReference ruleName => RuleReference_evaluate ruleName context
  | Assignment target operator expression =>
      Assignment_evaluate target operator expression context
  | BinaryExpression lhs operator rhs =>
      BinaryExpression_evaluate lhs operator rhs context
  | ConditionalExpression condition trueValue falseValue =>
      ConditionalExpression_evaluate condition trueValue falseValue context
  | SilentExpression expression =>
      SilentExpression_evaluate expression context
  | CompoundExpression exprs => CompoundExpression_evaluate exprs context
  end.

End Evaluate.

(** [node.evaluate(context)]: each nested call spends one unit of the
    budget; a run that needs more is reported as [Stuck OutOfFuel]. *)
Fixpoint evaluate (fuel : nat) (node : ASTNode) (context : ExecutionContext)
  : M EvaluationResult :=
  match fuel with
  | O => stuck OutOfFuel
  | S f => evaluate_node f (evaluate f) node context
  end.

(** [Grammar.evaluate] *)
Definition Grammar_evaluate (fuel : nat) (g : Grammar)
  (context : ExecutionContext) : M EvaluationResult :=
  match alist_get "start" (rules g) with
  | None => throw_EvaluationError "No start rule defined"
  | Some startRule =>
      let grammarContext :=
        mkContext (knowledge context) (variables context) (Some g) in
      result <- Rule_evaluate fuel (evaluate fuel) startRule grammarContext ;;
      match value result with
      | VNum x =>
          ret (mkResult (VStr (JsNumber.to_string x)) (updatedKnowledge result))
      | _ => ret result
      end
  end.

End Nodes.

(* ================================================================== *)
(** * parser/parser.ts *)

Module Parser.
Import Types Nodes.

(** A method of [Parser]: it reads and moves [this.current]. *)
Definition P (A : Type) : Type := nat -> presult (A * nat).

Definition pret {A} (a : A) : P A := fun cur => Parsed (a, cur).

Definition pbind {A B} (c : P A) (k : A -> P B) : P B :=
  fun cur =>
    match c cur with
    | Parsed (a, cur') => k a cur'
    | Failed e => Failed e
    | Timeout => Timeout
    end.

Definition pfail {A} (msg : string) (ln col : nat) : P A :=
  fun _ => Failed (mkParseError msg ln col).

Definition ptimeout {A} : P A := fun _ => Timeout.

Declare Scope parser_scope.
Delimit Scope parser_scope with parser.
Notation "x <- c ;; k" := (pbind c (fun x => k))
  (at level 61, c at next level, right associativity) : parser_scope.
Notation "c ;;; k" := (pbind c (fun _ => k))
  (at level 61, right associativity) : parser_scope.
Local Open Scope parser_scope.

Section WithTokens.

Variable tokens : list Token.

Definition token_at (i : nat) : Token := nth i tokens (mkToken EOF "" 0 0).

Definition peek : P Token := fun cur => Parsed (token_at cur, cur).

Definition previous : P Token := fun cur => Parsed (token_at (cur - 1), cur).

Definition isAtEnd : P bool :=
  t <- peek ;; pret (TokenType_eqb (type t) EOF).

Definition check (ty : TokenType) : P bool :=
  e <- isAtEnd ;;
  if e then pret false
  else t <- peek ;; pret (TokenType_eqb (type t) ty).

Definition advance : P Token :=
  e <- isAtEnd ;;
  (if e then pret tt else fun cur => Parsed (tt, S cur)) ;;;
  previous.

(** [match(...types)] *)
Fixpoint match_ (types : list TokenType) : P bool :=
  match types with
  | [] => pret false
  | ty :: rest =>
      c <- check ty ;;
      if c then advance ;;; pret true else match_ rest
  end.

Definition consume (ty : TokenType) (msg : string) : P Token :=
  c <- check ty ;;
  if c then advance
  else t <- peek ;; pfail msg (line t) (column t).

Definition type_at (i : nat) : option TokenType :=
  option_map type (nth_error tokens i).

Definition isStartOfNextRule : P bool :=
  c <- check DOLLAR ;;
  fun cur =>
    Parsed
      (c
       && match type_at (cur + 1) with
          | Some IDENTIFIER => true
          | _ => false
          end
       && match type_at (cur + 2) with
          | Some ASSIGN_OP => true
          | _ => false
          end, cur).

Definition isInExpressionContext : P bool :=
  nextToken <- peek ;;
  pret
    (match type nextToken with
     | PLUS | MINUS | MULTIPLY | DIVIDE
     | EQUALS | NOT_EQUALS | GREATER_THAN | LESS_THAN
     | GREATER_EQUAL | LESS_EQUAL
     | RPAREN | ASSIGN | PLUS_ASSIGN | MINUS_ASSIGN => true
     | _ => false
     end).

(** [while (this.match(DOT)) path.push(consume(IDENTIFIER, ...).value)] *)
Fixpoint dotted (fuel : nat) (path : list string) : P (list string) :=
  match fuel with
  | O => ptimeout
  | S f =>
      m <- match_ [DOT] ;;
      if m then
        t <- consume IDENTIFIER "Expected property name after ." ;;
        dotted f (path ++ [Types.value t])%list
      else pret path
  end.

Definition parseDollarExpression (fuel : nat) : P ASTNode :=
  knowledge <- match_ [DOLLAR] ;;
  if knowledge then
    consume DOT "Expected . after $$" ;;;
    first <- consume IDENTIFIER "Expected property name after $$." ;;
    path <- dotted fuel ["$"; Types.value first] ;;
    pret (VarRef (mkVariableReference path true))
  else
    t <- consume IDENTIFIER "Expected identifier after $" ;;
    let identifier := Types.value t in
    dot <- match_ [DOT] ;;
    if dot then
      t1 <- consume IDENTIFIER "Expected property name after ." ;;
      path <- dotted fuel [identifier; Types.value t1] ;;
      pret (VarRef (mkVariableReference path false))
    else
      inExpr <- isInExpressionContext ;;
      if inExpr then pret (VarRef (mkVariableReference [identifier] false))
      else pret (RuleReference identifier).

(** the operator of a token text ([this.previous().value]) *)
Definition binary_operator (text : string) : BinaryOperator :=
  if String.eqb text "+" then Plus
  else if String.eqb text "-" then Minus
  else if String.eqb text "*" then Times
  else if String.eqb text "/" then Divide
  else if String.eqb text "==" then Equal
  else if String.eqb text "!=" then NotEqual
  else if String.eqb text "<" then Less
  else if String.eqb text ">" then Greater
  else if String.eqb text "<=" then LessEq
  else GreaterEq.

Definition assignment_operator (text : string) : AssignmentOperator :=
  if String.eqb text "=" then OpSet
  else if String.eqb text "+=" then OpAdd
  else OpSub.

Section Expression.

Variable fuel : nat.

(** [this.parseAssignment()] from inside [parseAssignment] and, through
    [parseExpression], from inside parentheses *)
Variable parseAssignment_rec : P ASTNode.

Definition parseConditional_of (parseAssignment : P ASTNode) : P ASTNode :=
  expr <- parseAssignment ;;
  q <- match_ [QUESTION] ;;
  if q then
    trueValue <- parseAssignment ;;
    p <- match_ [PIPE] ;;
    falseValue <- (if p then e <- parseAssignment ;; pret (Some e)
                   else pret None) ;;
    pret (ConditionalExpression expr trueValue falseValue)
  else pret expr.

Definition parsePrimary : P ASTNode :=
  n <- match_ [NUMBER] ;;
  if n then t <- previous ;; pret (Literal (Js.PStr (Types.value t))) else
  s <- match_ [STRING] ;;
  if s then t <- previous ;; pret (Literal (Js.PStr (Types.value t))) else
  d <- match_ [DOLLAR] ;;
  if d then parseDollarExpression fuel else
  i <- match_ [IDENTIFIER] ;;
  if i then t <- previous ;; pret (Literal (Js.PStr (Types.value t))) else
  l <- match_ [LPAREN] ;;
  if l then
    expr <- parseConditional_of parseAssignment_rec ;;
    consume RPAREN "Expected ')' after expression" ;;;
    pret expr
  else
    t <- peek ;;
    pfail ("Unexpected token in expression: " ++ Types.value t) (line t) (column t).

(** [while (this.match(...ops)) { operator = previous().value;
      right = operand(); expr = new BinaryExpression(expr, operator, right) }] *)
Fixpoint binary_loop (n : nat) (ops : list TokenType) (operand : P ASTNode)
  (expr : ASTNode) : P ASTNode :=
  match n with
  | O => ptimeout
  | S f =>
      m <- match_ ops ;;
      if m then
        t <- previous ;;
        rhs <- operand ;;
        binary_loop f ops operand
          (BinaryExpression expr (binary_operator (Types.value t)) rhs)
      else pret expr
  end.

Definition parseMultiplication : P ASTNode :=
  expr <- parsePrimary ;;
  binary_loop fuel [MULTIPLY; DIVIDE] parsePrimary expr.

Definition parseAddition : P ASTNode :=
  expr <- parseMultiplication ;;
  binary_loop fuel [PLUS; MINUS] parseMultiplication expr.

Definition parseComparison : P ASTNode :=
  expr <- parseAddition ;;
  binary_loop fuel
    [EQUALS; NOT_EQUALS; GREATER_THAN; GREATER_EQUAL; LESS_THAN; LESS_EQUAL]
    parseAddition expr.

Definition parseAssignment_body : P ASTNode :=
  expr <- parseComparison ;;
  m <- match_ [ASSIGN; PLUS_ASSIGN; MINUS_ASSIGN] ;;
  if m then
    t <- previous ;;
    rhs <- parseAssignment_rec ;;
    target <-
      match expr with
      | VarRef r => pret r
      | _ =>
          fun cur =>
            Parsed (mkVariableReference ["temp_" ++ JsString.of_nat cur] false,
                    cur)
      end ;;
    pret (Assignment target (assignment_operator (Types.value t)) rhs)
  else pret expr.

End Expression.

Fixpoint parseAssignment (fuel : nat) : P ASTNode :=
  match fuel with
  | O => ptimeout
  | S f => parseAssignment_body f (parseAssignment f)
  end.

Definition parseConditional (fuel : nat) : P ASTNode :=
  parseConditional_of (parseAssignment fuel).

Definition parseExpression (fuel : nat) : P ASTNode := parseConditional fuel.

(** [do { expressions.push(parseExpression()) } while (match(SEMICOLON))] *)
Fixpoint bracket_loop (n : nat) (fuel : nat) (expressions : list ASTNode)
  : P (list ASTNode) :=
  match n with
  | O => ptimeout
  | S f =>
      expr <- parseExpression fuel ;;
      m <- match_ [SEMICOLON] ;;
      if m then bracket_loop f fuel (expressions ++ [expr])%list
      else pret (expressions ++ [expr])%list
  end.

Definition parseBracketedExpression (fuel : nat) : P ASTNode :=
  isSilent <- match_ [EXCLAMATION] ;;
  expressions <- bracket_loop fuel fuel [] ;;
  consume RBRACKET "Expected ']' after bracketed expression" ;;;
  let result :=
    match expressions with
    | [single] => single
    | _ => CompoundExpression expressions
    end in
  pret (if isSilent then SilentExpression result else result).

Definition parseElement (fuel : nat) : P ASTNode :=
  b <- match_ [LBRACKET] ;;
  if b then parseBracketedExpression fuel else
  d <- match_ [DOLLAR] ;;
  if d then parseDollarExpression fuel else
  s <- check STRING ;;
  if s then t <- advance ;; pret (Literal (Js.PStr (Types.value t))) else
  n <- check NUMBER ;;
  if n then t <- advance ;; pret (Literal (Js.PStr (Types.value t))) else
  i <- check IDENTIFIER ;;
  if i then t <- advance ;; pret (Literal (Js.PStr (Types.value t))) else
  token <- advance ;;
  if negb (TokenType_eqb (type token) EOF)
  then pret (Literal (Js.PStr (Types.value token)))
  else
    t <- peek ;;
    pfail ("Unexpected token: " ++ Types.value t) (line t) (column t).

(** the loop of [parseAlternative] *)
Fixpoint alternative_loop (n : nat) (fuel : nat) (elems : list ASTNode)
  (weight : JsNumber.num) : P (list ASTNode * JsNumber.num) :=
  match n with
  | O => ptimeout
  | S f =>
      e <- isAtEnd ;;
      p <- check PIPE ;;
      r <- isStartOfNextRule ;;
      if negb e && negb p && negb r then
        nl <- match_ [NEWLINE] ;;
        if nl then
          alternative_loop f fuel
            (elems ++ [Literal (Js.PStr JsString.newline)])%list weight
        else
          element <- parseElement fuel ;;
          let elems' := (elems ++ [element])%list in
          dc <- match_ [DOUBLE_COLON] ;;
          isNumber <- (if dc then check NUMBER else pret false) ;;
          if isNumber then
            t <- advance ;;
            pret (elems', JsNumber.parseFloat (Types.value t))
          else alternative_loop f fuel elems' weight
      else pret (elems, weight)
  end.

Definition parseAlternative (fuel : nat) : P Alternative :=
  ew <- alternative_loop fuel fuel [] PrimFloat.one ;;
  match fst ew with
  | [] => t <- peek ;; pfail "Empty alternative" (line t) (column t)
  | _ => pret (mkAlternative (fst ew) (snd ew))
  end.

Fixpoint alternatives_loop (n : nat) (fuel : nat) (alts : list Alternative)
  : P (list Alternative) :=
  match n with
  | O => ptimeout
  | S f =>
      m <- match_ [PIPE] ;;
      if m then
        alt <- parseAlternative fuel ;;
        alternatives_loop f fuel (alts ++ [alt])%list
      else pret alts
  end.

Definition parseAlternatives (fuel : nat) : P (list Alternative) :=
  first <- parseAlternative fuel ;;
  alternatives_loop fuel fuel [first].

Definition parseRule (fuel : nat) : P Rule :=
  consume DOLLAR "Expected $ before rule name" ;;;
  nameToken <- consume IDENTIFIER "Expected rule name after $" ;;
  consume ASSIGN_OP "Expected ':=' after rule name" ;;;
  alts <- parseAlternatives fuel ;;
  pret (mkRule (Types.value nameToken) alts).

Fixpoint skipNewlines (n : nat) : P unit :=
  match n with
  | O => ptimeout
  | S f =>
      m <- match_ [NEWLINE] ;;
      if m then skipNewlines f else pret tt
  end.

Fixpoint parse_loop (n : nat) (fuel : nat) (rules : list (string * Rule))
  : P (list (string * Rule)) :=
  match n with
  | O => ptimeout
  | S f =>
      e <- isAtEnd ;;
      if e then pret rules
      else
        skipNewlines fuel ;;;
        e' <- isAtEnd ;;
        if e' then pret rules
        else
          rule <- parseRule fuel ;;
          parse_loop f fuel (Js.alist_set (name rule) rule rules)
  end.

Definition parse_tokens (fuel : nat) : presult Grammar :=
  match parse_loop fuel fuel [] 0 with
  | Parsed ([], _) => Failed (mkParseError "No rules found" 1 1)
  | Parsed (rules, _) => Parsed (mkGrammar rules)
  | Failed e => Failed e
  | Timeout => Timeout
  end.

End WithTokens.

(** [new Parser(input).parse()] *)
Definition parse (fuel : nat) (input : string) : presult Grammar :=
  match Lexer.tokenize fuel input with
  | Parsed tokens => parse_tokens tokens fuel
  | Failed e => Failed e
  | Timeout => Timeout
  end.

End Parser.

(* ================================================================== *)
(** * generator.ts *)

Module Generator.
Import Js Nodes.
Local Open Scope js_scope.

Record ExecutionResult := mkExecutionResult {
  output : Js.value;
  resultKnowledge : Js.value      (* the field [updatedKnowledge] *)
}.

(** [Generator.compile] *)
Definition compile (fuel : nat) (grammar : string) : Types.presult Grammar :=
  Parser.parse fuel grammar.

(** [createSeededRandom]: with a seed, a fresh closure whose captured
    [state] starts at [seed * 1664525 + 1013904223]; without one,
    [Math.random], the source the store already holds. *)
Definition createSeededRandom (seed : option JsNumber.num) : M unit :=
  fun st =>
    Ok (tt,
        match seed with
        | None => st
        | Some s =>
            mkStore (objects st) (maps st)
              (Seeded (PrimFloat.add
                         (PrimFloat.mul s (JsNumber.of_Z 1664525))
                         (JsNumber.of_Z 1013904223)))
        end).

Definition createExecutionContext (knowledge : Js.value)
  (seed : option JsNumber.num) : M ExecutionContext :=
  createSeededRandom seed ;;;
  copy <- spread1 knowledge ;;
  variables <- map_new [] ;;
  ret (mkContext copy variables None).

(** [execute(knowledge = {}, seed?)] *)
Definition execute (fuel : nat) (ast : Grammar) (knowledge : Js.value)
  (seed : option JsNumber.num) : M ExecutionResult :=
  knowledge' <- match knowledge with
                | VUndefined => alloc (OObject [])
                | _ => ret knowledge
                end ;;
  context <- createExecutionContext knowledge' seed ;;
  result <- Grammar_evaluate fuel ast context ;;
  ret (mkExecutionResult (value result) (updatedKnowledge result)).

(** The store a call starts from: the objects the caller holds, no
    object or [Map] of the call's own yet, [Object.prototype] as the
    engine made it, and [Math.random] about to yield [math_random 0],
    [math_random 1], ... *)
Definition initial_store (caller : list object)
  (math_random : nat -> JsNumber.num) : store :=
  mkStore (mkHeap caller [] []) [] (External math_random 0).

End Generator.

(* ================================================================== *)
(** * Properties *)

Import Js Nodes.
Local Open Scope js_scope.

(** ** Running a grammar text *)

(** What a caller of [Generator.compile(text).execute(knowledge, seed)]
    sees. *)
Inductive answer :=
| Returned (result : Generator.ExecutionResult) (final : store)
| Raised (e : error)
| Rejected (e : Types.ParseError)
| NoAnswer (why : stuck_reason).

Definition generate (fuel : nat) (text : string) (caller : list object)
  (k : Js.value) (seed : option JsNumber.num) : answer :=
  match Generator.compile fuel text with
  | Types.Parsed ast =>
      match Generator.execute fuel ast k seed
              (Generator.initial_store caller (fun _ => PrimFloat.zero)) with
      | Ok (r, st) => Returned r st
      | Throw e => Raised e
      | Stuck w => NoAnswer w
      end
  | Types.Failed e => Rejected e
  | Types.Timeout => NoAnswer OutOfFuel
  end.

(** the text a call returned *)
Definition output_of (a : answer) : option Js.value :=
  match a with
  | Returned r _ => Some (Generator.output r)
  | _ => None
  end.

(** the message of the error a call raised *)
Definition error_of (a : answer) : option string :=
  match a with
  | Raised e => Some (Js.message e)
  | _ => None
  end.

(** [updatedKnowledge.p1.p2...] after a call *)
Fixpoint read_path (parts : list string) (v : Js.value) : M Js.value :=
  match parts with
  | [] => ret v
  | p :: rest => x <- get_property v p ;; read_path rest x
  end.

Definition knowledge_at (parts : list string) (a : answer)
  : option Js.value :=
  match a with
  | Returned r st =>
      match read_path parts (Generator.resultKnowledge r) st with
      | Ok (v, _) => Some v
      | _ => None
      end
  | _ => None
  end.

(** Two calls [execute(knowledge, seed)] of one compiled grammar with the
    same arguments, the second made in the world the first has left: the
    texts they return. *)
Definition generate_twice (fuel : nat) (text : string) (caller : list object)
  (k : Js.value) (seed : option JsNumber.num)
  : option (Js.value * Js.value) :=
  match Generator.compile fuel text with
  | Types.Parsed ast =>
      match Generator.execute fuel ast k seed
              (Generator.initial_store caller (fun _ => PrimFloat.zero)) with
      | Ok (r1, st1) =>
          match Generator.execute fuel ast k seed st1 with
          | Ok (r2, _) => Some (Generator.output r1, Generator.output r2)
          | _ => None
          end
      | _ => None
      end
  | _ => None
  end.

(** the [n]-th object of the caller, after a call *)
Definition caller_object (n : nat) (a : answer) : option object :=
  match a with
  | Returned _ st => nth_error (pre (objects st)) n
  | _ => None
  end.

(** what [Object.prototype] holds beside its built-in members, after a
    call *)
Definition prototype_after (a : answer)
  : option (list (string * Js.value)) :=
  match a with
  | Returned _ st => Some (prototype (objects st))
  | _ => None
  end.

(** [Object.keys(updatedKnowledge)] after a call *)
Definition knowledge_keys (a : answer) : option (list string) :=
  match a with
  | Returned r st =>
      match object_keys (Generator.resultKnowledge r) st with
      | Ok (keys, _) => Some keys
      | _ => None
      end
  | _ => None
  end.

(** the caller's heap holding one empty object, the knowledge [{}] *)
Definition empty_knowledge : list object := [OObject []].
Definition K0 : Js.value := VRef (Pre 0).

(** ** Weighted selection, as the specification words it *)

(** the weight accumulated once the walk has passed alternative [i] *)
Definition cumulative_weight (alts : list Alternative) (i : nat)
  : JsNumber.num :=
  fold_left PrimFloat.add (map weight (firstn (S i) alts)) PrimFloat.zero.

(** the first alternative whose cumulative weight is [>= r]; the last
    one when there is none *)
Definition selected_index (alts : list Alternative) (r : JsNumber.num) : nat :=
  match find (fun i => PrimFloat.leb r (cumulative_weight alts i))
             (seq 0 (List.length alts)) with
  | Some i => i
  | None => List.length alts - 1
  end.

(** ** Joining the texts of an alternative *)

Definition last_char (s : string) : option ascii :=
  JsString.head (JsString.rev s).

(** The rule as claimed: no space when the output so far ends in
    whitespace or a newline, when the next value begins with one of
    [. , ! ? ; :], or when the next value is a newline. *)
Definition claimed_separator (out next : string) : string :=
  if match last_char out with Some c => JsString.is_space c | None => false end
     || JsString.starts_with_one_of ".,!?;:" next
     || String.eqb next JsString.newline
  then "" else " ".

Fixpoint claimed_join (out : string) (texts : list string) : string :=
  match texts with
  | [] => out
  | t :: rest => claimed_join (out ++ claimed_separator out t ++ t) rest
  end.

Definition claimed_text (texts : list string) : string :=
  match texts with
  | [] => ""
  | t :: rest => claimed_join t rest
  end.

(** The rule of the code: no space when the output so far is empty or
    ends in a newline, or when the next value begins with a newline or
    with one of [. , ! ? ; :]. *)
Definition separator (out next : string) : string :=
  if String.eqb out ""
     || JsString.endsWith JsString.newline out
     || JsString.startsWith JsString.newline next
     || JsString.starts_with_one_of ".,!?;:" next
  then "" else " ".

Fixpoint join_texts (out : string) (texts : list string) : string :=
  match texts with
  | [] => out
  | t :: rest => join_texts (out ++ separator out t ++ t) rest
  end.

(** The elements of an alternative evaluated in order, each in the
    knowledge its predecessor left and in the alternative's own [Map]
    [vars]: the texts of the values that are not [null], [undefined] or
    the empty string, and the knowledge and the store at the end. *)
Inductive yields (fuel : nat)
  (ev : ASTNode -> ExecutionContext -> M EvaluationResult)
  (g : option Grammar) (vars : nat)
  : list ASTNode -> Js.value -> store -> list string -> Js.value -> store
    -> Prop :=
| yields_nil : forall k st, yields fuel ev g vars [] k st [] k st
| yields_text : forall e rest k st r st1 t st2 st3 texts k' st',
    ev e (mkContext k vars g) st = Ok (r, st1) ->
    has_text (value r) = true ->
    to_string fuel (value r) st1 = Ok (t, st2) ->
    copy_entries vars vars st2 = Ok (tt, st3) ->
    yields fuel ev g vars rest (updatedKnowledge r) st3 texts k' st' ->
    yields fuel ev g vars (e :: rest) k st (t :: texts) k' st'
| yields_silent : forall e rest k st r st1 st3 texts k' st',
    ev e (mkContext k vars g) st = Ok (r, st1) ->
    has_text (value r) = false ->
    copy_entries vars vars st1 = Ok (tt, st3) ->
    yields fuel ev g vars rest (updatedKnowledge r) st3 texts k' st' ->
    yields fuel ev g vars (e :: rest) k st texts k' st'.

(** ** Objects of the caller and objects of the call *)

(** a value that is a primitive or an object of the call allocated at
    position [n] or later *)
Definition above (n : nat) (v : Js.value) : Prop :=
  match v with
  | VPrim _ => True
  | VRef (New i) => n <= i
  | VRef (Pre _) | VRef ObjectPrototype => False
  end.

Definition object_above (n : nat) (o : object) : Prop :=
  match o with
  | OObject props => Forall (fun kv => above n (snd kv)) props
  | OArray elems => Forall (above n) elems
  end.

(** from position [n] on, the objects of the call refer to nothing
    older than [n] *)
Definition closed (n : nat) (st : store) : Prop :=
  forall i o, n <= i -> nth_error (fresh (objects st)) i = Some o ->
              object_above n o.

(** an induction principle for JSON trees that reaches the members *)
Section JsonInduction.

Variable P : json -> Prop.
Hypothesis Hnull : P JNull.
Hypothesis Hbool : forall b, P (JBool b).
Hypothesis Hnum : forall x, P (JNum x).
Hypothesis Hstr : forall s, P (JStr s).
Hypothesis Harr : forall items, Forall P items -> P (JArr items).
Hypothesis Hobj :
  forall members, Forall (fun kj => P (snd kj)) members -> P (JObj members).

Fixpoint json_induction (j : json) : P j :=
  match j with
  | JNull => Hnull
  | JBool b => Hbool b
  | JNum x => Hnum x
  | JStr s => Hstr s
  | JArr items =>
      Harr items
        ((fix go (l : list json) : Forall P l :=
            match l with
            | [] => Forall_nil P
            | x :: r => Forall_cons x (json_induction x) (go r)
            end) items)
  | JObj members =>
      Hobj members
        ((fix go (l : list (string * json))
            : Forall (fun kj => P (snd kj)) l :=
            match l with
            | [] => Forall_nil _
            | (k, x) :: r =>
                Forall_cons (P := fun kj => P (snd kj)) (k, x)
                            (json_induction x) (go r)
            end) members)
  end.

End JsonInduction.

(** A property of computations that every primitive of the monad has,
    writes to objects apart, and that sequencing preserves. *)
Record compositional (P : forall A : Type, M A -> Prop) : Prop := {
  comp_ret : forall A (a : A), P A (ret a);
  comp_bind : forall A B (c : M A) (k : A -> M B),
      P A c -> (forall a, P B (k a)) -> P B (bind c k);
  comp_fail : forall A (c : M A),
      (forall st a st', c st <> Ok (a, st')) -> P A c;
  comp_rethrow : forall A (c : M A) h, P A c -> P A (rethrow c h);
  comp_get_object : forall l, P _ (get_object l);
  comp_shared_entries : P _ shared_entries;
  comp_alloc : forall o, P _ (alloc o);
  comp_map_new : forall e, P _ (map_new e);
  comp_map_entries : forall m, P _ (map_entries m);
  comp_map_set : forall m k v, P _ (map_set m k v);
  comp_random : P _ random
}.

(** ** Concrete inputs *)

Definition healing_text : string :=
  "$start := [!$$.hp += 25] HP is now $$.hp | [!$$.hp -= 5] ouch".

(** the caller's heap holding the knowledge [{hp: 75}] *)
Definition hp75 : list object := [OObject [("hp", VNum 75%float)]].

(** a seed *)
Definition seed7 : option JsNumber.num := Some (JsNumber.of_Z 7).

(** a grammar that counts in [Object.prototype] *)
Definition counter_text : string := "$start := [$$.__proto__.n += 1]".

(** a grammar that stores an object of the knowledge in
    [Object.prototype] and writes to it from there, and the caller's heap
    holding the knowledge [{player: {name: 'Al'}}] *)
Definition alias_text : string :=
  "$start := [$$.__proto__.r = $$.player] [$$.r.name = Bob]".

Definition player_al : list object :=
  [OObject [("player", VRef (Pre 1))]; OObject [("name", VStr "Al")]].

(** an assignment whose first segment every object inherits, and the
    assignment of the specification *)
Definition inherited_segment_text : string :=
  "$start := [$$.__proto__.hp = 100]".

Definition created_segments_text : string :=
  "$start := [$$.player.stats.hp = 100]".

(** a context over the knowledge [{}] with an empty [Map], and a store
    holding both *)
Definition ctx0 : ExecutionContext := mkContext K0 0 None.
Definition st0 : store :=
  mkStore (mkHeap empty_knowledge [] []) [[]] (Seeded PrimFloat.zero).

Definition nl : string := JsString.newline.

(** the variable [$x] *)
Definition x_ref : VariableReference := mkVariableReference ["x"] false.

(** the expression [$$.x = 1 == 2] *)
Definition falsy_assignment : ASTNode :=
  Assignment (mkVariableReference ["$"; "x"] true) OpSet
    (BinaryExpression (Literal (PStr "1")) Equal (Literal (PStr "2"))).

(* ================================================================== *)
(** ** Weights of parsed alternatives *)

(** a float that is zero, positive or plus infinity *)
Definition sf_nonneg (s : spec_float) : Prop :=
  match s with
  | S754_zero _ => True
  | S754_infinity false => True
  | S754_finite false _ _ => True
  | _ => False
  end.

(** [0 <= x] on JS numbers; NaN fails it *)
Definition nonneg (x : JsNumber.num) : Prop :=
  PrimFloat.leb PrimFloat.zero x = true.

(** a text whose first character is a decimal digit *)
Definition digit_text (s : string) : Prop :=
  exists c r, s = String c r /\ JsString.is_digit c = true.

Definition number_tokens_ok (tokens : list Types.Token) : Prop :=
  Forall (fun t => Types.type t = Types.NUMBER -> digit_text (Types.value t))
         tokens.

(** the weight is the default, or what [parseFloat] reads in a NUMBER
    token of the grammar *)
Definition weight_from (tokens : list Types.Token) (w : JsNumber.num) : Prop :=
  w = PrimFloat.one
  \/ exists t, In t tokens /\ Types.type t = Types.NUMBER
               /\ w = JsNumber.parseFloat (Types.value t).

Definition rules_ok (tokens : list Types.Token) (rules : list (string * Rule))
  : Prop :=
  Forall (fun nr =>
            Forall (fun a => weight_from tokens (weight a))
                   (alternatives (snd nr))) rules.

Definition weighted_grammar : string := "$start := a ::0 | b".

Definition weighted_grammar_ast : Grammar :=
  mkGrammar
    [("start",
      mkRule "start"
        [mkAlternative [Literal (PStr "a")] PrimFloat.zero;
         mkAlternative [Literal (PStr "b")] PrimFloat.one])].

(** * Definitions for further properties *)

(* ================================================================== *)
(** ** Objects and variable maps an evaluation leaves alone *)

(** [c], started with [Object.prototype] as the engine made it, leaves it
    so, and leaves the caller's objects and the first [n] objects of the
    call as they are. *)
Definition below (n : nat) {A} (c : M A) : Prop :=
  forall st a st',
    c st = Ok (a, st') ->
    prototype (objects st) = [] ->
    n <= List.length (fresh (objects st)) ->
    prototype (objects st') = []
    /\ pre (objects st') = pre (objects st)
    /\ n <= List.length (fresh (objects st'))
    /\ forall i, i < n ->
         nth_error (fresh (objects st')) i = nth_error (fresh (objects st)) i.

(** the store [st] with further objects [extra] in the hands of the
    caller *)
Definition extend (extra : list object) (st : store) : store :=
  mkStore (mkHeap (pre (objects st) ++ extra) (fresh (objects st))
                  (prototype (objects st)))
          (maps st) (source st).

(** [c] does not depend on objects it never reaches: run in a larger
    heap it returns the same. *)
Definition mono {A} (c : M A) : Prop :=
  forall extra st a st',
    c st = Ok (a, st') -> c (extend extra st) = Ok (a, extend extra st').

(** a name that a plain object or an array inherits from a built-in
    prototype *)
Definition inherited_name (k : string) : bool :=
  mem k array_method_names || mem k object_prototype_names.

(** a target that is a variable, or a knowledge path that names nothing
    inherited *)
Definition tame_target (r : VariableReference) : bool :=
  negb (isKnowledge r)
  || forallb (fun k => negb (inherited_name k)) (tl (path r)).

(** a node all of whose assignments have such targets *)
Fixpoint tame (node : ASTNode) : bool :=
  match node with
  | Literal _ | VarRef _ | RuleReference _ => true
  | Assignment target _ expression => tame_target target && tame expression
  | BinaryExpression lhs _ rhs => tame lhs && tame rhs
  | ConditionalExpression condition trueValue falseValue =>
      tame condition && tame trueValue
      && match falseValue with
         | Some branch => tame branch
         | None => true
         end
  | SilentExpression expression => tame expression
  | CompoundExpression exprs => forallb tame exprs
  end.

Definition tame_rule (r : Rule) : bool :=
  forallb (fun a => forallb tame (elements a)) (alternatives r).

Definition tame_grammar (g : Grammar) : bool :=
  forallb (fun kr => tame_rule (snd kr)) (rules g).

(** a context whose grammar, if it has one, holds such nodes only *)
Definition tame_context (context : ExecutionContext) : bool :=
  match grammar context with
  | Some g => tame_grammar g
  | None => true
  end.

(** [c] removes no [Map], and leaves the [Map]s numbered below [b] with
    the entries they have, those that [ok] admits apart. *)
Definition keeps_maps (b : nat) (ok : nat -> Prop) {A} (c : M A) : Prop :=
  forall st a st',
    c st = Ok (a, st') ->
    b <= List.length (maps st) ->
    b <= List.length (maps st')
    /\ forall j, j < b -> ~ ok j ->
         nth_error (maps st') j = nth_error (maps st) j.

(** a [Map] holds one entry per key *)
Definition unique_keys (e : varmap) : Prop := NoDup (map fst e).

(** a [Map] holding [x = "1"], and a rule whose two alternatives both
    bind [x] *)
Definition st_x : store :=
  mkStore (mkHeap empty_knowledge [] []) [[("x", VStr "1")]]
          (Seeded PrimFloat.zero).

Definition binding_rule : Rule :=
  mkRule "a"
    [mkAlternative
       [SilentExpression (Assignment x_ref OpSet (Literal (PStr "5")));
        Literal (PStr "hi")] PrimFloat.one;
     mkAlternative
       [SilentExpression (Assignment x_ref OpSet (Literal (PStr "6")));
        Literal (PStr "ho")] PrimFloat.one].

(** the knowledge path [$$.hp] *)
Definition hp_ref : VariableReference := mkVariableReference ["$"; "hp"] true.

(* ================================================================== *)
(** ** Lexical shapes *)

(** a word: a letter or an underscore, then letters, digits, underscores *)
Definition word_text (s : string) : Prop :=
  exists c r,
    s = String c r /\ Lexer.isAlpha c = true
    /\ forallb Lexer.isAlphaNumeric (list_ascii_of_string r) = true.

(** one decimal digit or more *)
Definition digits_text (s : string) : Prop :=
  s <> "" /\ forallb Lexer.isDigit (list_ascii_of_string s) = true.

(** digits, or digits, a point and digits *)
Definition decimal_text (s : string) : Prop :=
  digits_text s
  \/ exists whole fraction,
       s = whole ++ "." ++ fraction
       /\ digits_text whole /\ digits_text fraction.

(** ** Progress of the lexer *)

(** the characters the lexer has still to read *)
Definition remaining (L : Lexer.Lexer) : nat :=
  String.length (Lexer.input L) - Lexer.position L.

Definition has_char (c : ascii) (s : string) : bool :=
  existsb (Ascii.eqb c) (list_ascii_of_string s).

(** a character [string] appends as it is: not the closing quote, not a
    line feed, not a backslash *)
Definition plain (quote c : ascii) : bool :=
  negb (Ascii.eqb c quote) && negb (Ascii.eqb c Lexer.lf)
  && negb (Ascii.eqb c Lexer.backslash).

(** The states of the lexer at which the loop of [tokenize] on [text]
    looks for its next token. *)
Inductive reaches (text : string) : Lexer.Lexer -> Prop :=
| reaches_start : reaches text (Lexer.new text)
| reaches_token fuel L L1 token L2 :
    reaches text L ->
    Lexer.isAtEnd L = false ->
    Lexer.skipWhitespace fuel L = Some L1 ->
    Lexer.isAtEnd L1 = false ->
    Lexer.nextToken fuel L1 = Types.Parsed (token, L2) ->
    reaches text L2.

(** a text on which the loop of [string] always moves on: it holds no
    line feed, or it holds no quote *)
Definition string_safe (text : string) : Prop :=
  has_char Lexer.lf text = false
  \/ (has_char Lexer.dquote text = false
      /\ has_char Lexer.squote text = false).

(* ================================================================== *)
(** ** The shape of a parsed grammar *)

(** a rule stored under [key]: it bears that name, a word; it has an
    alternative, and none of its alternatives is empty *)
Definition rule_ok (key : string) (r : Rule) : Prop :=
  name r = key
  /\ word_text key
  /\ alternatives r <> []
  /\ Forall (fun a => elements a <> []) (alternatives r).

Definition grammar_ok (g : Grammar) : Prop :=
  rules g <> []
  /\ NoDup (map fst (rules g))
  /\ Forall (fun kr => rule_ok (fst kr) (snd kr)) (rules g).

(** a text of spaces, tabs, carriage returns and line feeds *)
Definition blank_text (s : string) : Prop :=
  forallb (fun c => Ascii.eqb c " " || Ascii.eqb c Lexer.tab
                    || Ascii.eqb c Lexer.cr || Ascii.eqb c Lexer.lf)
          (list_ascii_of_string s) = true.

(** ** Progress of the parser *)

(** [p], run at [cur], comes to an end: it raises a [ParseError], or it
    returns a result and a cursor that [post] holds of. *)
Definition total_to {A} (p : Parser.P A) (cur : nat)
  (post : A -> nat -> Prop) : Prop :=
  match p cur with
  | Types.Timeout => False
  | Types.Failed _ => True
  | Types.Parsed (a, cur') => post a cur'
  end.

(** the tokens still to read at [cur] *)
Definition tokens_left (tokens : list Types.Token) (cur : nat) : nat :=
  List.length tokens - cur.

(** the cursor is on a token other than [EOF] *)
Definition on_token (tokens : list Types.Token) (cur : nat) : Prop :=
  Types.TokenType_eqb (Types.type (Parser.token_at tokens cur)) Types.EOF
  = false.

(** the rule [$s := "a<LF>b"], a line feed inside its string literal, and
    the states of the lexer before and after the blank that precedes the
    literal *)
Definition line_feed_text : string :=
  "$s := " ++ String Lexer.dquote
                ("a" ++ String Lexer.lf ("b" ++ String Lexer.dquote "")).

Definition before_blank : Lexer.Lexer := Lexer.mkLexer line_feed_text 5 1 6.
Definition before_literal : Lexer.Lexer := Lexer.mkLexer line_feed_text 6 1 7.

(** the lexer at the quote of [$s := 'abc], a literal left open *)
Definition at_open_quote : Lexer.Lexer := Lexer.mkLexer "$s := 'abc" 6 1 7.

(** * Lemmas on the monad *)

Lemma bind_Ok {A B} (c : M A) (k : A -> M B) st b st' :
  bind c k st = Ok (b, st') <->
  exists a st1, c st = Ok (a, st1) /\ k a st1 = Ok (b, st').
Proof.
  unfold bind. split.
  - destruct (c st) as [[a st1] | e | w]; try discriminate.
    intros H. exists a, st1. auto.
  - intros (a & st1 & Hc & Hk). rewrite Hc. exact Hk.
Qed.

Lemma bind_ret_Ok {A B} (a : A) (k : A -> M B) st :
  bind (ret a) k st = k a st.
Proof. reflexivity. Qed.

Lemma ret_Ok {A} (a b : A) st st' :
  ret a st = Ok (b, st') <-> b = a /\ st' = st.
Proof.
  unfold ret. split.
  - intros H. inversion H. auto.
  - intros [-> ->]. reflexivity.
Qed.

Lemma rethrow_Ok {A} (c : M A) h st a st' :
  rethrow c h st = Ok (a, st') <-> c st = Ok (a, st').
Proof.
  unfold rethrow. destruct (c st) as [[x s] | e | w]; split; intros H;
    try discriminate; exact H.
Qed.

(** ** Lists *)

Lemma alist_set_Forall {A} (Q : A -> Prop) k v (l : list (string * A)) :
  Forall (fun kv => Q (snd kv)) l -> Q v ->
  Forall (fun kv => Q (snd kv)) (alist_set k v l).
Proof.
  intros Hl Hv. induction Hl as [ | [k' v'] r Hx Hr IH ]; cbn [alist_set].
  - constructor; auto.
  - destruct (String.eqb k k'); constructor; auto.
Qed.

Lemma list_set_nth {A} n (x : A) l l' :
  list_set n x l = Some l' ->
  List.length l' = List.length l /\
  forall j, nth_error l' j = if Nat.eqb j n then Some x else nth_error l j.
Proof.
  revert n l'. induction l as [ | y r IH ]; intros n l'.
  - destruct n; discriminate.
  - destruct n as [ | m ]; cbn [list_set].
    + intros E. inversion E. split; [ reflexivity | ].
      intros [ | j ]; reflexivity.
    + destruct (list_set m x r) as [ r' | ] eqn:Er; [ | discriminate ].
      intros E. inversion E. destruct (IH _ _ Er) as [ Hlen Hnth ].
      split; [ cbn; congruence | ].
      intros [ | j ]; cbn; [ reflexivity | apply Hnth ].
Qed.

(** ** What reaches [Object.prototype] *)

(** C1.  Two calls with the same grammar, the same knowledge and the same
    seed can return different texts.  The grammar
    [$start := [$$.__proto__.n += 1]], run twice against the knowledge
    [{}] with seed 7, returns [1] and then [2]: the walk of
    [assignToKnowledge] follows [__proto__] out of its copy of the
    knowledge into [Object.prototype], and the second call inherits the
    [n] the first has left there. *)
Theorem same_seed_different_output :
  generate_twice 100 counter_text empty_knowledge K0 seed7
  = Some (VStr "1", VStr "2").
Proof. vm_compute. reflexivity. Qed.

(** C2.  A call can change an object of the caller.  Against the
    knowledge [{player: {name: 'Al'}}] the grammar
    [$start := [$$.__proto__.r = $$.player] [$$.r.name = Bob]] returns,
    and the caller's [player] object then has the name [Bob]: the first
    assignment stores the caller's object in [Object.prototype], the
    second finds it there as an inherited [r] of its copy and writes to
    it. *)
Theorem caller_object_changed :
  nth_error player_al 1 = Some (OObject [("name", VStr "Al")])
  /\ caller_object 1 (generate 100 alias_text player_al K0 seed7)
     = Some (OObject [("name", VStr "Bob")]).
Proof. split; [ reflexivity | vm_compute; reflexivity ]. Qed.

(** C9.  A missing segment of a knowledge path is not created when its
    name is one every object inherits.  [$$.__proto__.hp = 100] against
    the knowledge [{}] returns an updated knowledge without any property
    of its own and leaves [hp = 100] in [Object.prototype]; the
    assignment [$$.player.stats.hp = 100] of the specification does
    create [player] and [stats]. *)
Theorem inherited_segment_not_created :
  (output_of (generate 100 inherited_segment_text empty_knowledge K0 seed7)
   = Some (VStr "100")
   /\ knowledge_keys
        (generate 100 inherited_segment_text empty_knowledge K0 seed7)
      = Some []
   /\ prototype_after
        (generate 100 inherited_segment_text empty_knowledge K0 seed7)
      = Some [("hp", VNum (JsNumber.of_Z 100))])
  /\ knowledge_at ["player"; "stats"; "hp"]
       (generate 100 created_segments_text empty_knowledge K0 None)
     = Some (VNum (JsNumber.of_Z 100)).
Proof. repeat split; vm_compute; reflexivity. Qed.

(** ** Weighted selection *)

Lemma last_is_nth {A} (l : list A) d : last l d = nth (List.length l - 1) l d.
Proof.
  induction l as [ | a r IH ]; [ reflexivity | ].
  destruct r as [ | b r' ]; [ reflexivity | ].
  change (last (a :: b :: r') d) with (last (b :: r') d).
  rewrite IH. cbn [List.length]. rewrite !Nat.sub_1_r. reflexivity.
Qed.

Lemma cumulative_weight_prefix (prefix : list Alternative) x rest :
  cumulative_weight (prefix ++ x :: rest) (List.length prefix)
  = PrimFloat.add
      (fold_left PrimFloat.add (map weight prefix) PrimFloat.zero) (weight x).
Proof.
  unfold cumulative_weight.
  replace (firstn (S (List.length prefix)) (prefix ++ x :: rest))
    with (prefix ++ [x])%list.
  - rewrite map_app, fold_left_app. reflexivity.
  - replace (S (List.length prefix)) with (List.length prefix + 1) by lia.
    rewrite firstn_app_2. reflexivity.
Qed.

(** the loop of [selectWeightedAlternative] picks what [find] picks *)
Lemma select_loop_find fuel ev alts fallback r context d :
  forall suffix prefix,
    alts = (prefix ++ suffix)%list ->
    select_loop fuel ev suffix fallback r
      (fold_left PrimFloat.add (map weight prefix) PrimFloat.zero) context
    = evaluate_selected fuel ev
        (match find (fun i => PrimFloat.leb r (cumulative_weight alts i))
                    (seq (List.length prefix) (List.length suffix)) with
         | Some i => nth i alts d
         | None => fallback
         end) context.
Proof.
  induction suffix as [ | x rest IH ]; intros prefix Halts.
  - reflexivity.
  - cbn [select_loop List.length seq find].
    rewrite Halts at 1. rewrite cumulative_weight_prefix.
    destruct (PrimFloat.leb r _) eqn:Hle.
    + rewrite Halts, app_nth2 by lia. rewrite Nat.sub_diag. reflexivity.
    + specialize (IH (prefix ++ [x])%list).
      rewrite map_app, fold_left_app, length_app in IH. cbn in IH.
      rewrite Nat.add_1_r in IH. apply IH.
      rewrite Halts, <- app_assoc. reflexivity.
Qed.

(** C3.  A rule with exactly one alternative evaluates that alternative
    and draws nothing from the entropy source.  A rule with two or more
    alternatives draws one number from the entropy source, scales it by
    the sum of all the weights, walks the alternatives in order while
    accumulating their weights, and evaluates the first alternative whose
    cumulative weight is at least the scaled draw; when there is none it
    evaluates the last alternative. *)
Theorem Rule_evaluate_weighted_selection :
  forall fuel ev name,
    (forall alt context,
        Rule_evaluate fuel ev (mkRule name [alt]) context
        = Alternative_evaluate fuel ev alt context)
    /\ (forall a b rest context st,
           let alts := a :: b :: rest in
           let total := cumulative_weight alts (List.length alts - 1) in
           let drawn := entropy_next (source st) in
           let r := PrimFloat.mul (fst drawn) total in
           Rule_evaluate fuel ev (mkRule name alts) context st
           = evaluate_selected fuel ev
               (nth (selected_index alts r) alts a) context
               (mkStore (objects st) (maps st) (snd drawn))).
Proof.
  intros fuel ev name. split; [ reflexivity | ].
  intros a b rest context st. cbv zeta.
  unfold Rule_evaluate. cbn [alternatives].
  unfold selectWeightedAlternative, bind, random.
  destruct (entropy_next (source st)) as [x e]. cbn [fst snd].
  assert (Ht : totalWeight (a :: b :: rest)
               = cumulative_weight (a :: b :: rest)
                   (List.length (a :: b :: rest) - 1)).
  { unfold totalWeight, cumulative_weight.
    replace (S (List.length (a :: b :: rest) - 1))
      with (List.length (a :: b :: rest)) by (cbn; lia).
    rewrite firstn_all. reflexivity. }
  rewrite Ht.
  pose proof (select_loop_find fuel ev (a :: b :: rest)
                (last (a :: b :: rest) a)
                (PrimFloat.mul x (cumulative_weight (a :: b :: rest)
                                    (List.length (a :: b :: rest) - 1)))
                context a (a :: b :: rest) [] eq_refl) as Hs.
  cbn [map fold_left] in Hs. change (List.length []) with 0 in Hs.
  rewrite Hs. unfold selected_index.
  destruct (find _ _) as [ i | ]; [ reflexivity | ].
  rewrite last_is_nth. reflexivity.
Qed.

(** ** Conditional *)

(** C8 (amended).  A conditional without an else branch whose condition
    evaluates to a falsy value returns the empty string and raises no
    error, and the knowledge it returns is the one the condition returned:
    the conditional adds no change of its own.  So when the condition
    leaves the knowledge as it found it, the result carries the knowledge
    of the context. *)
Theorem conditional_without_else_falsy :
  forall fuel ev condition trueValue context st condResult st1,
    ev condition context st = Ok (condResult, st1) ->
    truthy (value condResult) = false ->
    ConditionalExpression_evaluate fuel ev condition trueValue None context st
    = Ok (mkResult (VStr "") (updatedKnowledge condResult), st1)
    /\ (updatedKnowledge condResult = knowledge context ->
        ConditionalExpression_evaluate fuel ev condition trueValue None
          context st
        = Ok (mkResult (VStr "") (knowledge context), st1)).
Proof.
  intros fuel ev condition trueValue context st condResult st1 Ec Hf.
  assert (E : ConditionalExpression_evaluate fuel ev condition trueValue None
                context st
              = Ok (mkResult (VStr "") (updatedKnowledge condResult), st1)).
  { unfold ConditionalExpression_evaluate, bind. rewrite Ec, Hf. reflexivity. }
  split; [ exact E | ]. intros Hk. rewrite <- Hk. exact E.
Qed.

Lemma conditional_without_else_falsy_witness :
  ConditionalExpression_evaluate 5 (evaluate 5)
    (Literal (PStr "")) (Literal (PStr "yes")) None ctx0 st0
  = Ok (mkResult (VStr "") K0, st0)
  /\ (K0 = knowledge ctx0 ->
      ConditionalExpression_evaluate 5 (evaluate 5)
        (Literal (PStr "")) (Literal (PStr "yes")) None ctx0 st0
      = Ok (mkResult (VStr "") (knowledge ctx0), st0)).
Proof.
  exact (conditional_without_else_falsy 5 (evaluate 5)
           (Literal (PStr "")) (Literal (PStr "yes")) ctx0 st0
           (mkResult (VStr "") K0) st0 eq_refl eq_refl).
Defined.

(** A condition that assigns to the knowledge and is falsy: in
    [[$$.x = 1 == 2 ? yes]] the condition stores [false] under [x] and
    yields [false].  The conditional returns the empty string together
    with the knowledge the condition returned, which holds [x], while the
    knowledge of the context holds no [x]. *)
Lemma conditional_condition_write_counterexample :
  (exists k st',
      ConditionalExpression_evaluate 5 (evaluate 5) falsy_assignment
        (Literal (PStr "yes")) None ctx0 st0
      = Ok (mkResult (VStr "") k, st')
      /\ k <> knowledge ctx0
      /\ get_property k "x" st' = Ok (VBool false, st')
      /\ get_property (knowledge ctx0) "x" st' = Ok (VUndefined, st'))
  /\ output_of (generate 100 "$start := [$$.x = 1 == 2 ? yes]"
                  empty_knowledge K0 None)
     = Some (VStr "")
  /\ knowledge_at ["x"]
       (generate 100 "$start := [$$.x = 1 == 2 ? yes]"
          empty_knowledge K0 None)
     = Some (VBool false).
Proof.
  split; [ | split; vm_compute; reflexivity ].
  eexists. eexists.
  split; [ vm_compute; reflexivity | ].
  split; [ discriminate | ].
  split; vm_compute; reflexivity.
Qed.

(** ** Joining the texts of an alternative *)

Lemma string_app_assoc (a b c : string) : (a ++ b) ++ c = a ++ (b ++ c).
Proof. induction a as [ | x a IH ]; cbn; [ reflexivity | now rewrite IH ]. Qed.

Lemma newline_starts_itself t :
  String.eqb t JsString.newline = true ->
  JsString.startsWith JsString.newline t = true.
Proof. intros E. apply String.eqb_eq in E. subst t. reflexivity. Qed.

(** the flag [needsSpace] says no more than "the output is not empty" *)
Lemma space_before_separator needsSpace result t :
  (result = "" \/ needsSpace = true) ->
  (if space_before needsSpace result t then result ++ " " else result) ++ t
  = result ++ separator result t ++ t.
Proof.
  intros Hinv. unfold space_before, separator.
  destruct (String.eqb result "") eqn:Er.
  - rewrite !andb_false_r. cbn. reflexivity.
  - assert (needsSpace = true) as ->.
    { destruct Hinv as [ -> | H ]; [ discriminate | exact H ]. }
    cbn [andb orb negb].
    destruct (JsString.startsWith JsString.newline t) eqn:Es.
    + rewrite !andb_false_r, orb_true_r. cbn. reflexivity.
    + destruct (String.eqb t JsString.newline) eqn:Et.
      { apply newline_starts_itself in Et. congruence. }
      cbn [negb andb].
      destruct (JsString.endsWith JsString.newline result); cbn [negb andb orb];
        [ reflexivity | ].
      destruct (JsString.starts_with_one_of ".,!?;:" t); cbn [negb];
        [ reflexivity | ].
      rewrite string_app_assoc. reflexivity.
Qed.

Lemma Alternative_loop_yields fuel ev context vars elems :
  forall result k needsSpace st res st',
    (result = "" \/ needsSpace = true) ->
    (Alternative_loop fuel ev elems context vars result k needsSpace st
     = Ok (res, st')
     <-> exists texts k',
        yields fuel ev (grammar context) vars elems k st texts k' st'
        /\ res = mkResult (VStr (join_texts result texts)) k').
Proof.
  induction elems as [ | e rest IH ];
    intros result k needsSpace st res st' Hinv.
  - cbn [Alternative_loop]. split.
    + intros E. apply ret_Ok in E. destruct E as [-> ->].
      exists [], k. split; [ constructor | reflexivity ].
    + intros (texts & k' & Hy & ->). inversion Hy; subst. reflexivity.
  - cbn [Alternative_loop]. split.
    + intros E. apply bind_Ok in E. destruct E as (r & s1 & Ee & E).
      apply bind_Ok in E. destruct E as ([out ns] & s2 & Ea & E).
      apply bind_Ok in E. destruct E as ([] & s3 & Ecp & E).
      cbn [fst snd variables] in *.
      destruct (has_text (value r)) eqn:Ht.
      * apply bind_Ok in Ea. destruct Ea as (t & s2' & Et & Ea).
        apply ret_Ok in Ea. destruct Ea as [Ea ->]. inversion Ea; subst.
        rewrite space_before_separator in E by exact Hinv.
        apply IH in E; [ | right; reflexivity ].
        destruct E as (texts & k' & Hy & ->).
        exists (t :: texts), k'. split; [ | reflexivity ].
        eapply yields_text; eauto.
      * apply ret_Ok in Ea. destruct Ea as [Ea ->]. inversion Ea; subst.
        apply IH in E; [ | exact Hinv ].
        destruct E as (texts & k' & Hy & ->).
        exists texts, k'. split; [ | reflexivity ].
        eapply yields_silent; eauto.
    + intros (texts & k' & Hy & ->).
      inversion Hy as
        [ | e' rest' k1 s r s1 t s2 s3 texts' k2 s' Hev Htext Hts Hcp Hrest
          | e' rest' k1 s r s1 s3 texts' k2 s' Hev Htext Hcp Hrest ]; subst.
      * apply bind_Ok. exists r, s1. split; [ exact Hev | ].
        apply bind_Ok. exists (result ++ separator result t ++ t, true), s2.
        split.
        { rewrite Htext. apply bind_Ok. exists t, s2.
          split; [ exact Hts | ].
          rewrite space_before_separator by exact Hinv. reflexivity. }
        apply bind_Ok. exists tt, s3. split; [ exact Hcp | ].
        cbn [fst snd]. apply IH; [ right; reflexivity | ].
        exists texts', k'. split; [ exact Hrest | reflexivity ].
      * apply bind_Ok. exists r, s1. split; [ exact Hev | ].
        apply bind_Ok. exists (result, needsSpace), s1.
        split; [ rewrite Htext; reflexivity | ].
        apply bind_Ok. exists tt, s3. split; [ exact Hcp | ].
        cbn [fst snd]. apply IH; [ exact Hinv | ].
        exists texts, k'. split; [ exact Hrest | reflexivity ].
Qed.



(** ** Assignments *)


(** C4.  A variable bound while the alternative that [Rule.evaluate]
    selected is evaluated does not reach the caller.  In
    [$start := $a $x] with [$a := [!$x = 5] hi] the rule [$a] binds [x],
    yet the following [$x] of the calling alternative finds no variable [x]
    and falls through to a rule lookup that fails; the same happens when
    [$a] has two alternatives and one is drawn. *)
Theorem alternative_bindings_not_copied_back :
  error_of (generate 100 ("$start := $a $x" ++ nl ++ "$a := [!$x = 5] hi")
              empty_knowledge K0 None)
  = Some "Evaluation error: Rule 'x' not found"
  /\ error_of (generate 100
                 ("$start := $a $x" ++ nl
                    ++ "$a := [!$x = 5] hi | [!$x = 5] ho")
                 empty_knowledge K0 (Some (JsNumber.of_Z 1)))
     = Some "Evaluation error: Rule 'x' not found".
Proof. split; vm_compute; reflexivity. Qed.

(** C7.  [-=] on a variable with a right-hand value that is not numeric
    raises nothing: [$x -= abc] in a fresh scope yields the text NaN.  On a
    knowledge path the same assignment raises the error
    "Subtraction is only valid for numeric values". *)
Theorem minus_assign_variable_yields_NaN :
  output_of (generate 100 "$start := [$x -= abc]" empty_knowledge K0 None)
  = Some (VStr "NaN")
  /\ error_of (generate 100 "$start := [$$.n -= abc]" empty_knowledge K0 None)
     = Some "Evaluation error: Subtraction is only valid for numeric values".
Proof. split; vm_compute; reflexivity. Qed.


(** C10.  [+=] on an unbound variable raises no error, but the current
    value 0 is added to the text of the right-hand literal with the string
    [+] of JS: [$x += 5] in a fresh scope binds [x] to the text 05, not to
    the number 5, and a second [$x += 5] gives 055.  On a knowledge path
    [$$.day += 1] against an empty knowledge yields [day = 1]. *)
Theorem plus_assign_unbound_concatenates :
  evaluate 5 (Assignment x_ref OpAdd (Literal (PStr "5"))) ctx0 st0
  = Ok (mkResult (VStr "05") K0,
        mkStore (objects st0) [[("x", VStr "05")]] (source st0))
  /\ output_of (generate 100 "$start := [$x += 5] [$x += 5] $x"
                  empty_knowledge K0 None)
     = Some (VStr "05 055 55")
  /\ knowledge_at ["day"]
       (generate 100 "$start := [$$.day += 1]" empty_knowledge K0 None)
     = Some (VNum PrimFloat.one).
Proof. repeat split; vm_compute; reflexivity. Qed.

Lemma alist_get_insert_new k v l :
  alist_has k l = false -> alist_get k (prop_insert k v l) = Some v.
Proof.
  unfold alist_has.
  induction l as [ | [k' v'] r IH ]; cbn [prop_insert alist_get]; intros Hk.
  - rewrite String.eqb_refl. reflexivity.
  - destruct (String.eqb k k') eqn:E; [ discriminate | ].
    destruct (array_index k) as [ n | ].
    + destruct (array_index k') as [ n' | ].
      * destruct (n <? n')%Z; cbn [alist_get].
        -- rewrite String.eqb_refl. reflexivity.
        -- rewrite E. apply IH. exact Hk.
      * cbn [alist_get]. rewrite String.eqb_refl. reflexivity.
    + cbn [alist_get]. rewrite E. apply IH. exact Hk.
Qed.

Lemma list_set_Some {A} n (x y : A) l :
  nth_error l n = Some y -> exists l', list_set n x l = Some l'.
Proof.
  revert n. induction l as [ | a r IH ]; intros [ | m ] E; cbn in *;
    try discriminate.
  - eexists. reflexivity.
  - destruct (IH _ E) as [ r' Hr ]. rewrite Hr. eexists. reflexivity.
Qed.

Lemma heap_put_get h l props o0 :
  heap_get h l = Some o0 ->
  exists h', heap_put h l (OObject props) = Some h'
             /\ heap_get h' l = Some (OObject props)
             /\ (forall l', l' <> l -> heap_get h' l' = heap_get h l').
Proof.
  destruct l as [ n | n | ]; cbn; intros E.
  - destruct (list_set_Some n (OObject props) _ _ E) as [ l' Hl ].
    rewrite Hl. destruct (list_set_nth _ _ _ _ Hl) as [ _ Hn ].
    eexists. split; [ reflexivity | ]. cbn. split.
    + rewrite Hn, Nat.eqb_refl. reflexivity.
    + intros [ m | m | ] Hne; cbn; try reflexivity.
      rewrite Hn. destruct (Nat.eqb m n) eqn:Em; [ | reflexivity ].
      apply Nat.eqb_eq in Em. congruence.
  - destruct (list_set_Some n (OObject props) _ _ E) as [ l' Hl ].
    rewrite Hl. destruct (list_set_nth _ _ _ _ Hl) as [ _ Hn ].
    eexists. split; [ reflexivity | ]. cbn. split.
    + rewrite Hn, Nat.eqb_refl. reflexivity.
    + intros [ m | m | ] Hne; cbn; try reflexivity.
      rewrite Hn. destruct (Nat.eqb m n) eqn:Em; [ | reflexivity ].
      apply Nat.eqb_eq in Em. congruence.
  - eexists. split; [ reflexivity | ]. cbn. split; [ reflexivity | ].
    intros [ m | m | ] Hne; cbn; try reflexivity. congruence.
Qed.

Lemma bind_step {A B} (c : M A) (k : A -> M B) st a st' :
  c st = Ok (a, st') -> bind c k st = k a st'.
Proof. intros E. unfold bind. rewrite E. reflexivity. Qed.

(* ================================================================== *)
(** * Weights of parsed alternatives *)

(** ** Numbers read from digits are not negative *)

Lemma shr_1_nonneg mrs : (0 <= shr_m mrs)%Z -> (0 <= shr_m (shr_1 mrs))%Z.
Proof.
  destruct mrs as [ m r s ]. cbn [shr_m]. intros Hm.
  destruct m as [ | [ p | p | ] | p ]; cbn; lia.
Qed.

Lemma iter_pos_shr_1_nonneg p : forall mrs,
  (0 <= shr_m mrs)%Z -> (0 <= shr_m (iter_pos shr_1 p mrs))%Z.
Proof.
  induction p as [ p IH | p IH | ]; intros mrs Hm; cbn [iter_pos].
  - apply IH, IH, shr_1_nonneg, Hm.
  - apply IH, IH, Hm.
  - apply shr_1_nonneg, Hm.
Qed.

Lemma shr_fexp_nonneg m e l :
  (0 <= m)%Z -> (0 <= shr_m (fst (shr_fexp prec emax m e l)))%Z.
Proof.
  intros Hm. unfold shr_fexp, shr.
  assert (H0 : (0 <= shr_m (shr_record_of_loc m l))%Z).
  { destruct l as [ | [ | | ] ]; exact Hm. }
  destruct (_ - e)%Z; cbn [fst]; auto.
  apply iter_pos_shr_1_nonneg, H0.
Qed.

Lemma round_nearest_even_nonneg mx lx :
  (0 <= mx)%Z -> (0 <= round_nearest_even mx lx)%Z.
Proof.
  intros Hm. unfold round_nearest_even.
  destruct lx as [ | [ | | ] ]; try destruct (Z.even mx); lia.
Qed.

Lemma binary_round_aux_nonneg mx ex lx :
  (0 <= mx)%Z -> sf_nonneg (binary_round_aux prec emax false mx ex lx).
Proof.
  intros Hm. unfold binary_round_aux.
  pose proof (shr_fexp_nonneg mx ex lx Hm) as H1.
  destruct (shr_fexp prec emax mx ex lx) as [ mrs' e' ]. cbn [fst] in H1.
  pose proof (shr_fexp_nonneg _ e' loc_Exact
                (round_nearest_even_nonneg _ (loc_of_shr_record mrs') H1))
    as H2.
  destruct (shr_fexp prec emax _ e' loc_Exact) as [ mrs'' e'' ].
  cbn [fst] in H2.
  destruct (shr_m mrs'') as [ | p | p ]; [ exact I | | lia ].
  destruct (Z.leb e'' _); exact I.
Qed.

Lemma binary_normalize_nonneg z e :
  (0 <= z)%Z -> sf_nonneg (binary_normalize prec emax z e false).
Proof.
  intros Hz. unfold binary_normalize, binary_round.
  destruct z as [ | p | p ]; [ exact I | | lia ].
  destruct (shl_align p e _) as [ mz ez ].
  apply binary_round_aux_nonneg. lia.
Qed.

Lemma SFldexp_nonneg s e : sf_nonneg s -> sf_nonneg (SFldexp prec emax s e).
Proof.
  destruct s as [ b | b | | [ | ] m ex ]; cbn [sf_nonneg SFldexp]; auto;
    [ tauto | ].
  intros _. unfold binary_round.
  destruct (shl_align m _ _) as [ mz ez ].
  apply binary_round_aux_nonneg. lia.
Qed.

Lemma SFleb_zero_nonneg s : sf_nonneg s -> SFleb (S754_zero false) s = true.
Proof.
  destruct s as [ b | [ | ] | | [ | ] m ex ]; cbn; tauto.
Qed.

Lemma SF2Prim_nonneg s : sf_nonneg s -> nonneg (SF2Prim s).
Proof.
  unfold nonneg. destruct s as [ [ | ] | [ | ] | | [ | ] m ex ]; cbn [sf_nonneg];
    try tauto; intros _; try reflexivity.
  cbn [SF2Prim]. rewrite leb_spec, Z_ldexp_spec, of_uint63_spec.
  apply SFleb_zero_nonneg, SFldexp_nonneg, binary_normalize_nonneg.
  apply Uint63.to_Z_bounded.
Qed.

Lemma of_Z_nonneg z : (0 <= z)%Z -> nonneg (JsNumber.of_Z z).
Proof.
  intros Hz. apply SF2Prim_nonneg, binary_normalize_nonneg, Hz.
Qed.

Lemma of_ratio_nonneg n d :
  (0 <= n)%Z -> (0 < d)%Z -> nonneg (JsNumber.of_ratio n d).
Proof.
  intros Hn Hd. unfold JsNumber.of_ratio.
  destruct (n =? 0)%Z; [ reflexivity | ].
  apply SF2Prim_nonneg, binary_normalize_nonneg.
  set (s := Z.max 0 (64 + Z.log2 d - Z.log2 n)).
  assert (0 <= Z.shiftl n s / d)%Z.
  { apply Z.div_pos; [ | exact Hd ]. apply Z.shiftl_nonneg. exact Hn. }
  destruct (_ =? 0)%Z; lia.
Qed.

Lemma of_decimal_nonneg m e : (0 <= m)%Z -> nonneg (JsNumber.of_decimal m e).
Proof.
  intros Hm. unfold JsNumber.of_decimal.
  destruct (m =? 0)%Z; [ reflexivity | ].
  destruct (310 <? _)%Z; [ reflexivity | ].
  destruct (_ <? -325)%Z; [ reflexivity | ].
  destruct (0 <=? e)%Z eqn:He.
  - apply of_ratio_nonneg; [ | lia ].
    apply Z.mul_nonneg_nonneg; [ exact Hm | ].
    apply Z.pow_nonneg. lia.
  - apply of_ratio_nonneg; [ exact Hm | ].
    apply Z.pow_pos_nonneg; lia.
Qed.

Lemma take_digits_nonneg s : forall acc len v l rest,
  JsNumber.take_digits s acc len = (v, l, rest) ->
  (0 <= acc)%Z -> (0 <= len)%Z -> (0 <= v)%Z /\ (len <= l)%Z.
Proof.
  induction s as [ | c r IH ]; intros acc len v l rest E Ha Hl;
    cbn [JsNumber.take_digits] in E.
  - inversion E; subst. lia.
  - destruct (JsString.is_digit c).
    + apply IH in E; [ lia | | lia ].
      unfold JsString.digit_val. lia.
    + inversion E; subst. lia.
Qed.

(** [parseFloat] of a text that begins with a digit *)
Lemma parseFloat_nonneg c r :
  JsString.is_digit c = true -> nonneg (JsNumber.parseFloat (String c r)).
Proof.
  intros Hc.
  assert (Hsp : JsString.is_space c = false).
  { destruct c as [ [ | ] [ | ] [ | ] [ | ] [ | ] [ | ] [ | ] [ | ] ];
      try reflexivity; discriminate. }
  assert (Hplus : Ascii.eqb c "+" = false /\ Ascii.eqb c "-" = false).
  { destruct c as [ [ | ] [ | ] [ | ] [ | ] [ | ] [ | ] [ | ] [ | ] ];
      try (split; reflexivity); discriminate. }
  unfold JsNumber.parseFloat. cbn [JsString.trimStart]. rewrite Hsp.
  assert (Hsign :
            match String c r with
            | String "+" t => (false, t)
            | String "-" t => (true, t)
            | _ => (false, String c r)
            end = (false, String c r)).
  { destruct c as [ [ | ] [ | ] [ | ] [ | ] [ | ] [ | ] [ | ] [ | ] ];
      try reflexivity; destruct Hplus; discriminate. }
  rewrite Hsign.
  destruct (JsNumber.take_digits (String c r) 0 0) as [ [ip ilen] r1 ] eqn:Ei.
  cbn [JsNumber.take_digits] in Ei. rewrite Hc in Ei.
  apply take_digits_nonneg in Ei;
    [ | unfold JsString.digit_val; lia | lia ].
  destruct Ei as [ Hip Hilen ].
  destruct (match r1 with
            | String "." t => JsNumber.take_digits t 0 0
            | _ => (0%Z, 0%Z, r1)
            end) as [ [fp flen] r2 ] eqn:Ef.
  assert (Hf : (0 <= fp)%Z /\ (0 <= flen)%Z).
  { destruct r1 as [ | d t ]; [ inversion Ef; lia | ].
    destruct (Ascii.eqb d ".") eqn:Ed.
    - apply Ascii.eqb_eq in Ed. subst d.
      apply take_digits_nonneg in Ef; lia.
    - destruct d as [ [ | ] [ | ] [ | ] [ | ] [ | ] [ | ] [ | ] [ | ] ];
        try discriminate; inversion Ef; lia. }
  destruct Hf as [ Hfp Hflen ].
  replace (ilen =? 0)%Z with false by (symmetry; apply Z.eqb_neq; lia).
  cbn [andb].
  apply of_decimal_nonneg.
  apply Z.add_nonneg_nonneg; [ | exact Hfp ].
  apply Z.mul_nonneg_nonneg; [ exact Hip | ].
  apply Z.pow_nonneg. lia.
Qed.

(** ** NUMBER tokens begin with a digit *)

Import Types.

Lemma take_while_extends fuel pred : forall v L v' L',
  Lexer.take_while fuel pred v L = Some (v', L') ->
  exists suffix, v' = v ++ suffix.
Proof.
  induction fuel as [ | f IH ]; intros v L v' L' E; cbn [Lexer.take_while] in E;
    [ discriminate | ].
  destruct (negb (Lexer.isAtEnd L) && pred (Lexer.peek L)).
  - destruct (Lexer.advance L) as [ c L1 ].
    apply IH in E. destruct E as [ suffix -> ].
    exists (Lexer.str c ++ suffix). apply string_app_assoc.
  - inversion E; subst. exists "". 
    induction v' as [ | x v IHv ]; cbn; [ reflexivity | now rewrite <- IHv ].
Qed.

Lemma advance_peek L :
  Lexer.isAtEnd L = false -> fst (Lexer.advance L) = Lexer.peek L.
Proof.
  intros He. unfold Lexer.advance, Lexer.peek. rewrite He. reflexivity.
Qed.

Lemma advance_moves L0 char L :
  Lexer.advance L0 = (char, L) -> Lexer.isAtEnd L0 = false ->
  char = Lexer.char_at L0 (Lexer.position L0)
  /\ Lexer.position L = S (Lexer.position L0)
  /\ Lexer.input L = Lexer.input L0.
Proof.
  unfold Lexer.advance. intros E He. rewrite He in E. inversion E.
  destruct (Ascii.eqb _ Lexer.lf); cbn; auto.
Qed.

Lemma number_starts_with_digit fuel sl sc L0 char L token L2 :
  Lexer.advance L0 = (char, L) ->
  Lexer.isDigit char = true ->
  Lexer.number fuel sl sc L = Parsed (token, L2) ->
  type token = NUMBER /\ digit_text (value token).
Proof.
  intros Ea Hd En.
  assert (Hend : Lexer.isAtEnd L0 = false).
  { unfold Lexer.advance in Ea. destruct (Lexer.isAtEnd L0); [ | reflexivity ].
    inversion Ea; subst. discriminate. }
  destruct (advance_moves _ _ _ Ea Hend) as (Hc & HpL & HiL).
  assert (Hp : Lexer.position (Lexer.back_up L) = Lexer.position L0)
    by (cbn; lia).
  assert (Hi : Lexer.input (Lexer.back_up L) = Lexer.input L0)
    by (cbn; exact HiL).
  assert (He : Lexer.isAtEnd (Lexer.back_up L) = false).
  { unfold Lexer.isAtEnd in *. rewrite Hp, Hi. exact Hend. }
  assert (Hpk : Lexer.peek (Lexer.back_up L) = char).
  { unfold Lexer.peek. rewrite He. unfold Lexer.char_at. rewrite Hp, Hi.
    symmetry. exact Hc. }
  assert (Hadv : fst (Lexer.advance (Lexer.back_up L)) = char).
  { rewrite (advance_peek _ He). exact Hpk. }
  clear Ea.
  assert (Hfirst : forall v L1,
             Lexer.take_while fuel Lexer.isDigit "" (Lexer.back_up L)
             = Some (v, L1) -> digit_text v).
  { intros v L1 E. destruct fuel as [ | f ]; [ discriminate | ].
    cbn [Lexer.take_while] in E. rewrite He, Hpk, Hd in E. cbn [negb andb] in E.
    destruct (Lexer.advance (Lexer.back_up L)) as [ c L' ] eqn:Eadv.
    cbn [fst] in Hadv. subst c.
    apply take_while_extends in E. destruct E as [ suffix -> ].
    exists char, suffix. split; [ reflexivity | exact Hd ]. }
  unfold Lexer.number in En.
  destruct (Lexer.take_while fuel Lexer.isDigit "" (Lexer.back_up L))
    as [ [v L1] | ] eqn:Et; [ | discriminate ].
  pose proof (Hfirst _ _ eq_refl) as (c & r & -> & Hdc).
  destruct (negb (Lexer.isAtEnd L1) && Ascii.eqb (Lexer.peek L1) "."
            && Lexer.isDigit (Lexer.peekNext L1)).
  - destruct (Lexer.advance L1) as [ dot L3 ].
    destruct (Lexer.take_while fuel Lexer.isDigit _ L3) as [ [v' L4] | ] eqn:Et2;
      [ | discriminate ].
    inversion En; subst. cbn [type value]. split; [ reflexivity | ].
    apply take_while_extends in Et2. destruct Et2 as [ suffix -> ].
    exists c, ((r ++ Lexer.str dot) ++ suffix).
    split; [ reflexivity | exact Hdc ].
  - inversion En; subst. cbn [type value]. split; [ reflexivity | ].
    exists c, r. split; [ reflexivity | exact Hdc ].
Qed.

Lemma one_or_two_not_number L c second two one sl sc token L2 :
  two <> NUMBER -> one <> NUMBER ->
  Lexer.one_or_two L c second two one sl sc = Parsed (token, L2) ->
  type token <> NUMBER.
Proof.
  intros H2 H1. unfold Lexer.one_or_two.
  destruct (Lexer.match_ L second) as [ [ | ] L1 ]; intros E; inversion E;
    subst; cbn; assumption.
Qed.

Lemma nextToken_number fuel L0 token L2 :
  Lexer.nextToken fuel L0 = Parsed (token, L2) ->
  type token = NUMBER -> digit_text (value token).
Proof.
  unfold Lexer.nextToken.
  destruct (Lexer.advance L0) as [ char L ] eqn:Ea.
  cbv zeta. intros E Ht.
  repeat match type of E with
         | (if Ascii.eqb char ?c then _ else _) = _ =>
             destruct (Ascii.eqb char c);
             [ first
                 [ inversion E; subst; cbn in Ht; discriminate
                 | exfalso;
                   refine (one_or_two_not_number _ _ _ _ _ _ _ _ _ _ _ E Ht);
                   discriminate ]
             | ]
         end.
  destruct (Ascii.eqb char ":").
  - destruct (Lexer.match_ L "=") as [ [ | ] L1 ].
    + inversion E; subst; cbn in Ht; discriminate.
    + exfalso.
      refine (one_or_two_not_number _ _ _ _ _ _ _ _ _ _ _ E Ht); discriminate.
  - destruct (Ascii.eqb char Lexer.dquote || Ascii.eqb char Lexer.squote).
    + unfold Lexer.string_ in E.
      destruct (Lexer.string_loop fuel char "" L) as [ [v L1] | ];
        [ | discriminate ].
      destruct (Lexer.isAtEnd L1); [ discriminate | ].
      destruct (Lexer.advance L1). inversion E; subst; cbn in Ht; discriminate.
    + destruct (Lexer.isDigit char) eqn:Hd.
      * exact (proj2 (number_starts_with_digit _ _ _ _ _ _ _ _ Ea Hd E)).
      * destruct (Lexer.isAlpha char); [ | discriminate ].
        unfold Lexer.identifier in E.
        destruct (Lexer.take_while fuel _ "" _) as [ [v L1] | ];
          [ | discriminate ].
        inversion E; subst; cbn in Ht; discriminate.
Qed.

Lemma tokenize_loop_numbers fuel : forall tokens L tokens' L',
  number_tokens_ok tokens ->
  Lexer.tokenize_loop fuel tokens L = Parsed (tokens', L') ->
  number_tokens_ok tokens'.
Proof.
  induction fuel as [ | f IH ]; intros tokens L tokens' L' Hok E;
    cbn [Lexer.tokenize_loop] in E; [ discriminate | ].
  destruct (Lexer.isAtEnd L); [ inversion E; subst; exact Hok | ].
  destruct (Lexer.skipWhitespace (S f) L) as [ L1 | ]; [ | discriminate ].
  destruct (Lexer.isAtEnd L1); [ inversion E; subst; exact Hok | ].
  destruct (Lexer.nextToken (S f) L1) as [ [token L2] | e | ] eqn:En;
    try discriminate.
  apply IH in E; [ exact E | ].
  apply Forall_app. split; [ exact Hok | ].
  constructor; [ | constructor ].
  intros Ht. exact (nextToken_number _ _ _ _ En Ht).
Qed.

Lemma tokenize_numbers fuel text tokens :
  Lexer.tokenize fuel text = Parsed tokens -> number_tokens_ok tokens.
Proof.
  unfold Lexer.tokenize.
  destruct (Lexer.tokenize_loop fuel [] (Lexer.new text))
    as [ [ts L] | e | ] eqn:E; try discriminate.
  intros E'. inversion E'; subst.
  apply Forall_app. split.
  - eapply tokenize_loop_numbers; [ | exact E ]. constructor.
  - constructor; [ | constructor ]. cbn. discriminate.
Qed.

(** ** The weight of a parsed alternative *)

Import Nodes Parser.
Local Open Scope parser_scope.

Lemma pbind_Parsed {A B} (c : P A) (k : A -> P B) cur b cur' :
  pbind c k cur = Parsed (b, cur') <->
  exists a cur1, c cur = Parsed (a, cur1) /\ k a cur1 = Parsed (b, cur').
Proof.
  unfold pbind. split.
  - destruct (c cur) as [ [a cur1] | e | ]; try discriminate.
    intros H. exists a, cur1. auto.
  - intros (a & cur1 & Hc & Hk). rewrite Hc. exact Hk.
Qed.

Lemma pret_Parsed {A} (a b : A) cur cur' :
  pret a cur = Parsed (b, cur') <-> b = a /\ cur' = cur.
Proof.
  unfold pret. split.
  - intros H. inversion H. auto.
  - intros [-> ->]. reflexivity.
Qed.

Section ParsedWeights.

Variable tokens : list Token.

Lemma check_true ty cur b cur' :
  check tokens ty cur = Parsed (b, cur') ->
  cur' = cur /\ (b = true -> Types.type (token_at tokens cur) = ty
                             /\ TokenType_eqb (Types.type (token_at tokens cur)) EOF
                                = false).
Proof.
  unfold check, isAtEnd, peek, pbind, pret.
  destruct (TokenType_eqb (Types.type (token_at tokens cur)) EOF) eqn:Ee;
    intros E; injection E as Hb Hc; (split; [ congruence | ]);
    intros Hb'; [ congruence | ].
  split; [ | reflexivity ].
  rewrite Hb' in Hb.
  destruct (Types.type (token_at tokens cur)), ty; try discriminate; reflexivity.
Qed.

Lemma advance_token cur t cur' :
  TokenType_eqb (Types.type (token_at tokens cur)) EOF = false ->
  advance tokens cur = Parsed (t, cur') ->
  t = token_at tokens cur.
Proof.
  unfold advance, isAtEnd, peek, previous, pbind, pret.
  intros He. rewrite He. intros E. injection E as Ht _.
  rewrite <- Ht. f_equal. lia.
Qed.

Lemma token_at_In cur ty :
  Types.type (token_at tokens cur) = ty -> ty <> EOF -> In (token_at tokens cur) tokens.
Proof.
  unfold token_at. intros Ht Hne.
  destruct (Nat.lt_ge_cases cur (List.length tokens)) as [ Hlt | Hge ].
  - apply nth_In. exact Hlt.
  - rewrite nth_overflow in Ht by exact Hge. cbn in Ht. congruence.
Qed.

Lemma alternative_loop_weight n fuel : forall elems w cur elems' w' cur',
  alternative_loop tokens n fuel elems w cur = Parsed ((elems', w'), cur') ->
  weight_from tokens w -> weight_from tokens w'.
Proof.
  induction n as [ | m IH ]; intros elems w cur elems' w' cur' E Hw;
    cbn [alternative_loop] in E; [ discriminate | ].
  apply pbind_Parsed in E. destruct E as (e & c1 & _ & E).
  apply pbind_Parsed in E. destruct E as (p & c2 & _ & E).
  apply pbind_Parsed in E. destruct E as (r & c3 & _ & E).
  destruct (negb e && negb p && negb r).
  - apply pbind_Parsed in E. destruct E as (nl & c4 & _ & E).
    destruct nl.
    + eapply IH; eauto.
    + apply pbind_Parsed in E. destruct E as (element & c5 & _ & E).
      apply pbind_Parsed in E. destruct E as (dc & c6 & _ & E).
      apply pbind_Parsed in E. destruct E as (isNumber & c7 & Ec & E).
      destruct isNumber.
      * apply pbind_Parsed in E. destruct E as (t & c8 & Ea & E).
        apply pret_Parsed in E. destruct E as [ E -> ]. inversion E; subst.
        destruct dc; [ | apply pret_Parsed in Ec; destruct Ec; discriminate ].
        apply check_true in Ec. destruct Ec as [ -> Hc ].
        destruct (Hc eq_refl) as [ Hty Hne ].
        apply (advance_token _ _ _ Hne) in Ea. subst t.
        right. exists (token_at tokens c6). repeat split; auto.
        eapply token_at_In; [ exact Hty | discriminate ].
      * eapply IH; eauto.
  - apply pret_Parsed in E. destruct E as [ E -> ]. inversion E; subst.
    exact Hw.
Qed.

Lemma parseAlternative_weight fuel cur alt cur' :
  parseAlternative tokens fuel cur = Parsed (alt, cur') ->
  weight_from tokens (weight alt).
Proof.
  unfold parseAlternative. intros E.
  apply pbind_Parsed in E. destruct E as ([elems w] & c1 & El & E).
  apply alternative_loop_weight in El; [ | left; reflexivity ].
  cbn [fst snd] in E. destruct elems as [ | x r ].
  - apply pbind_Parsed in E. destruct E as (t & c2 & _ & E). discriminate.
  - apply pret_Parsed in E. destruct E as [ -> _ ]. exact El.
Qed.

Lemma alternatives_loop_weight n fuel : forall alts cur alts' cur',
  alternatives_loop tokens n fuel alts cur = Parsed (alts', cur') ->
  Forall (fun a => weight_from tokens (weight a)) alts ->
  Forall (fun a => weight_from tokens (weight a)) alts'.
Proof.
  induction n as [ | m IH ]; intros alts cur alts' cur' E Ha;
    cbn [alternatives_loop] in E; [ discriminate | ].
  apply pbind_Parsed in E. destruct E as ([ | ] & c1 & _ & E).
  - apply pbind_Parsed in E. destruct E as (alt & c2 & Ealt & E).
    eapply IH; [ exact E | ].
    apply Forall_app. split; [ exact Ha | ].
    constructor; [ | constructor ].
    eapply parseAlternative_weight; eauto.
  - apply pret_Parsed in E. destruct E as [ -> _ ]. exact Ha.
Qed.

Lemma parseRule_weight fuel cur rule cur' :
  parseRule tokens fuel cur = Parsed (rule, cur') ->
  Forall (fun a => weight_from tokens (weight a)) (alternatives rule).
Proof.
  unfold parseRule, parseAlternatives. intros E.
  apply pbind_Parsed in E. destruct E as (t1 & c1 & _ & E).
  apply pbind_Parsed in E. destruct E as (nameToken & c2 & _ & E).
  apply pbind_Parsed in E. destruct E as (t3 & c3 & _ & E).
  apply pbind_Parsed in E. destruct E as (alts & c4 & Ea & E).
  apply pret_Parsed in E. destruct E as [ -> _ ]. cbn [alternatives].
  apply pbind_Parsed in Ea. destruct Ea as (first & c5 & Ef & Ea).
  eapply alternatives_loop_weight; [ exact Ea | ].
  constructor; [ | constructor ].
  eapply parseAlternative_weight; eauto.
Qed.

Lemma parse_loop_weight n fuel : forall rules cur rules' cur',
  parse_loop tokens n fuel rules cur = Parsed (rules', cur') ->
  rules_ok tokens rules -> rules_ok tokens rules'.
Proof.
  induction n as [ | m IH ]; intros rules cur rules' cur' E Hr;
    cbn [parse_loop] in E; [ discriminate | ].
  apply pbind_Parsed in E. destruct E as ([ | ] & c1 & _ & E).
  - apply pret_Parsed in E. destruct E as [ -> _ ]. exact Hr.
  - apply pbind_Parsed in E. destruct E as ([] & c2 & _ & E).
    apply pbind_Parsed in E. destruct E as ([ | ] & c3 & _ & E).
    + apply pret_Parsed in E. destruct E as [ -> _ ]. exact Hr.
    + apply pbind_Parsed in E. destruct E as (rule & c4 & Erule & E).
      eapply IH; [ exact E | ].
      apply (alist_set_Forall
               (fun r => Forall (fun a => weight_from tokens (weight a))
                                (alternatives r))); [ exact Hr | ].
      eapply parseRule_weight; eauto.
Qed.

Lemma parse_tokens_weight fuel g :
  parse_tokens tokens fuel = Parsed g -> rules_ok tokens (rules g).
Proof.
  unfold parse_tokens.
  destruct (parse_loop tokens fuel fuel [] 0) as [ [rs c] | e | ] eqn:E;
    try discriminate.
  apply parse_loop_weight in E; [ | constructor ].
  destruct rs; [ discriminate | ].
  intros E'. inversion E'; subst. exact E.
Qed.

End ParsedWeights.

Lemma weight_from_nonneg tokens w :
  number_tokens_ok tokens -> weight_from tokens w -> nonneg w.
Proof.
  intros Hok [ -> | (t & Hin & Hty & ->) ]; [ reflexivity | ].
  unfold number_tokens_ok in Hok. rewrite Forall_forall in Hok.
  destruct (Hok t Hin Hty) as (c & r & -> & Hd).
  apply parseFloat_nonneg. exact Hd.
Qed.

(** C5 (amended).  Every alternative of a grammar that [Parser.parse]
    returns has a weight that is not negative and is not NaN: the weight is
    the default 1.0, or it is what [parseFloat] reads in the text of a
    [::<number>] marker, a text that begins with a digit.  The parser checks
    nothing more, so a weight of zero is accepted. *)
Theorem parsed_weights_not_negative fuel text g rule a :
  Parser.parse fuel text = Parsed g ->
  In rule (rules g) -> In a (alternatives (snd rule)) ->
  nonneg (weight a)
  /\ (weight a = PrimFloat.one
      \/ exists digits, digit_text digits
                        /\ weight a = JsNumber.parseFloat digits).
Proof.
  unfold Parser.parse.
  destruct (Lexer.tokenize fuel text) as [ tokens | e | ] eqn:Et;
    try discriminate.
  intros Ep Hr Ha.
  apply tokenize_numbers in Et. apply parse_tokens_weight in Ep.
  unfold rules_ok in Ep. rewrite Forall_forall in Ep.
  specialize (Ep rule Hr). rewrite Forall_forall in Ep.
  specialize (Ep a Ha). split.
  - exact (weight_from_nonneg _ _ Et Ep).
  - destruct Ep as [ Hw | (t & Hin & Hty & Hw) ]; [ left; exact Hw | ].
    right. exists (Types.value t). split; [ | exact Hw ].
    unfold number_tokens_ok in Et. rewrite Forall_forall in Et.
    exact (Et t Hin Hty).
Qed.

Lemma parsed_weights_not_negative_witness :
  Parser.parse 100 weighted_grammar = Parsed weighted_grammar_ast
  /\ nonneg (weight (mkAlternative [Literal (Js.PStr "a")] PrimFloat.zero)).
Proof.
  assert (Hp : Parser.parse 100 weighted_grammar = Parsed weighted_grammar_ast)
    by (vm_compute; reflexivity).
  split; [ exact Hp | ].
  apply (parsed_weights_not_negative 100 weighted_grammar weighted_grammar_ast
           ("start",
            mkRule "start"
              [mkAlternative [Literal (Js.PStr "a")] PrimFloat.zero;
               mkAlternative [Literal (Js.PStr "b")] PrimFloat.one])).
  - exact Hp.
  - left. reflexivity.
  - left. reflexivity.
Defined.

(** The grammar [$start := a ::0 | b] is accepted, and its first
    alternative has weight zero, which is not strictly positive. *)
Lemma zero_weight_counterexample :
  exists rule a,
    Parser.parse 100 weighted_grammar = Parsed weighted_grammar_ast
    /\ In rule (rules weighted_grammar_ast)
    /\ In a (alternatives (snd rule))
    /\ weight a = PrimFloat.zero
    /\ PrimFloat.ltb PrimFloat.zero (weight a) = false.
Proof.
  exists ("start",
          mkRule "start"
            [mkAlternative [Literal (Js.PStr "a")] PrimFloat.zero;
             mkAlternative [Literal (Js.PStr "b")] PrimFloat.one]),
    (mkAlternative [Literal (Js.PStr "a")] PrimFloat.zero).
  split; [ vm_compute; reflexivity | ].
  split; [ left; reflexivity | ].
  split; [ left; reflexivity | ].
  split; reflexivity.
Qed.

(* ================================================================== *)
(** * Further properties of the evaluator *)

Import Js Nodes.
Local Open Scope js_scope.

(** ** The text of a rule *)

Lemma Alternative_loop_text fuel ev elems :
  forall context vars result k needsSpace st r st',
    Alternative_loop fuel ev elems context vars result k needsSpace st
    = Ok (r, st') ->
    exists s, value r = VStr s.
Proof.
  induction elems as [ | e rest IH ];
    intros context vars result k needsSpace st r st' E;
    cbn [Alternative_loop] in E.
  - apply ret_Ok in E. destruct E as [-> _]. eexists. reflexivity.
  - apply bind_Ok in E. destruct E as (er & s1 & _ & E).
    apply bind_Ok in E. destruct E as (acc & s2 & _ & E).
    apply bind_Ok in E. destruct E as (u & s3 & _ & E).
    eapply IH. exact E.
Qed.

Lemma Alternative_evaluate_text fuel ev alt context st r st' :
  Alternative_evaluate fuel ev alt context st = Ok (r, st') ->
  exists s, value r = VStr s.
Proof.
  unfold Alternative_evaluate. intros E.
  apply bind_Ok in E. destruct E as (vars & s1 & _ & E).
  eapply Alternative_loop_text. exact E.
Qed.

Lemma evaluate_selected_text fuel ev alt context st r st' :
  evaluate_selected fuel ev alt context st = Ok (r, st') ->
  exists s, value r = VStr s.
Proof.
  unfold evaluate_selected. intros E.
  apply bind_Ok in E. destruct E as (vars & s1 & _ & E).
  apply bind_Ok in E. destruct E as (res & s2 & Ea & E).
  apply bind_Ok in E. destruct E as (u & s3 & _ & E).
  apply ret_Ok in E. destruct E as [-> _].
  eapply Alternative_evaluate_text. exact Ea.
Qed.

Lemma select_loop_text fuel ev alts :
  forall fallback random w context st r st',
    select_loop fuel ev alts fallback random w context st = Ok (r, st') ->
    exists s, value r = VStr s.
Proof.
  induction alts as [ | a rest IH ]; intros fallback random w context st r st' E;
    cbn [select_loop] in E.
  - eapply evaluate_selected_text. exact E.
  - destruct (PrimFloat.leb random (PrimFloat.add w (weight a))).
    + eapply evaluate_selected_text. exact E.
    + eapply IH. exact E.
Qed.

Lemma Rule_evaluate_text fuel ev rule context st r st' :
  Rule_evaluate fuel ev rule context st = Ok (r, st') ->
  exists s, value r = VStr s.
Proof.
  unfold Rule_evaluate. intros E.
  destruct (alternatives rule) as [ | a [ | b rest ] ].
  - discriminate.
  - eapply Alternative_evaluate_text. exact E.
  - unfold selectWeightedAlternative in E.
    apply bind_Ok in E. destruct E as (x & s1 & _ & E).
    eapply select_loop_text. exact E.
Qed.

Lemma Grammar_evaluate_text fuel g context st r st' :
  Grammar_evaluate fuel g context st = Ok (r, st') ->
  exists s, value r = VStr s.
Proof.
  unfold Grammar_evaluate. intros E.
  destruct (alist_get "start" (rules g)) as [ startRule | ]; [ | discriminate ].
  apply bind_Ok in E. destruct E as (res & s1 & Er & E).
  destruct (Rule_evaluate_text _ _ _ _ _ _ _ Er) as [ s Hs ].
  rewrite Hs in E. apply ret_Ok in E. destruct E as [-> _].
  exists s. exact Hs.
Qed.

(** X1.  The output of [execute] is always a string, whatever the grammar
    and the knowledge: [Rule.evaluate] returns the text its alternative
    accumulated, so the number-to-string step of [Grammar.evaluate] never
    applies, and no number, boolean or object reaches the caller as
    output. *)
Theorem execute_output_is_text fuel ast k seed st r st' :
  Generator.execute fuel ast k seed st = Ok (r, st') ->
  exists s, Generator.output r = VStr s.
Proof.
  unfold Generator.execute. intros E.
  apply bind_Ok in E. destruct E as (k' & s1 & _ & E).
  apply bind_Ok in E. destruct E as (context & s2 & _ & E).
  apply bind_Ok in E. destruct E as (res & s3 & Eg & E).
  apply ret_Ok in E. destruct E as [-> _]. cbn [Generator.output].
  eapply Grammar_evaluate_text. exact Eg.
Qed.

Lemma execute_output_is_text_witness :
  exists r st' s,
    Generator.execute 100 weighted_grammar_ast K0 (Some (JsNumber.of_Z 7))
      (Generator.initial_store empty_knowledge (fun _ => PrimFloat.zero))
    = Ok (r, st')
    /\ Generator.output r = VStr s.
Proof.
  destruct (Generator.execute 100 weighted_grammar_ast K0
              (Some (JsNumber.of_Z 7))
              (Generator.initial_store empty_knowledge
                 (fun _ => PrimFloat.zero)))
    as [ [r st'] | e | w ] eqn:E.
  - destruct (execute_output_is_text _ _ _ _ _ _ _ E) as [ s Hs ].
    exists r, st', s. split; [ reflexivity | exact Hs ].
  - vm_compute in E. discriminate.
  - vm_compute in E. discriminate.
Defined.

(** ** Properties every computation of the evaluator has *)

Create HintDb comp.

Ltac comp_step H :=
  match goal with
  | |- _ _ (ret _) => apply (comp_ret _ H)
  | |- _ _ (bind _ _) => apply (comp_bind _ H); [ | intros ]
  | |- _ _ (throw _ _) => apply (comp_fail _ H); intros; discriminate
  | |- _ _ (throw_EvaluationError _) =>
      apply (comp_fail _ H); intros; discriminate
  | |- _ _ (stuck _) => apply (comp_fail _ H); intros; discriminate
  | |- _ _ (rethrow _ _) => apply (comp_rethrow _ H)
  | |- _ _ (get_object _) => apply (comp_get_object _ H)
  | |- _ _ shared_entries => apply (comp_shared_entries _ H)
  | |- _ _ (alloc _) => apply (comp_alloc _ H)
  | |- _ _ (map_new _) => apply (comp_map_new _ H)
  | |- _ _ (map_entries _) => apply (comp_map_entries _ H)
  | |- _ _ (map_set _ _ _) => apply (comp_map_set _ H)
  | |- _ _ random => apply (comp_random _ H)
  | |- _ _ (match ?x with _ => _ end) => destruct x; cbv beta iota
  | |- _ _ _ => solve [ auto with comp ]
  end.

Ltac comp H := repeat (comp_step H).

Section Generic.

Variable P : forall A : Type, M A -> Prop.
Hypothesis H : compositional P.

Lemma P_map_get m k : P _ (map_get m k).
Proof. unfold map_get. comp H. Qed.

Lemma P_map_has m k : P _ (map_has m k).
Proof. unfold map_has. comp H. Qed.

Lemma P_set_all dst entries : P _ (set_all dst entries).
Proof. induction entries as [ | [k v] r IH ]; cbn [set_all]; comp H. Qed.

Lemma P_copy_entries src dst : P _ (copy_entries src dst).
Proof. unfold copy_entries. comp H. apply P_set_all. Qed.

Lemma P_mapM {A B} (f : A -> M B) l :
  (forall a, P _ (f a)) -> P _ (mapM f l).
Proof. intros Hf. induction l as [ | a r IH ]; cbn [mapM]; comp H. Qed.

Lemma P_to_string fuel v : P _ (to_string fuel v).
Proof.
  revert v. induction fuel as [ | f IH ]; intros v; destruct v as [p | l];
    cbn [to_string]; comp H.
  apply P_mapM. intros e. comp H.
Qed.


Local Hint Resolve P_map_get P_map_has P_set_all P_copy_entries P_to_string
  : comp.

Lemma P_to_primitive fuel v : P _ (to_primitive fuel v).
Proof. unfold to_primitive. comp H. Qed.
Local Hint Resolve P_to_primitive : comp.

Lemma P_to_number fuel v : P _ (to_number fuel v).
Proof. unfold to_number. comp H. Qed.
Local Hint Resolve P_to_number : comp.

Lemma P_numeric_looking fuel v : P _ (numeric_looking fuel v).
Proof. unfold numeric_looking. comp H. Qed.

Lemma P_js_add fuel a b : P _ (js_add fuel a b).
Proof. unfold js_add. comp H. Qed.

Lemma P_js_arith op fuel a b : P _ (js_arith op fuel a b).
Proof. unfold js_arith. comp H. Qed.

Lemma P_js_loose_eq fuel a b : P _ (js_loose_eq fuel a b).
Proof. unfold js_loose_eq. comp H. Qed.

Lemma P_js_lt fuel a b : P _ (js_lt fuel a b).
Proof. unfold js_lt. comp H. Qed.

Lemma P_js_gt fuel a b : P _ (js_gt fuel a b).
Proof. unfold js_gt. comp H. Qed.

Lemma P_js_le fuel a b : P _ (js_le fuel a b).
Proof. unfold js_le. comp H. Qed.

Lemma P_js_ge fuel a b : P _ (js_ge fuel a b).
Proof. unfold js_ge. comp H. Qed.

Local Hint Resolve P_numeric_looking P_js_add P_js_arith P_js_loose_eq
  P_js_lt P_js_gt P_js_le P_js_ge : comp.

Lemma P_absent {A} k inherited (d : A) : P _ (absent k inherited d).
Proof. unfold absent. comp H. Qed.
Local Hint Resolve P_absent : comp.

Lemma P_inherited_has k methods : P _ (inherited_has k methods).
Proof. unfold inherited_has. comp H. Qed.

Lemma P_inherited_get k methods proto : P _ (inherited_get k methods proto).
Proof. unfold inherited_get. comp H. Qed.
Local Hint Resolve P_inherited_has P_inherited_get : comp.

Lemma P_has_property v k : P _ (has_property v k).
Proof. unfold has_property. comp H. Qed.

Lemma P_get_property v k : P _ (get_property v k).
Proof. unfold get_property. comp H. Qed.

Lemma P_object_keys v : P _ (object_keys v).
Proof. unfold object_keys. comp H. Qed.

Lemma P_is_array v : P _ (is_array v).
Proof. unfold is_array. comp H. Qed.

Lemma P_spread_entries v : P _ (spread_entries v).
Proof. unfold spread_entries. comp H. Qed.
Local Hint Resolve P_has_property P_get_property P_object_keys P_is_array
  P_spread_entries : comp.

Lemma P_spread2 a b : P _ (spread2 a b).
Proof. unfold spread2. comp H. Qed.

Lemma P_spread1 a : P _ (spread1 a).
Proof. unfold spread1. comp H. Qed.

Lemma P_stringify fuel : forall stack v, P _ (stringify fuel stack v).
Proof.
  induction fuel as [ | f IH ]; intros stack v; destruct v as [p | l];
    cbn [stringify]; comp H; apply P_mapM; intros e; comp H.
Qed.

Lemma P_parse j : P _ (parse j).
Proof.
  induction j as [ | b | x | s | items IH | members IH ] using json_induction;
    cbn [parse]; comp H.
  - induction IH as [ | j r Hj Hr IHr ]; cbn [mapM]; comp H.
  - induction IH as [ | [k j] r Hj Hr IHr ]; cbn [mapM]; comp H.
Qed.
Local Hint Resolve P_spread2 P_spread1 P_stringify P_parse : comp.

Lemma P_json_clone fuel v : P _ (json_clone fuel v).
Proof. unfold json_clone. comp H. Qed.
Local Hint Resolve P_json_clone : comp.

(** *** The evaluator, on nodes whose assignments name nothing inherited *)

Lemma P_both_numeric fuel a b : P _ (both_numeric fuel a b).
Proof. unfold both_numeric. comp H. Qed.
Local Hint Resolve P_both_numeric : comp.

Lemma tame_lookup g ruleName rule :
  tame_grammar g = true -> alist_get ruleName (rules g) = Some rule ->
  tame_rule rule = true.
Proof.
  unfold tame_grammar. generalize (rules g). intros l.
  induction l as [ | [k r] rest IH ]; cbn [forallb alist_get snd];
    [ discriminate | ].
  intros Ht E. apply andb_prop in Ht. destruct Ht as [ Hr Hrest ].
  destruct (String.eqb ruleName k); [ inversion E; subst; exact Hr | auto ].
Qed.

Lemma P_navigate :
  (forall v k x, P _ (set_property v k x)) ->
  forall pathParts current, P _ (navigate pathParts current).
Proof.
  intros Hset pathParts.
  induction pathParts as [ | part rest IH ]; intros current;
    cbn [navigate]; comp H.
Qed.

Lemma P_assignToKnowledge :
  (forall v k x, P _ (set_property v k x)) ->
  forall fuel target operator context v,
    P _ (assignToKnowledge fuel target operator context v).
Proof.
  intros Hset fuel target operator context v.
  pose proof (P_navigate Hset) as Hnav.
  unfold assignToKnowledge, js_sub. comp H.
Qed.

Section Evaluator.

Variable fuel : nat.
Variable ev : ASTNode -> ExecutionContext -> M EvaluationResult.
Hypothesis Hev :
  forall node context,
    tame node = true -> tame_context context = true -> P _ (ev node context).
Hypothesis Hassign :
  forall target operator context v,
    isKnowledge target = true -> tame_target target = true ->
    P _ (assignToKnowledge fuel target operator context v).

Lemma P_map_copy m : P _ (map_copy m).
Proof. unfold map_copy. comp H. Qed.
Local Hint Resolve P_map_copy : comp.

Lemma P_Alternative_loop elems :
  forallb tame elems = true ->
  forall context vars result k needsSpace,
    tame_context context = true ->
    P _ (Alternative_loop fuel ev elems context vars result k needsSpace).
Proof.
  induction elems as [ | e rest IH ]; intros Ht context vars result k
    needsSpace Hc; cbn [Alternative_loop]; [ comp H | ].
  cbn [forallb] in Ht. apply andb_prop in Ht. destruct Ht as [ He Hr ].
  comp H.
Qed.

Lemma P_Alternative_evaluate alt context :
  forallb tame (elements alt) = true -> tame_context context = true ->
  P _ (Alternative_evaluate fuel ev alt context).
Proof.
  intros Ht Hc. unfold Alternative_evaluate. comp H.
  apply P_Alternative_loop; assumption.
Qed.

Lemma P_evaluate_selected alt context :
  forallb tame (elements alt) = true -> tame_context context = true ->
  P _ (evaluate_selected fuel ev alt context).
Proof.
  intros Ht Hc. unfold evaluate_selected. comp H.
  apply P_Alternative_evaluate; [ exact Ht | exact Hc ].
Qed.

Lemma P_select_loop alts :
  forallb (fun a => forallb tame (elements a)) alts = true ->
  forall fallback r w context,
    forallb tame (elements fallback) = true ->
    tame_context context = true ->
    P _ (select_loop fuel ev alts fallback r w context).
Proof.
  induction alts as [ | a rest IH ]; intros Ht fallback r w context Hf Hc;
    cbn [select_loop].
  - apply P_evaluate_selected; assumption.
  - cbn [forallb] in Ht. apply andb_prop in Ht. destruct Ht as [ Ha Hr ].
    destruct (PrimFloat.leb r _).
    + apply P_evaluate_selected; assumption.
    + apply IH; assumption.
Qed.

Lemma tame_last alts first :
  forallb (fun a => forallb tame (elements a)) alts = true ->
  forallb tame (elements first) = true ->
  forallb tame (elements (last alts first)) = true.
Proof.
  induction alts as [ | a rest IH ]; intros Ht Hf; cbn [last]; [ exact Hf | ].
  cbn [forallb] in Ht. apply andb_prop in Ht. destruct Ht as [ Ha Hr ].
  destruct rest as [ | b rest' ]; [ exact Ha | ]. apply IH; assumption.
Qed.

Lemma P_Rule_evaluate rule context :
  tame_rule rule = true -> tame_context context = true ->
  P _ (Rule_evaluate fuel ev rule context).
Proof.
  unfold tame_rule, Rule_evaluate, selectWeightedAlternative.
  intros Ht Hc.
  destruct (alternatives rule) as [ | a [ | a' rest ] ]; [ comp H | | ].
  - cbn [forallb] in Ht. apply andb_prop in Ht. destruct Ht as [ Ha _ ].
    apply P_Alternative_evaluate; assumption.
  - comp H. pose proof Ht as Ht'.
    cbn [forallb] in Ht'. apply andb_prop in Ht'. destruct Ht' as [ Ha _ ].
    apply P_select_loop; [ exact Ht | | exact Hc ].
    apply tame_last; assumption.
Qed.

Lemma P_object_with key item : P _ (object_with key item).
Proof. unfold object_with. comp H. Qed.
Local Hint Resolve P_object_with : comp.

Lemma P_item_weight item : P _ (item_weight item).
Proof. unfold item_weight. comp H. Qed.

Lemma P_item_value item : P _ (item_value item).
Proof. unfold item_value. comp H. Qed.
Local Hint Resolve P_item_weight P_item_value : comp.

Lemma P_some_weighted array : P _ (some_weighted array).
Proof. induction array as [ | i r IH ]; cbn [some_weighted]; comp H. Qed.

Lemma P_sum_weights array : forall sum, P _ (sum_weights fuel array sum).
Proof.
  induction array as [ | i r IH ]; intros; cbn [sum_weights]; comp H.
Qed.

Lemma P_weighted_walk array : forall r w, P _ (weighted_walk fuel array r w).
Proof.
  induction array as [ | i r IH ]; intros; cbn [weighted_walk]; comp H.
Qed.

Lemma P_simple_selection array context :
  P _ (simple_selection array context).
Proof. unfold simple_selection. comp H. Qed.
Local Hint Resolve P_some_weighted P_sum_weights P_weighted_walk
  P_simple_selection : comp.

Lemma P_selectFromArray array context :
  P _ (selectFromArray fuel array context).
Proof. unfold selectFromArray, js_mul. comp H. Qed.
Local Hint Resolve P_selectFromArray : comp.

Lemma P_walk_knowledge parts : forall current resolved,
  P _ (walk_knowledge parts current resolved).
Proof.
  induction parts as [ | p r IH ]; intros; cbn [walk_knowledge]; comp H.
Qed.
Local Hint Resolve P_walk_knowledge : comp.

Lemma P_walk_variable parts : forall v, P _ (walk_variable parts v).
Proof.
  induction parts as [ | p r IH ]; intros; cbn [walk_variable]; comp H.
Qed.
Local Hint Resolve P_walk_variable : comp.

Lemma P_evaluateVariable r context :
  tame_context context = true -> P _ (evaluateVariable fuel ev r context).
Proof.
  intros Hc. unfold evaluateVariable.
  destruct (path r) as [ | varName subPath ]; [ comp H | ].
  apply (comp_bind _ H); [ comp H | ]. intros [ | ]; [ comp H | ].
  destruct subPath; [ | comp H ].
  unfold lookup_rule.
  destruct (grammar context) as [ g | ] eqn:Eg; [ | comp H ].
  assert (Hg : tame_grammar g = true).
  { unfold tame_context in Hc. rewrite Eg in Hc. exact Hc. }
  destruct (alist_get varName (rules g)) as [ rule | ] eqn:Er; [ | comp H ].
  pose proof (P_Rule_evaluate rule context (tame_lookup _ _ _ Hg Er) Hc).
  comp H.
Qed.

Lemma P_VariableReference_evaluate r context :
  tame_context context = true ->
  P _ (VariableReference_evaluate fuel ev r context).
Proof.
  intros Hc. pose proof (P_evaluateVariable r context Hc).
  unfold VariableReference_evaluate, evaluateKnowledgePath. comp H.
Qed.

Lemma P_RuleReference_evaluate ruleName context :
  tame_context context = true ->
  P _ (RuleReference_evaluate fuel ev ruleName context).
Proof.
  intros Hc. unfold RuleReference_evaluate.
  apply (comp_bind _ H); [ comp H | ]. intros [ | ]; [ comp H | ].
  destruct (grammar context) as [ g | ] eqn:Eg; [ | comp H ].
  assert (Hg : tame_grammar g = true).
  { unfold tame_context in Hc. rewrite Eg in Hc. exact Hc. }
  destruct (alist_get ruleName (rules g)) as [ rule | ] eqn:Er; [ | comp H ].
  pose proof (P_Rule_evaluate rule context (tame_lookup _ _ _ Hg Er) Hc).
  comp H.
Qed.

Lemma P_assignToVariable target operator context v :
  P _ (assignToVariable fuel target operator context v).
Proof. unfold assignToVariable, js_sub. comp H. Qed.
Local Hint Resolve P_assignToVariable : comp.

Lemma P_Assignment_evaluate target operator expression context :
  tame_target target = true -> tame expression = true ->
  tame_context context = true ->
  P _ (Assignment_evaluate fuel ev target operator expression context).
Proof.
  intros Ht He Hc. unfold Assignment_evaluate.
  destruct (isKnowledge target) eqn:Ek; comp H.
Qed.

Lemma P_applyOperator operator l r : P _ (applyOperator fuel operator l r).
Proof.
  unfold applyOperator, bool_result, js_sub, js_mul, js_div. comp H.
Qed.
Local Hint Resolve P_applyOperator : comp.

Lemma P_BinaryExpression_evaluate l operator r context :
  tame l = true -> tame r = true -> tame_context context = true ->
  P _ (BinaryExpression_evaluate fuel ev l operator r context).
Proof.
  intros Hl Hr Hc. unfold BinaryExpression_evaluate, numeric_operand. comp H.
Qed.

Lemma P_join_branch_values results : forall acc,
  P _ (join_branch_values fuel results acc).
Proof.
  induction results as [ | r rest IH ]; intros;
    cbn [join_branch_values]; unfold join_branch_value; comp H.
Qed.

Lemma P_merge_knowledge results : forall acc, P _ (merge_knowledge results acc).
Proof.
  induction results as [ | r rest IH ]; intros; cbn [merge_knowledge]; comp H.
Qed.
Local Hint Resolve P_join_branch_values P_merge_knowledge : comp.

Lemma P_evaluate_each exprs context :
  forallb tame exprs = true -> tame_context context = true ->
  P _ (mapM (fun expr => ev expr context) exprs).
Proof.
  intros Ht Hc. induction exprs as [ | e rest IH ]; cbn [mapM]; [ comp H | ].
  cbn [forallb] in Ht. apply andb_prop in Ht. destruct Ht as [ He Hr ].
  comp H.
Qed.

Lemma P_evaluateBranch branch context :
  tame branch = true -> tame_context context = true ->
  P _ (evaluateBranch fuel ev branch context).
Proof.
  intros Ht Hc. unfold evaluateBranch.
  destruct branch; try (apply Hev; assumption).
  cbn [tame] in Ht. pose proof (P_evaluate_each _ _ Ht Hc). comp H.
Qed.

Lemma P_ConditionalExpression_evaluate c t f context :
  tame c = true -> tame t = true ->
  match f with Some branch => tame branch = true | None => True end ->
  tame_context context = true ->
  P _ (ConditionalExpression_evaluate fuel ev c t f context).
Proof.
  intros Hcond Ht Hf Hc. unfold ConditionalExpression_evaluate.
  apply (comp_bind _ H); [ apply Hev; assumption | ]. intros condResult.
  destruct (truthy (value condResult)).
  - apply P_evaluateBranch; assumption.
  - destruct f as [ branch | ]; [ | comp H ].
    apply P_evaluateBranch; assumption.
Qed.

Lemma P_set_both working parent entries :
  P _ (set_both working parent entries).
Proof. induction entries as [ | [k v] r IH ]; cbn [set_both]; comp H. Qed.
Local Hint Resolve P_set_both : comp.

Lemma P_Compound_loop exprs :
  forallb tame exprs = true ->
  forall context vars k lastValue,
    tame_context context = true ->
    P _ (Compound_loop ev exprs context vars k lastValue).
Proof.
  induction exprs as [ | e rest IH ]; intros Ht context vars k lastValue Hc;
    cbn [Compound_loop]; [ comp H | ].
  cbn [forallb] in Ht. apply andb_prop in Ht. destruct Ht as [ He Hr ].
  comp H.
Qed.

Lemma P_evaluate_node node context :
  tame node = true -> tame_context context = true ->
  P _ (evaluate_node fuel ev node context).
Proof.
  intros Ht Hc. destruct node; cbn [evaluate_node]; cbn [tame] in Ht.
  - unfold Literal_evaluate. comp H.
  - apply P_VariableReference_evaluate. exact Hc.
  - apply P_RuleReference_evaluate. exact Hc.
  - apply andb_prop in Ht. destruct Ht as [ Ht He ].
    apply P_Assignment_evaluate; assumption.
  - apply andb_prop in Ht. destruct Ht as [ Hl Hr ].
    apply P_BinaryExpression_evaluate; assumption.
  - apply andb_prop in Ht. destruct Ht as [ Ht Hf ].
    apply andb_prop in Ht. destruct Ht as [ Hcond Ht ].
    apply P_ConditionalExpression_evaluate; try assumption.
    destruct falseValue; [ exact Hf | exact I ].
  - unfold SilentExpression_evaluate. comp H.
  - unfold CompoundExpression_evaluate.
    pose proof (P_Compound_loop _ Ht) as Hloop. comp H.
Qed.

End Evaluator.

Lemma P_evaluate :
  (forall fuel target operator context v,
      isKnowledge target = true -> tame_target target = true ->
      P _ (assignToKnowledge fuel target operator context v)) ->
  forall fuel node context,
    tame node = true -> tame_context context = true ->
    P _ (evaluate fuel node context).
Proof.
  intros HA fuel. induction fuel as [ | f IH ]; intros node context Ht Hc;
    cbn [evaluate].
  - comp H.
  - apply P_evaluate_node; auto.
Qed.

Lemma P_Grammar_evaluate :
  (forall fuel target operator context v,
      isKnowledge target = true -> tame_target target = true ->
      P _ (assignToKnowledge fuel target operator context v)) ->
  forall fuel g context,
    tame_grammar g = true -> P _ (Grammar_evaluate fuel g context).
Proof.
  intros HA fuel g context Hg. unfold Grammar_evaluate.
  destruct (alist_get "start" (rules g)) as [ startRule | ] eqn:Es;
    [ | comp H ].
  apply (comp_bind _ H); [ | intros; comp H ].
  apply P_Rule_evaluate.
  - intros node context' Ht Hc. apply P_evaluate; assumption.
  - exact (tame_lookup _ _ _ Hg Es).
  - exact Hg.
Qed.

End Generic.

(** ** Assignment to the knowledge writes only into its own copy *)

Lemma below_compositional n : compositional (@below n).
Proof.
  constructor; unfold below.
  - intros A a st b st' E Hp Hn. inversion E; subst. repeat split; auto.
  - intros A B c k Hc Hk st b st' E Hp Hn.
    apply bind_Ok in E. destruct E as (a & st1 & E1 & E2).
    destruct (Hc _ _ _ E1 Hp Hn) as (Q1 & P1 & L1 & F1).
    destruct (Hk _ _ _ _ E2 Q1 L1) as (Q2 & P2 & L2 & F2).
    split; [ exact Q2 | ]. split; [ congruence | ]. split; [ exact L2 | ].
    intros i Hi. rewrite F2, F1 by exact Hi. reflexivity.
  - intros A c Hc st a st' E. destruct (Hc _ _ _ E).
  - intros A c h Hc st a st' E. apply rethrow_Ok in E. eapply Hc; eassumption.
  - intros l st a st'. unfold get_object.
    destruct (heap_get (objects st) l); intros E Hp Hn; inversion E; subst.
    repeat split; auto.
  - intros st a st' E Hp Hn. inversion E; subst. repeat split; auto.
  - intros o st a st'. unfold alloc, heap_alloc. intros E Hp Hn.
    inversion E; cbn.
    split; [ exact Hp | ]. split; [ reflexivity | ].
    split; [ rewrite length_app; lia | ].
    intros i Hi. rewrite nth_error_app1 by lia. reflexivity.
  - intros e st a st'. unfold map_new. intros E Hp Hn. inversion E; cbn.
    repeat split; auto.
  - intros m st a st'. unfold map_entries.
    destruct (nth_error (maps st) m); intros E Hp Hn; inversion E; subst.
    repeat split; auto.
  - intros m k v st a st'. unfold map_set.
    destruct (nth_error (maps st) m) as [ e | ]; [ | discriminate ].
    destruct (list_set m (alist_set k v e) (maps st)); intros E Hp Hn;
      inversion E; cbn.
    repeat split; auto.
  - intros st a st'. unfold random.
    destruct (entropy_next (source st)). intros E Hp Hn. inversion E; cbn.
    repeat split; auto.
Qed.

Lemma prop_insert_Forall (Q : Js.value -> Prop) k v l :
  Forall (fun kv => Q (snd kv)) l -> Q v ->
  Forall (fun kv => Q (snd kv)) (prop_insert k v l).
Proof.
  intros Hl Hv. induction Hl as [ | [k' v'] r Hx Hr IH ]; cbn [prop_insert].
  - constructor; auto.
  - destruct (array_index k) as [ n | ].
    + destruct (array_index k') as [ n' | ].
      * destruct (n <? n')%Z; repeat constructor; auto.
      * repeat constructor; auto.
    + constructor; auto.
Qed.

Lemma prop_set_Forall (Q : Js.value -> Prop) k v l :
  Forall (fun kv => Q (snd kv)) l -> Q v ->
  Forall (fun kv => Q (snd kv)) (prop_set k v l).
Proof.
  intros Hl Hv. unfold prop_set. destruct (alist_has k l).
  - apply alist_set_Forall; auto.
  - apply prop_insert_Forall; auto.
Qed.

Lemma define_all_Forall (Q : Js.value -> Prop) entries : forall acc,
  Forall (fun kv => Q (snd kv)) entries ->
  Forall (fun kv => Q (snd kv)) acc ->
  Forall (fun kv => Q (snd kv)) (define_all entries acc).
Proof.
  unfold define_all.
  induction entries as [ | [k v] r IH ]; intros acc He Ha; cbn [fold_left].
  - exact Ha.
  - inversion He; subst. apply IH; auto. apply prop_set_Forall; auto.
Qed.

(** what [alloc] does to a closed region *)
Lemma alloc_closed n o st v st' :
  alloc o st = Ok (v, st') ->
  n <= List.length (fresh (objects st)) ->
  object_above n o -> closed n st ->
  above n v /\ closed n st'.
Proof.
  unfold alloc, heap_alloc. intros E Hn Ho Hc. inversion E; subst; cbn.
  split; [ exact Hn | ].
  intros i o' Hi Hnth. cbn in Hnth.
  destruct (Nat.lt_ge_cases i (List.length (fresh (objects st))))
    as [ Hlt | Hge ].
  - rewrite nth_error_app1 in Hnth by exact Hlt. eapply Hc; eauto.
  - rewrite nth_error_app2 in Hnth by exact Hge.
    destruct (i - List.length (fresh (objects st))) as [ | d ]; cbn in Hnth.
    + inversion Hnth; subst. exact Ho.
    + destruct d; discriminate.
Qed.

Lemma has_property_readonly v k st b st' :
  has_property v k st = Ok (b, st') -> st' = st.
Proof.
  destruct v as [ p | l ]; [ discriminate | ].
  unfold has_property, inherited_has, shared_entries, get_object, bind, ret.
  destruct (heap_get (objects st) l) as [ o | ]; [ | discriminate ].
  intros E.
  repeat match type of E with
         | context [match ?x with _ => _ end] => destruct x
         end; try discriminate; inversion E; reflexivity.
Qed.

Lemma inherited_get_pristine k methods proto st x st' :
  inherited_get k methods proto st = Ok (x, st') ->
  prototype (objects st) = [] ->
  String.eqb k "__proto__" = false ->
  st' = st /\ x = VUndefined.
Proof.
  unfold inherited_get, shared_entries, absent, bind, ret, stuck.
  intros E Hp Hk.
  destruct (mem k methods); [ discriminate | ].
  rewrite Hp in E. cbn [alist_get] in E. rewrite Hk in E.
  destruct (mem k object_prototype_names); [ discriminate | ].
  inversion E. auto.
Qed.

Lemma alist_get_Forall (Q : Js.value -> Prop) k l x :
  Forall (fun kv => Q (snd kv)) l -> alist_get k l = Some x -> Q x.
Proof.
  intros Hl. induction Hl as [ | [k' v'] r Hx Hr IH ]; cbn [alist_get];
    [ discriminate | ].
  destruct (String.eqb k k'); [ intros E; inversion E; subst; exact Hx | auto ].
Qed.

(** reading, inside a closed region, a property that is not [__proto__] *)
Lemma get_property_above n v k st x st' :
  get_property v k st = Ok (x, st') ->
  above n v -> closed n st ->
  prototype (objects st) = [] ->
  String.eqb k "__proto__" = false ->
  st' = st /\ above n x.
Proof.
  intros E Hv Hc Hp Hk.
  assert (Hi : forall methods proto,
             inherited_get k methods proto st = Ok (x, st') ->
             st' = st /\ above n x).
  { intros methods proto Ei.
    destruct (inherited_get_pristine _ _ _ _ _ _ Ei Hp Hk) as [-> ->].
    split; [ reflexivity | exact I ]. }
  destruct v as [ p | [ i | i | ] ]; cbn in Hv; try tauto.
  - unfold get_property in E.
    destruct p as [ | | b | y | s ]; try discriminate; eauto.
    destruct (array_index k) as [ z | ].
    + destruct (String.get (Z.to_nat z) s); eauto.
      inversion E. split; [ reflexivity | exact I ].
    + destruct (String.eqb k "length"); eauto.
      inversion E. split; [ reflexivity | exact I ].
  - unfold get_property, get_object, bind in E. cbn [heap_get] in E.
    destruct (nth_error (fresh (objects st)) i) as [ o | ] eqn:Eo;
      [ | discriminate ].
    pose proof (Hc _ _ Hv Eo) as Ho.
    destruct o as [ props | elems ]; cbn in Ho.
    + destruct (alist_get k props) as [ y | ] eqn:Ek; eauto.
      inversion E; subst. split; [ reflexivity | ].
      exact (alist_get_Forall _ _ _ _ Ho Ek).
    + destruct (array_index k) as [ z | ].
      * destruct (nth_error elems (Z.to_nat z)) as [ y | ] eqn:Ey; eauto.
        inversion E; subst. split; [ reflexivity | ].
        apply nth_error_In in Ey. rewrite Forall_forall in Ho. auto.
      * destruct (String.eqb k "length"); eauto.
        inversion E. split; [ reflexivity | exact I ].
Qed.

(** what [v[k] = x] does when [v] belongs to the region that starts at
    [n] *)
Lemma set_property_above n v k x st st' :
  set_property v k x st = Ok (tt, st') ->
  above n v ->
  prototype (objects st') = prototype (objects st)
  /\ pre (objects st') = pre (objects st)
  /\ List.length (fresh (objects st')) = List.length (fresh (objects st))
  /\ (forall i, i < n ->
        nth_error (fresh (objects st')) i = nth_error (fresh (objects st)) i)
  /\ (above n x -> closed n st -> closed n st').
Proof.
  intros E Hv. destruct v as [ p | [ i | i | ] ]; cbn in Hv; try tauto.
  - assert (Es : st' = st).
    { unfold set_property, shared_entries, bind, ret, throw in E.
      destruct p; try discriminate;
        match type of E with
        | context [if ?c then _ else _] => destruct c
        end; try discriminate; inversion E; reflexivity. }
    subst st'. repeat split; auto.
  - unfold set_property, get_object, shared_entries, bind in E.
    cbn [heap_get] in E.
    destruct (nth_error (fresh (objects st)) i) as [ o | ] eqn:Eo;
      [ | discriminate ].
    destruct o as [ props | elems ]; [ | discriminate ].
    match type of E with
    | context [if ?c then _ else _] => destruct c
    end.
    + assert (Es : st' = st) by (destruct x as [ [ | | | | ] | ];
                                  try discriminate; inversion E; reflexivity).
      subst st'. repeat split; auto.
    + unfold put_object in E. cbn [heap_put] in E.
      destruct (list_set i _ (fresh (objects st))) as [ f | ] eqn:Ef;
        [ | discriminate ].
      inversion E; subst; cbn.
      destruct (list_set_nth _ _ _ _ Ef) as [ Hlen Hnth ].
      repeat split; auto.
      * intros j Hj. rewrite Hnth.
        destruct (Nat.eqb j i) eqn:Eji; [ | reflexivity ].
        apply Nat.eqb_eq in Eji. lia.
      * intros Hx Hc j o Hj Ej. cbn in Ej. rewrite Hnth in Ej.
        destruct (Nat.eqb j i) eqn:Eji.
        -- inversion Ej; subst. cbn. apply prop_set_Forall; auto.
           exact (Hc _ _ Hv Eo).
        -- eapply Hc; eauto.
Qed.

Lemma set_property_below n v k x : above n v -> below n (set_property v k x).
Proof.
  intros Hv st [] st' E Hp Hn.
  destruct (set_property_above n _ _ _ _ _ E Hv) as (Q & P1 & L & F & _).
  split; [ congruence | ]. split; [ exact P1 | ]. split; [ lia | exact F ].
Qed.

(** [JSON.parse] builds a closed region *)
Lemma parse_closed j : forall n st v st',
  parse j st = Ok (v, st') ->
  n <= List.length (fresh (objects st)) -> closed n st ->
  above n v /\ closed n st' /\ n <= List.length (fresh (objects st')).
Proof.
  induction j as [ | b | x | s | items IH | members IH ] using json_induction;
    intros n st v st' E Hn Hc; cbn [parse] in E.
  1-4: apply ret_Ok in E; destruct E as [-> ->]; cbn; auto.
  - apply bind_Ok in E. destruct E as (vs & st1 & Em & Ea).
    assert (Hm : Forall (above n) vs /\ closed n st1
                 /\ n <= List.length (fresh (objects st1))).
    { clear Ea. revert st vs st1 Em Hn Hc.
      induction IH as [ | j r Hj Hr IHr ]; intros st vs st1 Em Hn Hc;
        cbn [mapM] in Em.
      - apply ret_Ok in Em. destruct Em as [-> ->]. auto.
      - apply bind_Ok in Em. destruct Em as (v1 & s1 & E1 & Em).
        apply bind_Ok in Em. destruct Em as (vr & s2 & E2 & Em).
        apply ret_Ok in Em. destruct Em as [-> ->].
        destruct (Hj _ _ _ _ E1 Hn Hc) as (A1 & C1 & L1).
        destruct (IHr _ _ _ E2 L1 C1) as (A2 & C2 & L2).
        repeat split; auto. }
    destruct Hm as (A1 & C1 & L1).
    destruct (alloc_closed n _ _ _ _ Ea L1 A1 C1) as (A2 & C2).
    repeat split; auto.
    unfold alloc, heap_alloc in Ea. inversion Ea; cbn.
    rewrite length_app. lia.
  - apply bind_Ok in E. destruct E as (kvs & st1 & Em & Ea).
    assert (Hm : Forall (fun kv => above n (snd kv)) kvs /\ closed n st1
                 /\ n <= List.length (fresh (objects st1))).
    { clear Ea. revert st kvs st1 Em Hn Hc.
      induction IH as [ | [k j] r Hj Hr IHr ]; intros st kvs st1 Em Hn Hc;
        cbn [mapM] in Em.
      - apply ret_Ok in Em. destruct Em as [-> ->]. auto.
      - apply bind_Ok in Em. destruct Em as (kv1 & s1 & E1 & Em).
        apply bind_Ok in Em. destruct Em as (vr & s2 & E2 & Em).
        apply ret_Ok in Em. destruct Em as [-> ->].
        apply bind_Ok in E1. destruct E1 as (v1 & s1' & E1 & E1').
        apply ret_Ok in E1'. destruct E1' as [-> ->].
        destruct (Hj _ _ _ _ E1 Hn Hc) as (A1 & C1 & L1).
        destruct (IHr _ _ _ E2 L1 C1) as (A2 & C2 & L2).
        repeat split; auto. }
    destruct Hm as (A1 & C1 & L1).
    assert (Ho : object_above n (OObject (define_all kvs []))).
    { cbn. apply define_all_Forall; auto. }
    destruct (alloc_closed n _ _ _ _ Ea L1 Ho C1) as (A2 & C2).
    repeat split; auto.
    unfold alloc, heap_alloc in Ea. inversion Ea; cbn.
    rewrite length_app. lia.
Qed.

Lemma mapM_readonly {A B} (f : A -> M B) l :
  (forall a st b st', In a l -> f a st = Ok (b, st') -> st' = st) ->
  forall st bs st', mapM f l st = Ok (bs, st') -> st' = st.
Proof.
  induction l as [ | a r IH ]; intros Hf st bs st' E; cbn [mapM] in E.
  - apply ret_Ok in E. tauto.
  - apply bind_Ok in E. destruct E as (b & s1 & E1 & E).
    apply bind_Ok in E. destruct E as (br & s2 & E2 & E).
    apply ret_Ok in E. destruct E as [_ ->].
    apply Hf in E1; [ | left; reflexivity ]. subst s1.
    apply IH in E2; [ exact E2 | ].
    intros a' s b' s' Hin. apply Hf. right. exact Hin.
Qed.

(** [JSON.stringify] only reads *)
Lemma stringify_readonly fuel : forall stack v st r st',
  stringify fuel stack v st = Ok (r, st') -> st' = st.
Proof.
  induction fuel as [ | f IH ]; intros stack v st r st' E;
    destruct v as [ p | l ]; cbn [stringify] in E.
  - destruct p; inversion E; reflexivity.
  - destruct (existsb (loc_eqb l) stack); discriminate.
  - destruct p; inversion E; reflexivity.
  - destruct (existsb (loc_eqb l) stack); [ discriminate | ].
    apply bind_Ok in E. destruct E as (o & s1 & Eo & E).
    unfold get_object in Eo.
    destruct (heap_get (objects st) l); [ | discriminate ].
    inversion Eo; subst.
    destruct o as [ props | elems ];
      apply bind_Ok in E; destruct E as (xs & s2 & Em & E);
      apply ret_Ok in E; destruct E as [_ ->];
      apply mapM_readonly in Em; auto;
      intros a s b s' _ Ea;
      apply bind_Ok in Ea; destruct Ea as (y & s3 & Ey & Ea);
      apply ret_Ok in Ea; destruct Ea as [_ ->];
      exact (IH _ _ _ _ _ Ey).
Qed.

Lemma navigate_step part next rest current :
  navigate (part :: next :: rest) current
  = (found <- has_property current part ;;
     (if found then ret tt
      else o <- alloc (OObject []) ;; set_property current part o) ;;;
     nxt <- get_property current part ;;
     navigate (next :: rest) nxt).
Proof. reflexivity. Qed.

Lemma inherited_name_proto k :
  inherited_name k = false -> String.eqb k "__proto__" = false.
Proof.
  unfold inherited_name. intros E. apply orb_false_elim in E.
  destruct E as [ _ E ].
  destruct (String.eqb k "__proto__") eqn:Ek; [ | reflexivity ].
  apply String.eqb_eq in Ek. subst k. discriminate.
Qed.

(** the walk of [assignToKnowledge] along names that are not inherited
    stays inside the copy *)
Lemma navigate_closed n pathParts : forall current st parent finalProp st',
  navigate pathParts current st = Ok ((parent, finalProp), st') ->
  forallb (fun k => negb (inherited_name k)) pathParts = true ->
  prototype (objects st) = [] ->
  n <= List.length (fresh (objects st)) -> above n current -> closed n st ->
  above n parent /\ closed n st'
  /\ prototype (objects st') = []
  /\ pre (objects st') = pre (objects st)
  /\ n <= List.length (fresh (objects st'))
  /\ forall i, i < n ->
       nth_error (fresh (objects st')) i = nth_error (fresh (objects st)) i.
Proof.
  induction pathParts as [ | part rest IH ];
    intros current st parent finalProp st' E Ht Hp Hn Ha Hc.
  - cbn [navigate] in E. apply ret_Ok in E. destruct E as [E ->].
    inversion E; subst. repeat split; auto.
  - destruct rest as [ | next rest ].
    + cbn [navigate] in E. apply ret_Ok in E. destruct E as [E ->].
      inversion E; subst. repeat split; auto.
    + rewrite navigate_step in E.
      cbn [forallb] in Ht. apply andb_prop in Ht. destruct Ht as [ Hpart Ht ].
      apply negb_true_iff, inherited_name_proto in Hpart.
      apply bind_Ok in E. destruct E as (found & s1 & Eh & E).
      apply has_property_readonly in Eh. subst s1.
      apply bind_Ok in E. destruct E as ([] & s2 & Ec & E).
      apply bind_Ok in E. destruct E as (nxt & s3 & Eg & E).
      assert (H2 : closed n s2
                   /\ prototype (objects s2) = []
                   /\ pre (objects s2) = pre (objects st)
                   /\ n <= List.length (fresh (objects s2))
                   /\ forall i, i < n ->
                        nth_error (fresh (objects s2)) i
                        = nth_error (fresh (objects st)) i).
      { destruct found.
        - apply ret_Ok in Ec. destruct Ec as [_ ->]. repeat split; auto.
        - apply bind_Ok in Ec. destruct Ec as (o & s1 & Eal & Es).
          assert (Hempty : object_above n (OObject [])) by (cbn; constructor).
          destruct (alloc_closed n _ _ _ _ Eal Hn Hempty Hc) as (A1 & C1).
          destruct (comp_alloc _ (below_compositional n) _ _ _ _ Eal Hp Hn)
            as (Q1 & P1 & L1 & F1).
          destruct (set_property_above n _ _ _ _ _ Es Ha)
            as (Q2 & P2 & L2 & F2 & C2).
          split; [ auto | ]. split; [ congruence | ].
          split; [ congruence | ]. split; [ lia | ].
          intros i Hi. rewrite F2, F1 by exact Hi. reflexivity. }
      destruct H2 as (C2 & Q2 & P2 & L2 & F2).
      destruct (get_property_above n _ _ _ _ _ Eg Ha C2 Q2 Hpart) as [-> A3].
      cbn [forallb] in IH.
      destruct (IH _ _ _ _ _ E Ht Q2 L2 A3 C2) as (A4 & C4 & Q4 & P4 & L4 & F4).
      repeat split; auto; try congruence.
      intros i Hi. rewrite F4, F2 by exact Hi. reflexivity.
Qed.

(** an assignment along a knowledge path that names nothing inherited
    leaves [Object.prototype] and every object that exists as they are *)
Lemma below_assignToKnowledge fuel target operator context v :
  isKnowledge target = true -> tame_target target = true ->
  forall n0, below n0 (assignToKnowledge fuel target operator context v).
Proof.
  intros Hk Ht n0. unfold tame_target in Ht. rewrite Hk in Ht.
  cbn [negb orb] in Ht.
  pose proof (below_compositional n0) as H0.
  unfold assignToKnowledge.
  destruct (path target) as [ | root pathParts ]; [ comp H0 | ].
  cbn [tl] in Ht.
  destruct (String.eqb root "$"); [ | comp H0 ].
  intros st a st' E Hp Hn0.
  apply bind_Ok in E. destruct E as (newKnowledge & s1 & Ec & E).
  apply bind_Ok in E. destruct E as ([current finalProp] & s2 & En & E).
  unfold json_clone in Ec.
  apply bind_Ok in Ec. destruct Ec as (r & s0 & Es & Ep).
  apply stringify_readonly in Es. subst s0.
  destruct r as [ j | ]; [ | discriminate ].
  set (n := List.length (fresh (objects st))) in *.
  assert (Hc0 : closed n st).
  { intros i' o Hi' Hnth. apply nth_error_None in Hi'. congruence. }
  destruct (parse_closed j _ _ _ _ Ep (Nat.le_refl _) Hc0) as (A1 & C1 & L1).
  destruct (P_parse _ (below_compositional n) j _ _ _ Ep Hp (Nat.le_refl _))
    as (Q1 & P1 & _ & F1).
  destruct (navigate_closed _ _ _ _ _ _ _ En Ht Q1 L1 A1 C1)
    as (A2 & C2 & Q2 & P2 & L2 & F2).
  assert (Hset : forall x, below n (set_property current finalProp x)).
  { intros x. apply set_property_below. exact A2. }
  assert (Hrest : below n
      (resultValue <-
         match operator with
         | OpSet =>
             set_property current finalProp (number_if_numeric_string v) ;;;
             ret v
         | OpAdd =>
             cur <- get_property current finalProp ;;
             let currentAddValue := or_zero cur in
             numeric <- both_numeric fuel currentAddValue v ;;
             resultValue <-
               (if numeric then js_arith PrimFloat.add fuel currentAddValue v
                else js_add fuel currentAddValue v) ;;
             set_property current finalProp resultValue ;;;
             ret resultValue
         | OpSub =>
             cur <- get_property current finalProp ;;
             let currentSubValue := or_zero cur in
             numeric <- both_numeric fuel currentSubValue v ;;
             resultValue <-
               (if numeric then js_sub fuel currentSubValue v
                else throw_EvaluationError
                       "Subtraction is only valid for numeric values") ;;
             set_property current finalProp resultValue ;;;
             ret resultValue
         end ;;
       ret (mkResult resultValue newKnowledge))).
  { pose proof (below_compositional n) as Hb.
    pose proof (P_get_property _ Hb) as Hg.
    pose proof (P_both_numeric _ Hb) as Hbn.
    pose proof (P_js_arith _ Hb) as Har.
    pose proof (P_js_add _ Hb) as Hadd.
    unfold js_sub. comp Hb. }
  destruct (Hrest _ _ _ E Q2 L2) as (Q3 & P3 & L3 & F3).
  split; [ exact Q3 | ]. split; [ congruence | ]. split; [ lia | ].
  intros i Hi. rewrite F3, F2, F1 by lia. reflexivity.
Qed.

Lemma below_evaluate fuel node context :
  tame node = true -> tame_context context = true ->
  forall n, below n (evaluate fuel node context).
Proof.
  intros Ht Hc n.
  apply (P_evaluate _ (below_compositional n)); try assumption.
  intros f target operator ctx v Hk Htt. apply below_assignToKnowledge; auto.
Qed.



(** ** [Generator.execute] on grammars that name nothing inherited *)

Lemma below_createSeededRandom n seed :
  below n (Generator.createSeededRandom seed).
Proof.
  intros st a st' E Hp Hn. unfold Generator.createSeededRandom in E.
  inversion E. destruct seed; cbn; repeat split; auto.
Qed.

Lemma below_execute fuel ast k seed :
  tame_grammar ast = true ->
  forall n, below n (Generator.execute fuel ast k seed).
Proof.
  intros Ht n.
  pose proof (below_compositional n) as H.
  pose proof (below_createSeededRandom n seed) as Hs.
  pose proof (P_spread1 _ H) as H1.
  assert (Hg : forall context, below n (Grammar_evaluate fuel ast context)).
  { intros context. apply (P_Grammar_evaluate _ H); [ | exact Ht ].
    intros f target operator ctx v Hk Htt.
    apply below_assignToKnowledge; auto. }
  unfold Generator.execute, Generator.createExecutionContext. comp H.
Qed.



(** *** The same call in a larger heap *)

Lemma nth_error_app_Some {A} (l extra : list A) n x :
  nth_error l n = Some x -> nth_error (l ++ extra) n = Some x.
Proof.
  intros E. rewrite nth_error_app1; [ exact E | ].
  apply nth_error_Some. congruence.
Qed.

Lemma list_set_app {A} (l extra : list A) n x l' :
  list_set n x l = Some l' ->
  list_set n x (l ++ extra)%list = Some (l' ++ extra)%list.
Proof.
  revert n l'. induction l as [ | y r IH ]; intros n l'.
  - destruct n; discriminate.
  - destruct n as [ | m ]; cbn [list_set app].
    + intros E. inversion E. reflexivity.
    + destruct (list_set m x r) as [ r' | ] eqn:Er; [ | discriminate ].
      intros E. inversion E. rewrite (IH _ _ Er). reflexivity.
Qed.

Lemma heap_get_extend extra st l o :
  heap_get (objects st) l = Some o ->
  heap_get (objects (extend extra st)) l = Some o.
Proof.
  destruct l as [ n | n | ]; cbn; [ apply nth_error_app_Some | auto | auto ].
Qed.

Lemma heap_put_extend extra st l o h :
  heap_put (objects st) l o = Some h ->
  heap_put (objects (extend extra st)) l o
  = Some (mkHeap (pre h ++ extra) (fresh h) (prototype h)).
Proof.
  destruct l as [ n | n | ]; cbn.
  - destruct (list_set n o (pre (objects st))) as [ p | ] eqn:E;
      [ | discriminate ].
    intros E'. inversion E'. rewrite (list_set_app _ _ _ _ _ E). reflexivity.
  - destruct (list_set n o (fresh (objects st))) as [ p | ];
      [ | discriminate ].
    intros E'. inversion E'. reflexivity.
  - destruct o; [ | discriminate ].
    intros E'. inversion E'. reflexivity.
Qed.

Lemma mono_compositional : compositional (@mono).
Proof.
  constructor; unfold mono.
  - intros A a extra st b st' E. inversion E. reflexivity.
  - intros A B c k Hc Hk extra st b st' E.
    apply bind_Ok in E. destruct E as (a & st1 & E1 & E2).
    apply bind_Ok. exists a, (extend extra st1). split.
    + apply Hc. exact E1.
    + apply Hk. exact E2.
  - intros A c Hc extra st a st' E. destruct (Hc _ _ _ E).
  - intros A c h Hc extra st a st' E. apply rethrow_Ok in E.
    apply rethrow_Ok. apply Hc. exact E.
  - intros l extra st a st'. unfold get_object.
    destruct (heap_get (objects st) l) as [ o | ] eqn:E; [ | discriminate ].
    intros E'. inversion E'; subst. rewrite (heap_get_extend _ _ _ _ E).
    reflexivity.
  - intros extra st a st' E. inversion E. reflexivity.
  - intros o extra st a st'. unfold alloc, heap_alloc. intros E. inversion E.
    reflexivity.
  - intros e extra st a st'. unfold map_new. intros E. inversion E.
    reflexivity.
  - intros m extra st a st'. unfold map_entries. cbn.
    destruct (nth_error (maps st) m); intros E; inversion E. reflexivity.
  - intros m k v extra st a st'. unfold map_set. cbn.
    destruct (nth_error (maps st) m) as [ e | ]; [ | discriminate ].
    destruct (list_set m (alist_set k v e) (maps st)); intros E; inversion E.
    reflexivity.
  - intros extra st a st'. unfold random. cbn.
    destruct (entropy_next (source st)). intros E. inversion E. reflexivity.
Qed.

Lemma mono_put_object l o : mono (put_object l o).
Proof.
  intros extra st a st'. unfold put_object.
  destruct (heap_put (objects st) l o) as [ h | ] eqn:E; [ | discriminate ].
  intros E'. inversion E'; subst. rewrite (heap_put_extend _ _ _ _ _ E).
  reflexivity.
Qed.

Lemma mono_set_property v k x : mono (set_property v k x).
Proof.
  pose proof mono_compositional as H.
  pose proof mono_put_object as Hput.
  unfold set_property. comp H.
Qed.

Lemma mono_assignToKnowledge fuel target operator context v :
  mono (assignToKnowledge fuel target operator context v).
Proof.
  apply (P_assignToKnowledge _ mono_compositional). apply mono_set_property.
Qed.

Lemma mono_createSeededRandom seed : mono (Generator.createSeededRandom seed).
Proof.
  intros extra st a st' E. unfold Generator.createSeededRandom in *.
  inversion E. destruct seed; reflexivity.
Qed.

Lemma mono_execute fuel ast k seed :
  tame_grammar ast = true -> mono (Generator.execute fuel ast k seed).
Proof.
  intros Ht.
  pose proof mono_compositional as H.
  pose proof (mono_createSeededRandom seed) as Hs.
  pose proof (P_spread1 _ H) as H1.
  assert (Hg : forall context, mono (Grammar_evaluate fuel ast context)).
  { intros context. apply (P_Grammar_evaluate _ H); [ | exact Ht ].
    intros f target operator ctx v _ _. apply mono_assignToKnowledge. }
  unfold Generator.execute, Generator.createExecutionContext. comp H.
Qed.

(** with a seed, the state of [Math.random] plays no part *)
Lemma execute_seeded_source fuel ast k seed h m e e' :
  Generator.execute fuel ast k (Some seed) (mkStore h m e)
  = Generator.execute fuel ast k (Some seed) (mkStore h m e').
Proof.
  unfold Generator.execute, Generator.createExecutionContext,
    Generator.createSeededRandom, bind.
  destruct k as [ [ | | b | x | s ] | l ]; cbn; reflexivity.
Qed.



(** ** Missing steps of a knowledge path *)

Lemma get_property_own l props k x st :
  heap_get (objects st) l = Some (OObject props) ->
  alist_get k props = Some x ->
  get_property (VRef l) k st = Ok (x, st).
Proof.
  intros Hl Hk. unfold get_property, get_object, bind. rewrite Hl, Hk.
  reflexivity.
Qed.

Lemma has_property_missing l k st :
  heap_get (objects st) l = Some (OObject []) ->
  prototype (objects st) = [] ->
  inherited_name k = false ->
  has_property (VRef l) k st = Ok (false, st).
Proof.
  intros Hl Hp Hk. unfold inherited_name in Hk.
  apply orb_false_elim in Hk. destruct Hk as [ _ Hk ].
  unfold has_property, get_object, inherited_has, shared_entries, bind.
  rewrite Hl. change (alist_has k []) with false. cbv beta iota.
  unfold ret. rewrite Hp, Hk. reflexivity.
Qed.

(** storing the first property of an empty object of the call *)
Lemma set_property_empty c k x st :
  nth_error (fresh (objects st)) c = Some (OObject []) ->
  inherited_name k = false ->
  exists f,
    list_set c (OObject [(k, x)]) (fresh (objects st)) = Some f
    /\ set_property (VRef (New c)) k x st
       = Ok (tt, mkStore (mkHeap (pre (objects st)) f (prototype (objects st)))
                         (maps st) (source st)).
Proof.
  intros Hc Hk. apply inherited_name_proto in Hk.
  destruct (list_set_Some c (OObject [(k, x)]) _ _ Hc) as [ f Hf ].
  exists f. split; [ exact Hf | ].
  unfold set_property, get_object, shared_entries, put_object, bind.
  cbn [heap_get heap_put]. rewrite Hc, Hk. cbn [andb].
  unfold prop_set. cbn [prop_insert]. change (alist_has k []) with false.
  cbv iota. rewrite Hf. reflexivity.
Qed.

Lemma last_cons {A} (l : list A) : forall a d, last (a :: l) d = last l a.
Proof.
  induction l as [ | b r IH ]; intros a d; [ reflexivity | ].
  change (last (a :: b :: r) d) with (last (b :: r) d).
  rewrite (IH b d), (IH b a). reflexivity.
Qed.

(** From an empty object of the call, the walk along names that are not
    inherited creates an object for every step, the assignment stores
    under the last name, and the path then reads back what was stored;
    objects older than the one the walk starts from stay as they are. *)
Lemma navigate_creates x rest : forall part c st,
  nth_error (fresh (objects st)) c = Some (OObject []) ->
  prototype (objects st) = [] ->
  forallb (fun k => negb (inherited_name k)) (part :: rest) = true ->
  exists p st1 st2,
    navigate (part :: rest) (VRef (New c)) st
    = Ok ((VRef (New p), last rest part), st1)
    /\ set_property (VRef (New p)) (last rest part) x st1 = Ok (tt, st2)
    /\ read_path (part :: rest) (VRef (New c)) st2 = Ok (x, st2)
    /\ forall i, i < c ->
         nth_error (fresh (objects st2)) i = nth_error (fresh (objects st)) i.
Proof.
  induction rest as [ | next rest IH ]; intros part c st Hc Hp Ht;
    cbn [forallb] in Ht; apply andb_prop in Ht; destruct Ht as [ Hpart Ht ];
    apply negb_true_iff in Hpart.
  - destruct (set_property_empty c part x st Hc Hpart) as (f & Hf & Es).
    destruct (list_set_nth _ _ _ _ Hf) as [ Hlen Hnth ].
    eexists c, st, _. split; [ reflexivity | ].
    split; [ exact Es | ]. split.
    + cbn [read_path last]. erewrite bind_step; [ reflexivity | ].
      apply get_property_own with (props := [(part, x)]).
      * cbn. rewrite Hnth, Nat.eqb_refl. reflexivity.
      * cbn. rewrite String.eqb_refl. reflexivity.
    + intros i Hi. cbn. rewrite Hnth.
      destruct (Nat.eqb i c) eqn:Ei; [ | reflexivity ].
      apply Nat.eqb_eq in Ei. lia.
  - set (j := List.length (fresh (objects st))).
    set (sa := mkStore (mkHeap (pre (objects st))
                               (fresh (objects st) ++ [OObject []])
                               (prototype (objects st)))
                       (maps st) (source st)).
    assert (Hcj : c < j) by (apply nth_error_Some; congruence).
    assert (Hca : nth_error (fresh (objects sa)) c = Some (OObject [])).
    { cbn. rewrite nth_error_app1 by exact Hcj. exact Hc. }
    destruct (set_property_empty c part (VRef (New j)) sa Hca Hpart)
      as (f & Hf & Es).
    destruct (list_set_nth _ _ _ _ Hf) as [ Hlen Hnth ].
    set (sb := mkStore (mkHeap (pre (objects sa)) f (prototype (objects sa)))
                       (maps sa) (source sa)) in *.
    assert (Hjb : nth_error (fresh (objects sb)) j = Some (OObject [])).
    { cbn. rewrite Hnth.
      replace (Nat.eqb j c) with false
        by (symmetry; apply Nat.eqb_neq; lia).
      unfold sa. cbn [fresh objects].
      rewrite nth_error_app2 by (unfold j; lia).
      unfold j. rewrite Nat.sub_diag. reflexivity. }
    assert (Hcb : heap_get (objects sb) (New c)
                  = Some (OObject [(part, VRef (New j))])).
    { cbn. rewrite Hnth, Nat.eqb_refl. reflexivity. }
    destruct (IH next j sb Hjb Hp Ht) as (p & s1 & s2 & En & Eset & Er & Hfr).
    rewrite <- (last_cons rest next part) in En, Eset.
    exists p, s1, s2.
    assert (Ehas : has_property (VRef (New c)) part st = Ok (false, st))
      by (apply has_property_missing; assumption).
    assert (Eget : get_property (VRef (New c)) part sb
                   = Ok (VRef (New j), sb)).
    { apply get_property_own with (props := [(part, VRef (New j))]);
        [ exact Hcb | ].
      cbn. rewrite String.eqb_refl. reflexivity. }
    split; [ | split; [ exact Eset | split ] ].
    + rewrite navigate_step.
      rewrite (bind_step _ _ _ _ _ Ehas).
      assert (Ecreate :
                (o <- alloc (OObject []) ;; set_property (VRef (New c)) part o)
                  st = Ok (tt, sb)).
      { apply bind_Ok. exists (VRef (New j)), sa. split; [ reflexivity | ].
        exact Es. }
      rewrite (bind_step _ _ _ _ _ Ecreate).
      rewrite (bind_step _ _ _ _ _ Eget).
      exact En.
    + cbn [read_path].
      assert (Eget2 : get_property (VRef (New c)) part s2
                      = Ok (VRef (New j), s2)).
      { apply get_property_own with (props := [(part, VRef (New j))]).
        - cbn. rewrite (Hfr c Hcj). cbn. rewrite Hnth, Nat.eqb_refl.
          reflexivity.
        - cbn. rewrite String.eqb_refl. reflexivity. }
      rewrite (bind_step _ _ _ _ _ Eget2). exact Er.
    + intros i Hi. rewrite Hfr by lia. cbn. rewrite Hnth.
      replace (Nat.eqb i c) with false
        by (symmetry; apply Nat.eqb_neq; lia).
      unfold sa. cbn [fresh objects]. apply nth_error_app1. lia.
Qed.

(** X18.  Assigning with [=] to a knowledge path of any length whose
    segments are not names that objects inherit, against the knowledge
    [{}] and with [Object.prototype] as the engine made it, returns; the
    value of the assignment is the value assigned, and in the updated
    knowledge the path reads back what was stored (the value, as a number
    when it is a text that reads as one): every missing step has been
    created. *)
Theorem knowledge_path_created fuel part rest context l v st :
  0 < fuel ->
  forallb (fun k => negb (inherited_name k)) (part :: rest) = true ->
  prototype (objects st) = [] ->
  knowledge context = VRef l ->
  heap_get (objects st) l = Some (OObject []) ->
  exists res st',
    assignToKnowledge fuel (mkVariableReference ("$" :: part :: rest) true)
      OpSet context v st = Ok (res, st')
    /\ value res = v
    /\ read_path (part :: rest) (updatedKnowledge res) st'
       = Ok (number_if_numeric_string v, st').
Proof.
  intros Hfuel Ht Hp Hk Hl.
  destruct fuel as [ | f ]; [ lia | ].
  set (n := List.length (fresh (objects st))).
  set (s0 := mkStore (mkHeap (pre (objects st))
                             (fresh (objects st) ++ [OObject []])
                             (prototype (objects st)))
                     (maps st) (source st)).
  assert (Eclone : json_clone (S f) (knowledge context) st
                   = Ok (VRef (New n), s0)).
  { rewrite Hk. unfold json_clone. cbn [stringify existsb].
    unfold get_object, bind. rewrite Hl. reflexivity. }
  assert (Hn : nth_error (fresh (objects s0)) n = Some (OObject [])).
  { cbn. rewrite nth_error_app2 by (unfold n; lia).
    unfold n. rewrite Nat.sub_diag. reflexivity. }
  destruct (navigate_creates (number_if_numeric_string v) rest part n s0
              Hn Hp Ht) as (p & s1 & s2 & En & Es & Er & _).
  exists (mkResult v (VRef (New n))), s2.
  split; [ | split; [ reflexivity | exact Er ] ].
  unfold assignToKnowledge. cbn [path].
  change (String.eqb "$" "$") with true. cbv iota.
  rewrite (bind_step _ _ _ _ _ Eclone).
  rewrite (bind_step _ _ _ _ _ En). cbv beta iota.
  assert (Eop : (set_property (VRef (New p)) (last rest part)
                   (number_if_numeric_string v) ;;; ret v) s1 = Ok (v, s2)).
  { rewrite (bind_step _ _ _ _ _ Es). reflexivity. }
  rewrite (bind_step _ _ _ _ _ Eop). reflexivity.
Qed.

Lemma knowledge_path_created_witness :
  exists res st',
    assignToKnowledge 1
      (mkVariableReference ["$"; "player"; "stats"; "hp"] true)
      OpSet ctx0 (VStr "100") st0 = Ok (res, st')
    /\ value res = VStr "100"
    /\ read_path ["player"; "stats"; "hp"] (updatedKnowledge res) st'
       = Ok (VNum (JsNumber.of_Z 100), st').
Proof.
  exact (knowledge_path_created 1 "player" ["stats"; "hp"] ctx0 (Pre 0)
           (VStr "100") st0 (Nat.lt_0_succ 0) eq_refl eq_refl eq_refl
           eq_refl).
Defined.

(** ** Variable maps an evaluation leaves alone *)

Lemma keeps_ret b ok {A} (a : A) : keeps_maps b ok (ret a).
Proof. intros st x st' E Hb. inversion E; subst. auto. Qed.

Lemma keeps_bind b ok {A B} (c : M A) (k : A -> M B) :
  keeps_maps b ok c -> (forall a, keeps_maps b ok (k a)) ->
  keeps_maps b ok (bind c k).
Proof.
  intros Hc Hk st x st' E Hb.
  apply bind_Ok in E. destruct E as (a & st1 & E1 & E2).
  destruct (Hc _ _ _ E1 Hb) as [ L1 F1 ].
  destruct (Hk _ _ _ _ E2 L1) as [ L2 F2 ].
  split; [ exact L2 | ].
  intros j Hj Hok. rewrite F2, F1 by assumption. reflexivity.
Qed.

Lemma keeps_fail b ok {A} (c : M A) :
  (forall st a st', c st <> Ok (a, st')) -> keeps_maps b ok c.
Proof. intros Hc st a st' E. destruct (Hc _ _ _ E). Qed.

Lemma keeps_rethrow b ok {A} (c : M A) h :
  keeps_maps b ok c -> keeps_maps b ok (rethrow c h).
Proof. intros Hc st a st' E. apply rethrow_Ok in E. eapply Hc; eassumption. Qed.

Lemma keeps_weaken b (ok ok' : nat -> Prop) {A} (c : M A) :
  keeps_maps b ok c -> (forall j, ok j -> ok' j) -> keeps_maps b ok' c.
Proof.
  intros Hc Hw st a st' E Hb. destruct (Hc _ _ _ E Hb) as [ L F ].
  split; [ exact L | ]. intros j Hj Hok. apply F; auto.
Qed.

Lemma keeps_get_object b ok l : keeps_maps b ok (get_object l).
Proof.
  intros st a st'. unfold get_object.
  destruct (heap_get (objects st) l); intros E Hb; inversion E; subst. auto.
Qed.

Lemma keeps_shared_entries b ok : keeps_maps b ok shared_entries.
Proof. intros st a st' E Hb. inversion E; subst. auto. Qed.

Lemma keeps_alloc b ok o : keeps_maps b ok (alloc o).
Proof.
  intros st a st'. unfold alloc, heap_alloc. intros E Hb. inversion E; cbn.
  auto.
Qed.

Lemma keeps_put_object b ok l o : keeps_maps b ok (put_object l o).
Proof.
  intros st a st'. unfold put_object.
  destruct (heap_put (objects st) l o); intros E Hb; inversion E; cbn. auto.
Qed.

Lemma keeps_random b ok : keeps_maps b ok random.
Proof.
  intros st a st'. unfold random.
  destruct (entropy_next (source st)). intros E Hb. inversion E; cbn. auto.
Qed.

Lemma keeps_map_entries b ok m : keeps_maps b ok (map_entries m).
Proof.
  intros st a st'. unfold map_entries.
  destruct (nth_error (maps st) m); intros E Hb; inversion E; subst. auto.
Qed.

Lemma keeps_map_new b ok e : keeps_maps b ok (map_new e).
Proof.
  intros st a st'. unfold map_new. intros E Hb. inversion E; cbn.
  split; [ rewrite length_app; lia | ].
  intros j Hj _. rewrite nth_error_app1 by lia. reflexivity.
Qed.

Lemma keeps_map_set b (ok : nat -> Prop) m k v :
  ok m -> keeps_maps b ok (map_set m k v).
Proof.
  intros Hm st a st'. unfold map_set.
  destruct (nth_error (maps st) m) as [ e | ]; [ | discriminate ].
  destruct (list_set m (alist_set k v e) (maps st)) as [ ms | ] eqn:Es;
    intros E Hb; inversion E; cbn.
  destruct (list_set_nth _ _ _ _ Es) as [ Hlen Hnth ].
  split; [ unfold varmap in *; lia | ].
  intros j Hj Hok. rewrite Hnth.
  destruct (Nat.eqb j m) eqn:Ejm; [ | reflexivity ].
  apply Nat.eqb_eq in Ejm. subst j. tauto.
Qed.

(** a [Map] made by the computation itself lies above [b] *)
Lemma keeps_new_map b (ok : nat -> Prop) i {A} (k : nat -> M A) :
  (forall m, keeps_maps b (fun j => ok j \/ m = j) (k m)) ->
  keeps_maps b ok (bind (map_copy i) k).
Proof.
  intros Hk st a st' E Hb.
  apply bind_Ok in E. destruct E as (m & s1 & Em & E).
  unfold map_copy in Em.
  apply bind_Ok in Em. destruct Em as (e & s0 & Ee & En).
  unfold map_entries in Ee.
  destruct (nth_error (maps st) i); [ | discriminate ].
  inversion Ee; subst. unfold map_new in En. inversion En; subst.
  destruct (Hk _ _ _ _ E) as [ L F ].
  { cbn. rewrite length_app. lia. }
  split; [ exact L | ].
  intros j Hj Hok. rewrite F; [ | exact Hj | ].
  - cbn. rewrite nth_error_app1 by lia. reflexivity.
  - intros [ Ho | Hm ]; [ tauto | lia ].
Qed.

Create HintDb keeps.

Ltac keeps_step :=
  match goal with
  | |- keeps_maps _ _ (ret _) => apply keeps_ret
  | |- keeps_maps _ _ (bind _ _) => apply keeps_bind; [ | intros ]
  | |- keeps_maps _ _ (throw _ _) => apply keeps_fail; intros; discriminate
  | |- keeps_maps _ _ (throw_EvaluationError _) =>
      apply keeps_fail; intros; discriminate
  | |- keeps_maps _ _ (stuck _) => apply keeps_fail; intros; discriminate
  | |- keeps_maps _ _ (rethrow _ _) => apply keeps_rethrow
  | |- keeps_maps _ _ (get_object _) => apply keeps_get_object
  | |- keeps_maps _ _ shared_entries => apply keeps_shared_entries
  | |- keeps_maps _ _ (alloc _) => apply keeps_alloc
  | |- keeps_maps _ _ (put_object _ _) => apply keeps_put_object
  | |- keeps_maps _ _ (map_new _) => apply keeps_map_new
  | |- keeps_maps _ _ (map_entries _) => apply keeps_map_entries
  | |- keeps_maps _ _ (map_set _ _ _) =>
      apply keeps_map_set; solve [ auto ]
  | |- keeps_maps _ _ random => apply keeps_random
  | |- keeps_maps _ _ (match ?x with _ => _ end) => destruct x; cbv beta iota
  | |- keeps_maps _ _ _ => solve [ auto with keeps ]
  end.

Ltac keeps := repeat keeps_step.

Section KeepsMaps.

Variable b : nat.

Section Coercions.

Variable ok : nat -> Prop.

Lemma K_map_get m k : keeps_maps b ok (map_get m k).
Proof. unfold map_get. keeps. Qed.

Lemma K_map_has m k : keeps_maps b ok (map_has m k).
Proof. unfold map_has. keeps. Qed.

Lemma K_map_copy m : keeps_maps b ok (map_copy m).
Proof. unfold map_copy. keeps. Qed.

Lemma K_set_all dst entries : ok dst -> keeps_maps b ok (set_all dst entries).
Proof.
  intros Hd. induction entries as [ | [k v] r IH ]; cbn [set_all]; keeps.
Qed.

Lemma K_copy_entries src dst :
  ok dst -> keeps_maps b ok (copy_entries src dst).
Proof. intros Hd. unfold copy_entries. keeps. apply K_set_all. exact Hd. Qed.

Lemma K_mapM {A B} (f : A -> M B) l :
  (forall a, keeps_maps b ok (f a)) -> keeps_maps b ok (mapM f l).
Proof. intros Hf. induction l as [ | a r IH ]; cbn [mapM]; keeps. Qed.

Lemma K_to_string fuel v : keeps_maps b ok (to_string fuel v).
Proof.
  revert v. induction fuel as [ | f IH ]; intros v; destruct v as [p | l];
    cbn [to_string]; keeps.
  apply K_mapM. intros e. keeps.
Qed.

Local Hint Resolve K_map_get K_map_has K_map_copy K_to_string : keeps.

Lemma K_to_primitive fuel v : keeps_maps b ok (to_primitive fuel v).
Proof. unfold to_primitive. keeps. Qed.
Local Hint Resolve K_to_primitive : keeps.

Lemma K_to_number fuel v : keeps_maps b ok (to_number fuel v).
Proof. unfold to_number. keeps. Qed.
Local Hint Resolve K_to_number : keeps.

Lemma K_numeric_looking fuel v : keeps_maps b ok (numeric_looking fuel v).
Proof. unfold numeric_looking. keeps. Qed.

Lemma K_js_add fuel x y : keeps_maps b ok (js_add fuel x y).
Proof. unfold js_add. keeps. Qed.

Lemma K_js_arith op fuel x y : keeps_maps b ok (js_arith op fuel x y).
Proof. unfold js_arith. keeps. Qed.

Lemma K_js_loose_eq fuel x y : keeps_maps b ok (js_loose_eq fuel x y).
Proof. unfold js_loose_eq. keeps. Qed.

Lemma K_js_lt fuel x y : keeps_maps b ok (js_lt fuel x y).
Proof. unfold js_lt. keeps. Qed.

Lemma K_js_gt fuel x y : keeps_maps b ok (js_gt fuel x y).
Proof. unfold js_gt. keeps. Qed.

Lemma K_js_le fuel x y : keeps_maps b ok (js_le fuel x y).
Proof. unfold js_le. keeps. Qed.

Lemma K_js_ge fuel x y : keeps_maps b ok (js_ge fuel x y).
Proof. unfold js_ge. keeps. Qed.

Local Hint Resolve K_numeric_looking K_js_add K_js_arith K_js_loose_eq
  K_js_lt K_js_gt K_js_le K_js_ge : keeps.

Lemma K_absent {A} k inherited (d : A) : keeps_maps b ok (absent k inherited d).
Proof. unfold absent. keeps. Qed.
Local Hint Resolve K_absent : keeps.

Lemma K_inherited_has k methods : keeps_maps b ok (inherited_has k methods).
Proof. unfold inherited_has. keeps. Qed.

Lemma K_inherited_get k methods proto :
  keeps_maps b ok (inherited_get k methods proto).
Proof. unfold inherited_get. keeps. Qed.
Local Hint Resolve K_inherited_has K_inherited_get : keeps.

Lemma K_has_property v k : keeps_maps b ok (has_property v k).
Proof. unfold has_property. keeps. Qed.

Lemma K_get_property v k : keeps_maps b ok (get_property v k).
Proof. unfold get_property. keeps. Qed.

Lemma K_set_property v k x : keeps_maps b ok (set_property v k x).
Proof. unfold set_property. keeps. Qed.

Lemma K_object_keys v : keeps_maps b ok (object_keys v).
Proof. unfold object_keys. keeps. Qed.

Lemma K_is_array v : keeps_maps b ok (is_array v).
Proof. unfold is_array. keeps. Qed.

Lemma K_spread_entries v : keeps_maps b ok (spread_entries v).
Proof. unfold spread_entries. keeps. Qed.
Local Hint Resolve K_has_property K_get_property K_set_property K_object_keys
  K_is_array K_spread_entries : keeps.

Lemma K_spread2 x y : keeps_maps b ok (spread2 x y).
Proof. unfold spread2. keeps. Qed.

Lemma K_stringify fuel : forall stack v, keeps_maps b ok (stringify fuel stack v).
Proof.
  induction fuel as [ | f IH ]; intros stack v; destruct v as [p | l];
    cbn [stringify]; keeps; apply K_mapM; intros e; keeps.
Qed.

Lemma K_parse j : keeps_maps b ok (parse j).
Proof.
  induction j as [ | x | x | s | items IH | members IH ] using json_induction;
    cbn [parse]; keeps.
  - induction IH as [ | j r Hj Hr IHr ]; cbn [mapM]; keeps.
  - induction IH as [ | [k j] r Hj Hr IHr ]; cbn [mapM]; keeps.
Qed.
Local Hint Resolve K_spread2 K_stringify K_parse : keeps.

Lemma K_json_clone fuel v : keeps_maps b ok (json_clone fuel v).
Proof. unfold json_clone. keeps. Qed.
Local Hint Resolve K_json_clone : keeps.

Lemma K_navigate pathParts : forall current,
  keeps_maps b ok (navigate pathParts current).
Proof.
  induction pathParts as [ | part rest IH ]; intros current;
    cbn [navigate]; keeps.
Qed.

Lemma K_both_numeric fuel x y : keeps_maps b ok (both_numeric fuel x y).
Proof. unfold both_numeric. keeps. Qed.
Local Hint Resolve K_navigate K_both_numeric : keeps.

Lemma K_assignToKnowledge fuel target operator context v :
  keeps_maps b ok (assignToKnowledge fuel target operator context v).
Proof. unfold assignToKnowledge, js_sub. keeps. Qed.

End Coercions.

#[local] Hint Resolve K_map_get K_map_has K_map_copy K_to_string
  K_to_primitive K_to_number K_numeric_looking K_js_add K_js_arith
  K_js_loose_eq K_js_lt K_js_gt K_js_le K_js_ge K_has_property K_get_property
  K_object_keys K_is_array K_spread2 K_assignToKnowledge : keeps.

Section Evaluator.

Variable fuel : nat.
Variable ev : ASTNode -> ExecutionContext -> M EvaluationResult.
Hypothesis Hev :
  forall node context,
    keeps_maps b (eq (variables context)) (ev node context).

(** a sub-expression runs on the [Map] of its context *)
Lemma K_ev (ok : nat -> Prop) node context :
  ok (variables context) -> keeps_maps b ok (ev node context).
Proof.
  intros Hok. eapply keeps_weaken; [ apply Hev | ].
  intros j <-. exact Hok.
Qed.

Ltac sub := apply K_ev; cbn [variables]; solve [ auto ].

Lemma K_Alternative_loop elems : forall context vars result k needsSpace,
  keeps_maps b (eq vars)
    (Alternative_loop fuel ev elems context vars result k needsSpace).
Proof.
  induction elems as [ | e rest IH ]; intros; cbn [Alternative_loop]; keeps.
  - sub.
  - apply K_copy_entries. reflexivity.
Qed.

Lemma K_Alternative_evaluate ok alt context :
  keeps_maps b ok (Alternative_evaluate fuel ev alt context).
Proof.
  unfold Alternative_evaluate. apply keeps_new_map. intros m.
  eapply keeps_weaken; [ apply K_Alternative_loop | ]. auto.
Qed.
Local Hint Resolve K_Alternative_evaluate : keeps.

Lemma K_evaluate_selected (ok : nat -> Prop) alt context :
  ok (variables context) ->
  keeps_maps b ok (evaluate_selected fuel ev alt context).
Proof.
  intros Hok. unfold evaluate_selected. keeps.
  apply K_copy_entries. exact Hok.
Qed.

Lemma K_select_loop (ok : nat -> Prop) alts : forall fallback r w context,
  ok (variables context) ->
  keeps_maps b ok (select_loop fuel ev alts fallback r w context).
Proof.
  induction alts as [ | a rest IH ]; intros; cbn [select_loop]; keeps;
    auto using K_evaluate_selected.
Qed.

Lemma K_Rule_evaluate (ok : nat -> Prop) rule context :
  ok (variables context) ->
  keeps_maps b ok (Rule_evaluate fuel ev rule context).
Proof.
  intros Hok. unfold Rule_evaluate, selectWeightedAlternative. keeps.
  all: apply K_select_loop; exact Hok.
Qed.

Section Node.

Variable ok : nat -> Prop.
Variable context : ExecutionContext.
Hypothesis Hok : ok (variables context).

Lemma K_object_with key item : keeps_maps b ok (object_with key item).
Proof. unfold object_with. keeps. Qed.
Local Hint Resolve K_object_with : keeps.

Lemma K_item_weight item : keeps_maps b ok (item_weight item).
Proof. unfold item_weight. keeps. Qed.

Lemma K_item_value item : keeps_maps b ok (item_value item).
Proof. unfold item_value. keeps. Qed.
Local Hint Resolve K_item_weight K_item_value : keeps.

Lemma K_some_weighted array : keeps_maps b ok (some_weighted array).
Proof. induction array as [ | i r IH ]; cbn [some_weighted]; keeps. Qed.

Lemma K_sum_weights array : forall sum,
  keeps_maps b ok (sum_weights fuel array sum).
Proof.
  induction array as [ | i r IH ]; intros; cbn [sum_weights]; keeps.
Qed.

Lemma K_weighted_walk array : forall r w,
  keeps_maps b ok (weighted_walk fuel array r w).
Proof.
  induction array as [ | i r IH ]; intros; cbn [weighted_walk]; keeps.
Qed.

Lemma K_simple_selection array c :
  keeps_maps b ok (simple_selection array c).
Proof. unfold simple_selection. keeps. Qed.
Local Hint Resolve K_some_weighted K_sum_weights K_weighted_walk
  K_simple_selection : keeps.

Lemma K_selectFromArray array c :
  keeps_maps b ok (selectFromArray fuel array c).
Proof. unfold selectFromArray, js_mul. keeps. Qed.
Local Hint Resolve K_selectFromArray : keeps.

Lemma K_walk_knowledge parts : forall current resolved,
  keeps_maps b ok (walk_knowledge parts current resolved).
Proof.
  induction parts as [ | p r IH ]; intros; cbn [walk_knowledge]; keeps.
Qed.

Lemma K_walk_variable parts : forall v,
  keeps_maps b ok (walk_variable parts v).
Proof.
  induction parts as [ | p r IH ]; intros; cbn [walk_variable]; keeps.
Qed.
Local Hint Resolve K_walk_knowledge K_walk_variable : keeps.

Lemma K_VariableReference_evaluate r :
  keeps_maps b ok (VariableReference_evaluate fuel ev r context).
Proof.
  unfold VariableReference_evaluate, evaluateKnowledgePath, evaluateVariable.
  keeps. all: apply K_Rule_evaluate; exact Hok.
Qed.

Lemma K_RuleReference_evaluate ruleName :
  keeps_maps b ok (RuleReference_evaluate fuel ev ruleName context).
Proof.
  unfold RuleReference_evaluate. keeps.
  all: apply K_Rule_evaluate; exact Hok.
Qed.

Lemma K_assignToVariable target operator k v :
  keeps_maps b ok
    (assignToVariable fuel target operator
       (mkContext k (variables context) (grammar context)) v).
Proof. unfold assignToVariable, js_sub. cbn [variables]. keeps. Qed.
Local Hint Resolve K_assignToVariable : keeps.

Lemma K_Assignment_evaluate target operator expression :
  keeps_maps b ok
    (Assignment_evaluate fuel ev target operator expression context).
Proof. unfold Assignment_evaluate. keeps. sub. Qed.

Lemma K_applyOperator operator l r :
  keeps_maps b ok (applyOperator fuel operator l r).
Proof.
  unfold applyOperator, bool_result, js_sub, js_mul, js_div. keeps.
Qed.
Local Hint Resolve K_applyOperator : keeps.

Lemma K_BinaryExpression_evaluate l operator r :
  keeps_maps b ok (BinaryExpression_evaluate fuel ev l operator r context).
Proof.
  unfold BinaryExpression_evaluate, numeric_operand. keeps; sub.
Qed.

Lemma K_join_branch_values results : forall acc,
  keeps_maps b ok (join_branch_values fuel results acc).
Proof.
  induction results as [ | r rest IH ]; intros;
    cbn [join_branch_values]; unfold join_branch_value; keeps.
Qed.

Lemma K_merge_knowledge results : forall acc,
  keeps_maps b ok (merge_knowledge results acc).
Proof.
  induction results as [ | r rest IH ]; intros; cbn [merge_knowledge]; keeps.
Qed.
Local Hint Resolve K_join_branch_values K_merge_knowledge : keeps.

Lemma K_evaluateBranch branch k :
  keeps_maps b ok
    (evaluateBranch fuel ev branch
       (mkContext k (variables context) (grammar context))).
Proof.
  unfold evaluateBranch. keeps; try sub.
  apply K_mapM. intros e. sub.
Qed.
Local Hint Resolve K_evaluateBranch : keeps.

Lemma K_ConditionalExpression_evaluate c t f :
  keeps_maps b ok (ConditionalExpression_evaluate fuel ev c t f context).
Proof. unfold ConditionalExpression_evaluate. keeps. sub. Qed.

Lemma K_SilentExpression_evaluate e :
  keeps_maps b ok (SilentExpression_evaluate ev e context).
Proof. unfold SilentExpression_evaluate. keeps. sub. Qed.

End Node.

Lemma K_set_both (ok : nat -> Prop) working parent entries :
  ok working -> ok parent ->
  keeps_maps b ok (set_both working parent entries).
Proof.
  intros Hw Hp.
  induction entries as [ | [k v] r IH ]; cbn [set_both]; keeps.
Qed.

Lemma K_Compound_loop (ok : nat -> Prop) exprs :
  forall context vars k lastValue,
    ok (variables context) -> ok vars ->
    keeps_maps b ok (Compound_loop ev exprs context vars k lastValue).
Proof.
  induction exprs as [ | e rest IH ]; intros context vars k lastValue Hc Hv;
    cbn [Compound_loop]; keeps.
  - sub.
  - apply K_set_both; assumption.
Qed.

Lemma K_CompoundExpression_evaluate (ok : nat -> Prop) exprs context :
  ok (variables context) ->
  keeps_maps b ok (CompoundExpression_evaluate ev exprs context).
Proof.
  intros Hok. unfold CompoundExpression_evaluate. apply keeps_new_map.
  intros m. apply K_Compound_loop; auto.
Qed.

Lemma K_evaluate_node node context :
  keeps_maps b (eq (variables context)) (evaluate_node fuel ev node context).
Proof.
  destruct node; cbn [evaluate_node].
  - unfold Literal_evaluate. keeps.
  - apply K_VariableReference_evaluate. reflexivity.
  - apply K_RuleReference_evaluate. reflexivity.
  - apply K_Assignment_evaluate. reflexivity.
  - apply K_BinaryExpression_evaluate. reflexivity.
  - apply K_ConditionalExpression_evaluate. reflexivity.
  - apply K_SilentExpression_evaluate. reflexivity.
  - apply K_CompoundExpression_evaluate. reflexivity.
Qed.

End Evaluator.

Lemma K_evaluate fuel : forall node context,
  keeps_maps b (eq (variables context)) (evaluate fuel node context).
Proof.
  induction fuel as [ | f IH ]; intros node context; cbn [evaluate].
  - keeps.
  - apply K_evaluate_node. exact IH.
Qed.

End KeepsMaps.

(** ** What a rule does to the variables of its caller *)

Lemma alist_set_same {A} k (v : A) l :
  alist_get k l = Some v -> alist_set k v l = l.
Proof.
  induction l as [ | [k' v'] r IH ]; cbn [alist_get alist_set];
    [ discriminate | ].
  destruct (String.eqb k k') eqn:E.
  - intros H. inversion H; subst. apply String.eqb_eq in E. subst. reflexivity.
  - intros H. rewrite (IH H). reflexivity.
Qed.

Lemma list_set_same {A} n (x : A) l :
  nth_error l n = Some x -> list_set n x l = Some l.
Proof.
  revert n. induction l as [ | y r IH ]; intros [ | m ] E; cbn in *;
    try discriminate.
  - inversion E. reflexivity.
  - rewrite (IH _ E). reflexivity.
Qed.

Lemma unique_keys_get k v (e : varmap) :
  unique_keys e -> In (k, v) e -> alist_get k e = Some v.
Proof.
  unfold unique_keys.
  induction e as [ | [k' v'] r IH ]; cbn [map fst alist_get]; intros Hu Hin;
    [ destruct Hin | ].
  inversion Hu as [ | x l Hnot Hr ]; subst.
  destruct Hin as [ H | H ].
  - inversion H; subst. rewrite String.eqb_refl. reflexivity.
  - destruct (String.eqb k k') eqn:E.
    + apply String.eqb_eq in E. subst k'. exfalso. apply Hnot.
      change k with (fst (k, v)). apply in_map. exact H.
    + apply IH; assumption.
Qed.

(** writing back entries a [Map] already holds changes nothing *)
Lemma set_all_self i entries : forall st e,
  nth_error (maps st) i = Some e ->
  (forall k v, In (k, v) entries -> alist_get k e = Some v) ->
  set_all i entries st = Ok (tt, st).
Proof.
  induction entries as [ | [k v] r IH ]; intros st e Hi Hall; cbn [set_all].
  - reflexivity.
  - assert (Hs : map_set i k v st = Ok (tt, st)).
    { unfold map_set. unfold varmap in *. rewrite Hi.
      rewrite (alist_set_same k v e) by (apply Hall; left; reflexivity).
      rewrite (list_set_same _ _ _ Hi). destruct st; reflexivity. }
    rewrite (bind_step _ _ _ _ _ Hs). eapply IH; [ exact Hi | ].
    intros k' v' Hin. apply Hall. right. exact Hin.
Qed.

Lemma evaluate_selected_unchanged fuel alt context st r st' e :
  evaluate_selected fuel (evaluate fuel) alt context st = Ok (r, st') ->
  nth_error (maps st) (variables context) = Some e ->
  unique_keys e ->
  forall j, j < List.length (maps st) ->
    nth_error (maps st') j = nth_error (maps st) j.
Proof.
  intros E Hi Hu j Hj. unfold evaluate_selected in E.
  apply bind_Ok in E. destruct E as (a & s1 & Ec & E).
  apply bind_Ok in E. destruct E as (res & s2 & Ea & E).
  apply bind_Ok in E. destruct E as ([] & s3 & Eb & E).
  apply ret_Ok in E. destruct E as [_ ->].
  unfold map_copy, map_entries, map_new, bind in Ec. rewrite Hi in Ec.
  inversion Ec; subst a s1; clear Ec.
  set (s1 := mkStore (objects st) (maps st ++ [e]) (source st)) in *.
  destruct (K_Alternative_evaluate (List.length (maps s1)) fuel (evaluate fuel)
              (K_evaluate _ fuel) (fun _ => False) alt _ _ _ _ Ea
              (Nat.le_refl _)) as [ L2 F2 ].
  assert (Hlen : List.length (maps s1) = S (List.length (maps st))).
  { unfold s1. cbn. rewrite length_app. cbn. lia. }
  assert (Ha : nth_error (maps s2) (List.length (maps st)) = Some e).
  { rewrite F2 by (try tauto; lia). unfold s1. cbn.
    rewrite nth_error_app2 by lia. rewrite Nat.sub_diag. reflexivity. }
  assert (Hi2 : nth_error (maps s2) (variables context) = Some e).
  { assert (variables context < List.length (maps st))
      by (apply nth_error_Some; congruence).
    rewrite F2 by (try tauto; lia). unfold s1. cbn.
    rewrite nth_error_app1 by lia. exact Hi. }
  unfold copy_entries, map_entries, bind in Eb. rewrite Ha in Eb.
  rewrite (set_all_self _ e s2 e Hi2) in Eb
    by (intros k v Hin; apply unique_keys_get; assumption).
  inversion Eb; subst s3.
  rewrite F2 by (try tauto; lia). unfold s1. cbn.
  rewrite nth_error_app1 by lia. reflexivity.
Qed.

Lemma select_loop_unchanged fuel alts :
  forall fallback random w context st r st' e,
    select_loop fuel (evaluate fuel) alts fallback random w context st
    = Ok (r, st') ->
    nth_error (maps st) (variables context) = Some e ->
    unique_keys e ->
    forall j, j < List.length (maps st) ->
      nth_error (maps st') j = nth_error (maps st) j.
Proof.
  induction alts as [ | a rest IH ];
    intros fallback random w context st r st' e E; cbn [select_loop] in E.
  - eapply evaluate_selected_unchanged. exact E.
  - destruct (PrimFloat.leb random (PrimFloat.add w (weight a))).
    + eapply evaluate_selected_unchanged. exact E.
    + eapply IH. exact E.
Qed.

(** X3.  [Rule.evaluate] leaves every variable [Map] that exists when it
    is called with the entries it had, the [Map] of the calling context
    included: bindings made while the rule is evaluated stay in copies, and
    what [selectWeightedAlternative] copies back are the entries the
    caller's [Map] already holds. *)
Theorem Rule_evaluate_keeps_variable_maps fuel rule context st r st' e :
  Rule_evaluate fuel (evaluate fuel) rule context st = Ok (r, st') ->
  nth_error (maps st) (variables context) = Some e ->
  unique_keys e ->
  forall j, j < List.length (maps st) ->
    nth_error (maps st') j = nth_error (maps st) j.
Proof.
  unfold Rule_evaluate. intros E Hi Hu j Hj.
  destruct (alternatives rule) as [ | a [ | a' rest ] ].
  - discriminate.
  - destruct (K_Alternative_evaluate (List.length (maps st)) fuel
                (evaluate fuel) (K_evaluate _ fuel) (fun _ => False)
                a _ _ _ _ E (Nat.le_refl _)) as [ _ F ].
    apply F; [ exact Hj | tauto ].
  - unfold selectWeightedAlternative in E.
    apply bind_Ok in E. destruct E as (x & s1 & Er & E).
    unfold random in Er. destruct (entropy_next (source st)) as [ y src ].
    inversion Er; subst x s1; clear Er.
    exact (select_loop_unchanged _ _ _ _ _ _ _ _ _ e E Hi Hu j Hj).
Qed.

Lemma Rule_evaluate_keeps_variable_maps_witness :
  exists r st',
    Rule_evaluate 5 (evaluate 5) binding_rule ctx0 st_x = Ok (r, st')
    /\ nth_error (maps st') 0 = Some [("x", VStr "1")].
Proof.
  destruct (Rule_evaluate 5 (evaluate 5) binding_rule ctx0 st_x)
    as [ [r st'] | err | w ] eqn:E.
  - exists r, st'. split; [ reflexivity | ].
    refine (Rule_evaluate_keeps_variable_maps 5 binding_rule ctx0 st_x r st'
              [("x", VStr "1")] E eq_refl _ 0 _).
    + repeat constructor. cbn. tauto.
    + cbn. lia.
  - vm_compute in E. discriminate.
  - vm_compute in E. discriminate.
Defined.

(** ** Reading back what an assignment stored *)

Lemma alist_get_set_same {A} k (v : A) l :
  alist_get k (alist_set k v l) = Some v.
Proof.
  induction l as [ | [k' v'] r IH ]; cbn [alist_set alist_get].
  - rewrite String.eqb_refl. reflexivity.
  - destruct (String.eqb k k') eqn:E; cbn [alist_get].
    + rewrite String.eqb_refl. reflexivity.
    + rewrite E. exact IH.
Qed.

Lemma map_set_get m k v st st' :
  map_set m k v st = Ok (tt, st') ->
  map_has m k st' = Ok (true, st') /\ map_get m k st' = Ok (v, st').
Proof.
  unfold map_set.
  destruct (nth_error (maps st) m) as [ e | ] eqn:Em; [ | discriminate ].
  destruct (list_set m (alist_set k v e) (maps st)) as [ ms | ] eqn:Es;
    [ | discriminate ].
  intros E. inversion E; subst.
  destruct (list_set_nth _ _ _ _ Es) as [ _ Hnth ].
  unfold map_has, map_get, map_entries, bind. cbn [maps].
  rewrite Hnth, Nat.eqb_refl. unfold alist_has.
  rewrite alist_get_set_same. split; reflexivity.
Qed.

(** X4.  After [$x = e] the variable reads back what was assigned, through
    a variable reference and through a rule reference alike, in any context
    on the same [Map]: the value of the expression, as a number when it is
    a text that reads as one.  A rule of the same name is not consulted. *)
Theorem variable_assignment_read_back fuel ev x expression context st res st' :
  Assignment_evaluate fuel ev (mkVariableReference [x] false) OpSet
    expression context st = Ok (res, st') ->
  forall ev' k g,
    VariableReference_evaluate fuel ev' (mkVariableReference [x] false)
      (mkContext k (variables context) g) st'
    = Ok (mkResult (number_if_numeric_text (value res)) k, st')
    /\ RuleReference_evaluate fuel ev' x
         (mkContext k (variables context) g) st'
       = Ok (mkResult (number_if_numeric_text (value res)) k, st').
Proof.
  unfold Assignment_evaluate. cbn [isKnowledge]. intros E ev' k g.
  apply bind_Ok in E. destruct E as (er & s1 & _ & E).
  unfold assignToVariable in E. cbn [path variables knowledge] in E.
  apply bind_Ok in E. destruct E as (v & s2 & Ev & E).
  apply ret_Ok in E. destruct E as [-> ->].
  apply bind_Ok in Ev. destruct Ev as ([] & s3 & Es & Ev).
  apply ret_Ok in Ev. destruct Ev as [-> ->]. cbn [value].
  destruct (map_set_get _ _ _ _ _ Es) as [ Hh Hg ].
  split.
  - unfold VariableReference_evaluate, rethrow. cbn [isKnowledge].
    unfold evaluateVariable. cbn [path variables].
    rewrite (bind_step _ _ _ _ _ Hh). rewrite (bind_step _ _ _ _ _ Hg).
    reflexivity.
  - unfold RuleReference_evaluate. cbn [variables].
    rewrite (bind_step _ _ _ _ _ Hh). rewrite (bind_step _ _ _ _ _ Hg).
    reflexivity.
Qed.

Lemma variable_assignment_read_back_witness :
  exists st',
    Assignment_evaluate 5 (evaluate 5) x_ref OpSet (Literal (PStr "5"))
      ctx0 st0 = Ok (mkResult (VStr "5") K0, st')
    /\ VariableReference_evaluate 5 (evaluate 5) x_ref ctx0 st'
       = Ok (mkResult (VNum (JsNumber.of_Z 5)) K0, st').
Proof.
  eexists. split; [ vm_compute; reflexivity | ].
  refine (proj1 (variable_assignment_read_back 5 (evaluate 5) "x"
                   (Literal (PStr "5")) ctx0 st0 (mkResult (VStr "5") K0) _ _
                   (evaluate 5) K0 None)).
  vm_compute. reflexivity.
Defined.

Lemma alist_get_prop_set k x l : alist_get k (prop_set k x l) = Some x.
Proof.
  unfold prop_set. destruct (alist_has k l) eqn:E.
  - apply alist_get_set_same.
  - apply alist_get_insert_new. exact E.
Qed.

(** [v[k] = x; k in v; v[k]] *)
Lemma set_property_get v k x st st' :
  String.eqb k "__proto__" = false ->
  set_property v k x st = Ok (tt, st') ->
  has_property v k st' = Ok (true, st') /\ get_property v k st' = Ok (x, st').
Proof.
  intros Hk. destruct v as [ p | l ].
  - unfold set_property, shared_entries, bind. rewrite Hk.
    destruct p; discriminate.
  - unfold set_property, get_object, shared_entries, bind.
    destruct (heap_get (objects st) l) as [ o | ] eqn:El; [ | discriminate ].
    destruct o as [ props | elems ]; [ | discriminate ].
    rewrite Hk. cbn [andb]. unfold put_object.
    destruct (heap_put_get _ _ (prop_set k x props) _ El)
      as (h' & Hput & Hget & _).
    rewrite Hput. intros E. inversion E; subst.
    unfold has_property, get_property, get_object, bind. cbn [objects].
    rewrite Hget. unfold alist_has. rewrite alist_get_prop_set.
    split; reflexivity.
Qed.

Lemma knowledge_read fuel ev p k q i g st :
  has_property k p st = Ok (true, st) ->
  get_property k p st = Ok (VPrim q, st) ->
  VariableReference_evaluate fuel ev (mkVariableReference ["$"; p] true)
    (mkContext k i g) st
  = Ok (mkResult (VPrim q) k, st).
Proof.
  intros Hh Hg.
  destruct k as [ pk | l ]; [ destruct pk; discriminate | ].
  unfold VariableReference_evaluate, rethrow. cbn [isKnowledge].
  unfold evaluateKnowledgePath. cbn [path knowledge].
  change (String.eqb "$" "$") with true. cbv iota.
  assert (Hw : walk_knowledge [p] (VRef l) ["$$"] st = Ok (VPrim q, st)).
  { cbn [walk_knowledge]. unfold object_with.
    rewrite (bind_step _ _ _ _ _ Hh). rewrite (bind_step _ _ _ _ _ Hg).
    reflexivity. }
  rewrite (bind_step _ _ _ _ _ Hw). reflexivity.
Qed.

Lemma number_if_numeric_string_prim q :
  exists q', number_if_numeric_string (VPrim q) = VPrim q'.
Proof.
  destruct q; cbn; try (eexists; reflexivity).
  destruct (negb (JsNumber.isNaN (JsNumber.of_string s))); eexists; reflexivity.
Qed.

(** X5.  After an assignment to a top-level property [p] of a knowledge
    object, [p] another name than [__proto__], [$$.p] evaluated against
    the updated knowledge reads back what was stored: for [=] the assigned
    value, as a number when it is a text that reads as one, and for [+=]
    and [-=] the result of the assignment. *)
Theorem knowledge_assignment_read_back
  fuel p operator context l props q st res st' :
  String.eqb p "__proto__" = false ->
  knowledge context = VRef l ->
  heap_get (objects st) l = Some (OObject props) ->
  assignToKnowledge fuel (mkVariableReference ["$"; p] true) operator context
    (VPrim q) st = Ok (res, st') ->
  forall ev i g,
    VariableReference_evaluate fuel ev (mkVariableReference ["$"; p] true)
      (mkContext (updatedKnowledge res) i g) st'
    = Ok (mkResult
            match operator with
            | OpSet => number_if_numeric_string (VPrim q)
            | _ => value res
            end
            (updatedKnowledge res), st').
Proof.
  intros Hp _ _. unfold assignToKnowledge. cbn [path navigate].
  change (String.eqb "$" "$") with true. cbv iota.
  intros E ev i g.
  apply bind_Ok in E. destruct E as (newKnowledge & s1 & _ & E).
  rewrite bind_ret_Ok in E.
  apply bind_Ok in E. destruct E as (resultValue & s2 & Eop & E).
  apply ret_Ok in E. destruct E as [-> ->]. cbn [value updatedKnowledge].
  destruct operator.
  - apply bind_Ok in Eop. destruct Eop as ([] & s3 & Es & Eop).
    apply ret_Ok in Eop. destruct Eop as [-> ->].
    destruct (set_property_get _ _ _ _ _ Hp Es) as [ Hh Hg ].
    destruct (number_if_numeric_string_prim q) as [ q' Hq ].
    rewrite Hq in *. apply knowledge_read; assumption.
  - apply bind_Ok in Eop. destruct Eop as (cur & s3 & _ & Eop).
    apply bind_Ok in Eop. destruct Eop as (numeric & s4 & _ & Eop).
    apply bind_Ok in Eop. destruct Eop as (rv & s5 & Ev & Eop).
    apply bind_Ok in Eop. destruct Eop as ([] & s6 & Es & Eop).
    apply ret_Ok in Eop. destruct Eop as [-> ->].
    destruct (set_property_get _ _ _ _ _ Hp Es) as [ Hh Hg ].
    assert (Hv : exists q', rv = VPrim q').
    { destruct numeric; unfold js_arith, js_add in Ev;
        apply bind_Ok in Ev; destruct Ev as (a & t1 & _ & Ev);
        apply bind_Ok in Ev; destruct Ev as (c & t2 & _ & Ev);
        apply ret_Ok in Ev; destruct Ev as [-> _]; eexists; reflexivity. }
    destruct Hv as [ q' -> ]. apply knowledge_read; assumption.
  - apply bind_Ok in Eop. destruct Eop as (cur & s3 & _ & Eop).
    apply bind_Ok in Eop. destruct Eop as (numeric & s4 & _ & Eop).
    apply bind_Ok in Eop. destruct Eop as (rv & s5 & Ev & Eop).
    apply bind_Ok in Eop. destruct Eop as ([] & s6 & Es & Eop).
    apply ret_Ok in Eop. destruct Eop as [-> ->].
    destruct (set_property_get _ _ _ _ _ Hp Es) as [ Hh Hg ].
    assert (Hv : exists q', rv = VPrim q').
    { destruct numeric; [ | discriminate ]. unfold js_sub, js_arith in Ev.
      apply bind_Ok in Ev. destruct Ev as (a & t1 & _ & Ev).
      apply bind_Ok in Ev. destruct Ev as (c & t2 & _ & Ev).
      apply ret_Ok in Ev. destruct Ev as [-> _]. eexists. reflexivity. }
    destruct Hv as [ q' -> ]. apply knowledge_read; assumption.
Qed.

Lemma knowledge_assignment_read_back_witness :
  exists res st',
    assignToKnowledge 5 hp_ref OpAdd ctx0 (VStr "25") st0 = Ok (res, st')
    /\ value res = VNum (JsNumber.of_Z 25)
    /\ VariableReference_evaluate 5 (evaluate 5) hp_ref
         (mkContext (updatedKnowledge res) 0 None) st'
       = Ok (mkResult (value res) (updatedKnowledge res), st').
Proof.
  destruct (assignToKnowledge 5 hp_ref OpAdd ctx0 (VStr "25") st0)
    as [ [res st'] | err | w ] eqn:E.
  - exists res, st'. split; [ reflexivity | ]. split.
    + vm_compute in E. inversion E. reflexivity.
    + exact (knowledge_assignment_read_back 5 "hp" OpAdd ctx0 (Pre 0) []
               (PStr "25") st0 res st' eq_refl eq_refl eq_refl E
               (evaluate 5) 0 None).
  - vm_compute in E. discriminate.
  - vm_compute in E. discriminate.
Defined.

(** ** Errors of a run *)

(** X6.  Reading [$$.p...] from a knowledge object that has no property
    [p], neither its own nor one [Object.prototype] gives it, raises an
    [EvaluationError] whose message names the path asked for, the place
    where the walk stopped and the keys the object does have. *)
Theorem missing_knowledge_property fuel ev l props p rest i g st :
  heap_get (objects st) l = Some (OObject props) ->
  alist_has p props = false ->
  mem p object_prototype_names = false ->
  alist_has p (prototype (objects st)) = false ->
  let asked := "$$." ++ String.concat "." (p :: rest) in
  VariableReference_evaluate fuel ev (mkVariableReference ("$" :: p :: rest) true)
    (mkContext (VRef l) i g) st
  = Throw (mkError EvaluationError
             ("Evaluation error at " ++ asked
                ++ ": Failed to resolve variable " ++ asked
                ++ ": Evaluation error: Property '" ++ p
                ++ "' not found at $$. Available: ["
                ++ String.concat ", " (map fst props) ++ "]")).
Proof.
  intros Hl Hhas Hmem Hshared asked.
  unfold VariableReference_evaluate, rethrow. cbn [isKnowledge].
  unfold evaluateKnowledgePath. cbn [path knowledge].
  change (String.eqb "$" "$") with true. cbv iota.
  assert (Hw : walk_knowledge (p :: rest) (VRef l) ["$$"] st
               = Throw (mkError EvaluationError
                          ("Evaluation error: Property '" ++ p
                             ++ "' not found at $$. Available: ["
                             ++ String.concat ", " (map fst props) ++ "]"))).
  { cbn [walk_knowledge]. unfold object_with.
    assert (Eh : has_property (VRef l) p st = Ok (false, st)).
    { unfold has_property, bind, get_object. rewrite Hl, Hhas.
      unfold inherited_has, shared_entries, bind.
      rewrite Hshared, Hmem. reflexivity. }
    rewrite (bind_step _ _ _ _ _ Eh).
    assert (Ek : object_keys (VRef l) st = Ok (map fst props, st)).
    { unfold object_keys, bind, get_object. rewrite Hl. reflexivity. }
    rewrite (bind_step _ _ _ _ _ Ek). reflexivity. }
  unfold bind at 1. rewrite Hw. reflexivity.
Qed.

Lemma missing_knowledge_property_witness :
  VariableReference_evaluate 5 (evaluate 5)
    (mkVariableReference ["$"; "mana"] true) ctx0
    (mkStore (mkHeap hp75 [] []) [[]] (Seeded PrimFloat.zero))
  = Throw (mkError EvaluationError
             ("Evaluation error at $$.mana: Failed to resolve variable "
                ++ "$$.mana: Evaluation error: Property 'mana' not found at "
                ++ "$$. Available: [hp]")).
Proof.
  exact (missing_knowledge_property 5 (evaluate 5) (Pre 0)
           [("hp", VNum 75%float)] "mana" [] 0 None
           (mkStore (mkHeap hp75 [] []) [[]] (Seeded PrimFloat.zero))
           eq_refl eq_refl eq_refl eq_refl).
Defined.

(** X19.  A property that [Object.prototype] gives counts as found.  The
    knowledge [{}] has no [hp] and [$$.hp] raises the error above; once
    [$$.__proto__.hp = 100] has run, the knowledge still has no property
    of its own, and [$$.hp] reads [100]. *)
Theorem inherited_knowledge_property_found :
  error_of (generate 100 "$start := $$.hp" empty_knowledge K0 None)
  = Some ("Evaluation error at $$.hp: Failed to resolve variable $$.hp: "
            ++ "Evaluation error: Property 'hp' not found at $$. "
            ++ "Available: []")
  /\ output_of (generate 100 "$start := [$$.__proto__.hp = 100] $$.hp"
                  empty_knowledge K0 None)
     = Some (VStr "100 100")
  /\ knowledge_keys (generate 100 "$start := [$$.__proto__.hp = 100] $$.hp"
                       empty_knowledge K0 None)
     = Some [].
Proof. repeat split; vm_compute; reflexivity. Qed.

(** [{...knowledge}] of a primitive, or of an object the heap holds *)
Lemma spread1_returns k st :
  match k with
  | VRef l => heap_get (objects st) l <> None
  | VPrim _ => True
  end ->
  exists copy st', spread1 k st = Ok (copy, st').
Proof.
  intros Hk. unfold spread1, spread_entries, alloc, heap_alloc, bind.
  destruct k as [ [ | | x | x | s ] | l ]; try (eexists; eexists; reflexivity).
  unfold get_object. destruct (heap_get (objects st) l) as [ o | ];
    [ | tauto ].
  destruct o; eexists; eexists; reflexivity.
Qed.

(** X7.  A grammar without a rule named [start] cannot be executed: for
    every knowledge and every seed [execute] raises the error
    [No start rule defined], before anything is evaluated. *)
Theorem execute_without_start_rule fuel ast k seed st :
  alist_get "start" (rules ast) = None ->
  match k with
  | VRef l => heap_get (objects st) l <> None
  | VPrim _ => True
  end ->
  Generator.execute fuel ast k seed st
  = Throw (mkError EvaluationError "Evaluation error: No start rule defined").
Proof.
  intros Hs Hk.
  unfold Generator.execute, Generator.createExecutionContext.
  assert (Hk' : exists k' s1,
             match k with
             | VUndefined => alloc (OObject [])
             | _ => ret k
             end st = Ok (k', s1)
             /\ match k' with
                | VRef l => heap_get (objects s1) l <> None
                | VPrim _ => True
                end).
  { destruct k as [ [ | | x | x | s ] | l ];
      try (eexists; eexists; split; [ reflexivity | exact Hk ]).
    eexists. eexists. split; [ reflexivity | ].
    cbn. rewrite nth_error_app2 by lia. rewrite Nat.sub_diag. discriminate. }
  destruct Hk' as (k' & s1 & E1 & Hk1).
  rewrite (bind_step _ _ _ _ _ E1).
  assert (Hc : exists context s2,
             (Generator.createSeededRandom seed ;;;
              copy <- spread1 k' ;;
              variables <- map_new [] ;;
              ret (mkContext copy variables None)) s1 = Ok (context, s2)).
  { unfold bind at 1. unfold Generator.createSeededRandom.
    set (s1' := match seed with Some _ => _ | None => _ end).
    destruct (spread1_returns k' s1') as (copy & s2 & E2).
    { destruct k' as [ q | l ]; [ exact I | ].
      unfold s1'. destruct seed; exact Hk1. }
    rewrite (bind_step _ _ _ _ _ E2). eexists. eexists. reflexivity. }
  destruct Hc as (context & s2 & E2).
  rewrite (bind_step _ _ _ _ _ E2).
  unfold Grammar_evaluate. rewrite Hs. reflexivity.
Qed.

Lemma execute_without_start_rule_witness :
  exists ast,
    Generator.compile 100 "$greeting := hello" = Types.Parsed ast
    /\ Generator.execute 100 ast K0 (Some (JsNumber.of_Z 7))
         (Generator.initial_store empty_knowledge (fun _ => PrimFloat.zero))
       = Throw (mkError EvaluationError
                  "Evaluation error: No start rule defined").
Proof.
  destruct (Generator.compile 100 "$greeting := hello") as [ ast | e | ] eqn:Ec;
    [ | vm_compute in Ec; discriminate | vm_compute in Ec; discriminate ].
  exists ast. split; [ reflexivity | ].
  apply execute_without_start_rule.
  - vm_compute in Ec. inversion Ec. reflexivity.
  - cbn. discriminate.
Defined.

(* ================================================================== *)
(** * Further properties of the lexer *)

Lemma advance_not_at_end L0 char L :
  Lexer.advance L0 = (char, L) -> Lexer.isAtEnd L0 = false ->
  char = Lexer.peek L0.
Proof.
  intros Ea He. rewrite <- (advance_peek _ He), Ea. reflexivity.
Qed.

Lemma list_ascii_app a b :
  list_ascii_of_string (a ++ b)
  = (list_ascii_of_string a ++ list_ascii_of_string b)%list.
Proof. induction a as [ | c a IH ]; cbn; [ reflexivity | now rewrite IH ]. Qed.

(** what [take_while] appends satisfies the test *)
Lemma take_while_all fuel pred : forall v L v' L',
  Lexer.take_while fuel pred v L = Some (v', L') ->
  exists suffix,
    v' = v ++ suffix
    /\ forallb pred (list_ascii_of_string suffix) = true.
Proof.
  induction fuel as [ | f IH ]; intros v L v' L' E; cbn [Lexer.take_while] in E;
    [ discriminate | ].
  destruct (negb (Lexer.isAtEnd L) && pred (Lexer.peek L)) eqn:Ec.
  - apply andb_true_iff in Ec. destruct Ec as [ He Hp ].
    apply negb_true_iff in He.
    destruct (Lexer.advance L) as [ c L1 ] eqn:Ea.
    pose proof (advance_not_at_end _ _ _ Ea He) as ->.
    apply IH in E. destruct E as (suffix & -> & Hs).
    exists (Lexer.str (Lexer.peek L) ++ suffix). split.
    + apply string_app_assoc.
    + cbn. rewrite Hp, Hs. reflexivity.
  - inversion E; subst. exists "". split; [ | reflexivity ].
    induction v' as [ | x v IHv ]; cbn; [ reflexivity | now rewrite <- IHv ].
Qed.

(** [number] and [identifier] re-read the character [nextToken] took *)
Lemma back_up_peek L0 char L :
  Lexer.advance L0 = (char, L) -> Lexer.isAtEnd L0 = false ->
  Lexer.isAtEnd (Lexer.back_up L) = false
  /\ Lexer.peek (Lexer.back_up L) = char.
Proof.
  intros Ea Hend.
  destruct (advance_moves _ _ _ Ea Hend) as (Hc & HpL & HiL).
  assert (Hp : Lexer.position (Lexer.back_up L) = Lexer.position L0)
    by (cbn; lia).
  assert (Hi : Lexer.input (Lexer.back_up L) = Lexer.input L0)
    by (cbn; exact HiL).
  assert (He : Lexer.isAtEnd (Lexer.back_up L) = false).
  { unfold Lexer.isAtEnd in *. rewrite Hp, Hi. exact Hend. }
  split; [ exact He | ].
  unfold Lexer.peek. rewrite He. unfold Lexer.char_at. rewrite Hp, Hi.
  symmetry. exact Hc.
Qed.

Lemma take_while_first fuel pred L v L1 :
  Lexer.isAtEnd L = false -> pred (Lexer.peek L) = true ->
  Lexer.take_while fuel pred "" L = Some (v, L1) ->
  exists r,
    v = String (Lexer.peek L) r
    /\ forallb pred (list_ascii_of_string r) = true.
Proof.
  intros He Hp E. destruct fuel as [ | f ]; [ discriminate | ].
  cbn [Lexer.take_while] in E. rewrite He, Hp in E. cbn [negb andb] in E.
  destruct (Lexer.advance L) as [ c L' ] eqn:Ea.
  pose proof (advance_not_at_end _ _ _ Ea He) as ->.
  apply take_while_all in E. destruct E as (suffix & -> & Hs).
  exists suffix. split; [ reflexivity | exact Hs ].
Qed.

Lemma advance_at_end_false L0 char L :
  Lexer.advance L0 = (char, L) -> char <> Lexer.nul ->
  Lexer.isAtEnd L0 = false.
Proof.
  unfold Lexer.advance. destruct (Lexer.isAtEnd L0); [ | reflexivity ].
  intros E Hc. inversion E; subst. congruence.
Qed.

Lemma identifier_word fuel sl sc L0 char L token L2 :
  Lexer.advance L0 = (char, L) ->
  Lexer.isAlpha char = true ->
  Lexer.identifier fuel sl sc L = Parsed (token, L2) ->
  type token = IDENTIFIER /\ word_text (Types.value token).
Proof.
  intros Ea Ha E.
  assert (Hend : Lexer.isAtEnd L0 = false).
  { apply (advance_at_end_false _ _ _ Ea). intros ->. discriminate. }
  destruct (back_up_peek _ _ _ Ea Hend) as [ He Hpk ].
  unfold Lexer.identifier in E.
  destruct (Lexer.take_while fuel Lexer.isAlphaNumeric "" (Lexer.back_up L))
    as [ [v L1] | ] eqn:Et; [ | discriminate ].
  injection E as Ht _. rewrite <- Ht. cbn [type Types.value].
  split; [ reflexivity | ].
  assert (Hp : Lexer.isAlphaNumeric (Lexer.peek (Lexer.back_up L)) = true)
    by (unfold Lexer.isAlphaNumeric; rewrite Hpk, Ha; reflexivity).
  destruct (take_while_first _ Lexer.isAlphaNumeric _ _ _ He Hp Et)
    as (r & -> & Hr).
  exists (Lexer.peek (Lexer.back_up L)), r. rewrite Hpk. auto.
Qed.

Lemma digits_text_String c r :
  Lexer.isDigit c = true ->
  forallb Lexer.isDigit (list_ascii_of_string r) = true ->
  digits_text (String c r).
Proof.
  intros Hc Hr. split; [ discriminate | ]. cbn. rewrite Hc, Hr. reflexivity.
Qed.

Lemma number_decimal fuel sl sc L0 char L token L2 :
  Lexer.advance L0 = (char, L) ->
  Lexer.isDigit char = true ->
  Lexer.number fuel sl sc L = Parsed (token, L2) ->
  type token = NUMBER /\ decimal_text (Types.value token).
Proof.
  intros Ea Hd E.
  assert (Hend : Lexer.isAtEnd L0 = false).
  { apply (advance_at_end_false _ _ _ Ea). intros ->. discriminate. }
  destruct (back_up_peek _ _ _ Ea Hend) as [ He Hpk ].
  unfold Lexer.number in E.
  destruct (Lexer.take_while fuel Lexer.isDigit "" (Lexer.back_up L))
    as [ [v L1] | ] eqn:Et; [ | discriminate ].
  assert (Hp : Lexer.isDigit (Lexer.peek (Lexer.back_up L)) = true)
    by (rewrite Hpk; exact Hd).
  destruct (take_while_first _ Lexer.isDigit _ _ _ He Hp Et)
    as (r & -> & Hr).
  rewrite Hpk in *.
  pose proof (digits_text_String _ _ Hd Hr) as Hwhole.
  destruct (negb (Lexer.isAtEnd L1) && Ascii.eqb (Lexer.peek L1) "."
            && Lexer.isDigit (Lexer.peekNext L1)) eqn:Edot.
  - apply andb_true_iff in Edot. destruct Edot as [ Edot Hnext ].
    apply andb_true_iff in Edot. destruct Edot as [ He1 Hdot ].
    apply negb_true_iff in He1. apply Ascii.eqb_eq in Hdot.
    destruct (Lexer.advance L1) as [ dot L3 ] eqn:Ea1.
    pose proof (advance_not_at_end _ _ _ Ea1 He1) as Hd1.
    rewrite Hdot in Hd1. subst dot.
    destruct (advance_moves _ _ _ Ea1 He1) as (_ & Hp3 & Hi3).
    assert (He3 : Lexer.isAtEnd L3 = false
                  /\ Lexer.peek L3 = Lexer.peekNext L1).
    { unfold Lexer.peekNext in *. unfold Lexer.peek, Lexer.isAtEnd.
      unfold Lexer.char_at in *. rewrite Hp3, Hi3.
      replace (Lexer.position L1 + 1) with (S (Lexer.position L1)) in * by lia.
      destruct (Nat.leb (String.length (Lexer.input L1))
                        (S (Lexer.position L1))).
      - cbn in Hnext. discriminate.
      - split; reflexivity. }
    destruct He3 as [ He3 Hpk3 ].
    destruct (Lexer.take_while fuel Lexer.isDigit _ L3) as [ [v' L4] | ] eqn:Et2;
      [ | discriminate ].
    injection E as Ht _. rewrite <- Ht. cbn [type Types.value].
    split; [ reflexivity | ].
    right.
    destruct fuel as [ | f ]; [ discriminate | ].
    cbn [Lexer.take_while] in Et2. rewrite He3, Hpk3, Hnext in Et2.
    cbn [negb andb] in Et2.
    destruct (Lexer.advance L3) as [ c L' ] eqn:Ea3.
    pose proof (advance_not_at_end _ _ _ Ea3 He3) as ->.
    apply take_while_all in Et2. destruct Et2 as (suffix & -> & Hs).
    exists (String char r), (String (Lexer.peek L3) suffix).
    split; [ | split; [ exact Hwhole | ] ].
    + cbn. f_equal. rewrite !string_app_assoc. reflexivity.
    + apply digits_text_String; [ rewrite Hpk3; exact Hnext | exact Hs ].
  - injection E as Ht _. rewrite <- Ht. cbn [type Types.value].
    split; [ reflexivity | ].
    left. exact Hwhole.
Qed.

(** the kinds of token [nextToken] makes *)
Lemma one_or_two_type L c second two one sl sc token L2 :
  Lexer.one_or_two L c second two one sl sc = Parsed (token, L2) ->
  type token = two \/ type token = one.
Proof.
  unfold Lexer.one_or_two.
  destruct (Lexer.match_ L second) as [ [ | ] L1 ]; intros E; inversion E;
    subst; cbn; auto.
Qed.

Lemma nextToken_shape fuel L0 token L2 :
  Lexer.nextToken fuel L0 = Parsed (token, L2) ->
  match type token with
  | EOF => False
  | IDENTIFIER => word_text (Types.value token)
  | NUMBER => decimal_text (Types.value token)
  | _ => True
  end.
Proof.
  unfold Lexer.nextToken.
  destruct (Lexer.advance L0) as [ char L ] eqn:Ea.
  cbv zeta. intros E.
  repeat match type of E with
         | (if Ascii.eqb char ?c then _ else _) = _ =>
             destruct (Ascii.eqb char c);
             [ first
                 [ inversion E; subst; exact I
                 | destruct (one_or_two_type _ _ _ _ _ _ _ _ _ E) as [ -> | -> ];
                   exact I ]
             | ]
         end.
  destruct (Ascii.eqb char ":").
  - destruct (Lexer.match_ L "=") as [ [ | ] L1 ].
    + inversion E; subst. exact I.
    + destruct (one_or_two_type _ _ _ _ _ _ _ _ _ E) as [ -> | -> ]; exact I.
  - destruct (Ascii.eqb char Lexer.dquote || Ascii.eqb char Lexer.squote).
    + unfold Lexer.string_ in E.
      destruct (Lexer.string_loop fuel char "" L) as [ [v L1] | ];
        [ | discriminate ].
      destruct (Lexer.isAtEnd L1); [ discriminate | ].
      destruct (Lexer.advance L1). inversion E; subst. exact I.
    + destruct (Lexer.isDigit char) eqn:Hd.
      * destruct (number_decimal _ _ _ _ _ _ _ _ Ea Hd E) as [ -> H ]. exact H.
      * destruct (Lexer.isAlpha char) eqn:Hal; [ | discriminate ].
        destruct (identifier_word _ _ _ _ _ _ _ _ Ea Hal E) as [ -> H ].
        exact H.
Qed.

Lemma tokenize_loop_shape fuel : forall tokens L tokens' L',
  Forall (fun t => match type t with
                   | EOF => False
                   | IDENTIFIER => word_text (Types.value t)
                   | NUMBER => decimal_text (Types.value t)
                   | _ => True
                   end) tokens ->
  Lexer.tokenize_loop fuel tokens L = Parsed (tokens', L') ->
  Forall (fun t => match type t with
                   | EOF => False
                   | IDENTIFIER => word_text (Types.value t)
                   | NUMBER => decimal_text (Types.value t)
                   | _ => True
                   end) tokens'.
Proof.
  induction fuel as [ | f IH ]; intros tokens L tokens' L' Hok E;
    cbn [Lexer.tokenize_loop] in E; [ discriminate | ].
  destruct (Lexer.isAtEnd L); [ inversion E; subst; exact Hok | ].
  destruct (Lexer.skipWhitespace (S f) L) as [ L1 | ]; [ | discriminate ].
  destruct (Lexer.isAtEnd L1); [ inversion E; subst; exact Hok | ].
  destruct (Lexer.nextToken (S f) L1) as [ [token L2] | e | ] eqn:En;
    try discriminate.
  apply IH in E; [ exact E | ].
  apply Forall_app. split; [ exact Hok | ].
  constructor; [ | constructor ].
  exact (nextToken_shape _ _ _ _ En).
Qed.

(** X8.  The token list [tokenize] returns ends with the one [EOF] token
    it holds, and that token has the empty text. *)
Theorem tokenize_ends_with_EOF fuel text tokens :
  Lexer.tokenize fuel text = Parsed tokens ->
  exists body last,
    tokens = (body ++ [last])%list
    /\ type last = EOF /\ Types.value last = ""
    /\ Forall (fun t => type t <> EOF) body.
Proof.
  unfold Lexer.tokenize.
  destruct (Lexer.tokenize_loop fuel [] (Lexer.new text))
    as [ [body L] | e | ] eqn:E; try discriminate.
  intros E'. inversion E'; subst.
  exists body, (mkToken EOF "" (Lexer.cur_line L) (Lexer.cur_column L)).
  repeat split.
  apply tokenize_loop_shape in E; [ | constructor ].
  eapply Forall_impl; [ | exact E ].
  intros t Ht Heof. cbv beta in Ht. rewrite Heof in Ht. exact Ht.
Qed.

Lemma tokenize_ends_with_EOF_witness :
  exists tokens body last,
    Lexer.tokenize 100 weighted_grammar = Parsed tokens
    /\ tokens = (body ++ [last])%list
    /\ Types.type last = EOF.
Proof.
  destruct (Lexer.tokenize 100 weighted_grammar) as [ tokens | e | ] eqn:E.
  - destruct (tokenize_ends_with_EOF _ _ _ E) as (body & last & Ht & Hl & _).
    exists tokens, body, last. repeat split; assumption.
  - vm_compute in E. discriminate.
  - vm_compute in E. discriminate.
Defined.

(** X9.  In the token list [tokenize] returns, the text of an IDENTIFIER
    token is a letter or an underscore followed by letters, digits and
    underscores, and the text of a NUMBER token is one digit or more,
    optionally followed by a point and one digit or more: no sign, no
    exponent, no leading or trailing point. *)
Theorem tokenize_words_and_numbers fuel text tokens t :
  Lexer.tokenize fuel text = Parsed tokens ->
  In t tokens ->
  match type t with
  | IDENTIFIER => word_text (Types.value t)
  | NUMBER => decimal_text (Types.value t)
  | _ => True
  end.
Proof.
  unfold Lexer.tokenize.
  destruct (Lexer.tokenize_loop fuel [] (Lexer.new text))
    as [ [body L] | e | ] eqn:E; try discriminate.
  intros E' Hin. inversion E'; subst.
  apply tokenize_loop_shape in E; [ | constructor ].
  apply in_app_or in Hin. destruct Hin as [ Hin | [ <- | [] ] ].
  - rewrite Forall_forall in E. specialize (E t Hin). cbv beta in E.
    destruct (type t); auto.
  - exact I.
Qed.

Lemma tokenize_words_and_numbers_witness :
  word_text "start" /\ decimal_text "0".
Proof.
  destruct (Lexer.tokenize 100 weighted_grammar) as [ tokens | e | ] eqn:E.
  - split.
    + refine (tokenize_words_and_numbers 100 weighted_grammar tokens
                (mkToken IDENTIFIER "start" 1 2) E _).
      vm_compute in E. inversion E. right. left. reflexivity.
    + refine (tokenize_words_and_numbers 100 weighted_grammar tokens
                (mkToken NUMBER "0" 1 15) E _).
      vm_compute in E. inversion E. do 5 right. left. reflexivity.
  - vm_compute in E. discriminate.
  - vm_compute in E. discriminate.
Defined.

(** ** Where the lexer stands *)

Lemma string_length_app a b :
  String.length (a ++ b) = String.length a + String.length b.
Proof. induction a as [ | c a IH ]; cbn; [ reflexivity | now rewrite IH ]. Qed.

Lemma string_get_app pre s i :
  String.get (String.length pre + i) (pre ++ s) = String.get i s.
Proof. induction pre as [ | c pre IH ]; cbn; [ reflexivity | exact IH ]. Qed.

Lemma string_get_lt s : forall i,
  i < String.length s -> exists c, String.get i s = Some c.
Proof.
  induction s as [ | x s IH ]; intros i Hi; cbn in Hi; [ lia | ].
  destruct i as [ | j ]; cbn.
  - eexists. reflexivity.
  - apply IH. lia.
Qed.

Lemma string_get_In s : forall i c,
  String.get i s = Some c -> In c (list_ascii_of_string s).
Proof.
  induction s as [ | x s IH ]; intros i c E; cbn in E; [ discriminate | ].
  destruct i as [ | j ]; cbn.
  - inversion E. auto.
  - right. eapply IH. exact E.
Qed.

Lemma isAtEnd_false L :
  Lexer.isAtEnd L = false <->
  Lexer.position L < String.length (Lexer.input L).
Proof. unfold Lexer.isAtEnd. rewrite Nat.leb_gt. tauto. Qed.

Lemma isAtEnd_true L :
  Lexer.isAtEnd L = true <->
  String.length (Lexer.input L) <= Lexer.position L.
Proof. unfold Lexer.isAtEnd. rewrite Nat.leb_le. tauto. Qed.

Lemma peek_get L :
  Lexer.isAtEnd L = false ->
  String.get (Lexer.position L) (Lexer.input L) = Some (Lexer.peek L).
Proof.
  intros He. unfold Lexer.peek. rewrite He. unfold Lexer.char_at.
  apply isAtEnd_false in He.
  destruct (string_get_lt _ _ He) as [ c -> ]. reflexivity.
Qed.

Lemma peek_absent c L :
  Lexer.isAtEnd L = false -> has_char c (Lexer.input L) = false ->
  Ascii.eqb (Lexer.peek L) c = false.
Proof.
  intros He Hno. destruct (Ascii.eqb (Lexer.peek L) c) eqn:E; [ | reflexivity ].
  apply Ascii.eqb_eq in E. subst c.
  apply peek_get, string_get_In in He.
  unfold has_char in Hno.
  assert (existsb (Ascii.eqb (Lexer.peek L))
                  (list_ascii_of_string (Lexer.input L)) = true).
  { apply existsb_exists. exists (Lexer.peek L). split; [ exact He | ].
    apply Ascii.eqb_refl. }
  congruence.
Qed.

(** the lexer stands after [pre], before [String c s] *)
Lemma peek_at L pre c s :
  Lexer.input L = pre ++ String c s ->
  Lexer.position L = String.length pre ->
  Lexer.isAtEnd L = false /\ Lexer.peek L = c.
Proof.
  intros Hi Hp.
  assert (He : Lexer.isAtEnd L = false).
  { apply isAtEnd_false. rewrite Hi, Hp, string_length_app. cbn. lia. }
  split; [ exact He | ].
  pose proof (peek_get _ He) as Hg. rewrite Hi, Hp in Hg.
  rewrite <- (Nat.add_0_r (String.length pre)) in Hg.
  rewrite string_get_app in Hg. cbn in Hg. congruence.
Qed.

Lemma at_end L pre :
  Lexer.input L = pre -> Lexer.position L = String.length pre ->
  Lexer.isAtEnd L = true.
Proof. intros Hi Hp. apply isAtEnd_true. rewrite Hi, Hp. lia. Qed.

Lemma advance_at L pre c s :
  Lexer.input L = pre ++ String c s ->
  Lexer.position L = String.length pre ->
  exists L',
    Lexer.advance L = (c, L')
    /\ Lexer.input L' = (pre ++ Lexer.str c) ++ s
    /\ Lexer.position L' = String.length (pre ++ Lexer.str c).
Proof.
  intros Hi Hp. destruct (peek_at _ _ _ _ Hi Hp) as [ He Hpk ].
  destruct (Lexer.advance L) as [ c' L' ] eqn:Ea.
  pose proof (advance_not_at_end _ _ _ Ea He) as Hc.
  destruct (advance_moves _ _ _ Ea He) as (_ & Hp' & Hi').
  exists L'. rewrite Hc, Hpk. split; [ reflexivity | ].
  split.
  - rewrite Hi', Hi, string_app_assoc. reflexivity.
  - rewrite Hp', Hp, string_length_app. cbn. lia.
Qed.

(** ** A line feed inside a string literal *)

Lemma string_loop_at_line_feed quote : forall fuel value L,
  Lexer.isAtEnd L = false -> Lexer.peek L = Lexer.lf ->
  quote <> Lexer.lf ->
  Lexer.string_loop fuel quote value L = None.
Proof.
  induction fuel as [ | f IH ]; intros value L He Hpk Hq;
    cbn [Lexer.string_loop]; [ reflexivity | ].
  rewrite He, Hpk. cbn [negb andb].
  destruct (Ascii.eqb Lexer.lf quote) eqn:E.
  - apply Ascii.eqb_eq in E. congruence.
  - cbn [negb]. rewrite Ascii.eqb_refl. apply IH; [ | | exact Hq ].
    + unfold Lexer.isAtEnd in *. exact He.
    + unfold Lexer.peek, Lexer.isAtEnd, Lexer.char_at in *. cbn. exact Hpk.
Qed.

Lemma string_loop_plain quote fuel value L pre c s :
  Lexer.input L = pre ++ String c s ->
  Lexer.position L = String.length pre ->
  plain quote c = true ->
  exists L',
    Lexer.string_loop (S fuel) quote value L
    = Lexer.string_loop fuel quote (value ++ Lexer.str c) L'
    /\ Lexer.input L' = (pre ++ Lexer.str c) ++ s
    /\ Lexer.position L' = String.length (pre ++ Lexer.str c)
    /\ Lexer.cur_line L' = Lexer.cur_line L.
Proof.
  intros Hi Hp Hc. destruct (peek_at _ _ _ _ Hi Hp) as [ He Hpk ].
  destruct (advance_at _ _ _ _ Hi Hp) as (L' & Ea & Hi' & Hp').
  exists L'. cbn [Lexer.string_loop]. rewrite He, Hpk.
  unfold plain in Hc.
  apply andb_true_iff in Hc. destruct Hc as [ Hc Hb ].
  apply andb_true_iff in Hc. destruct Hc as [ Hq Hl ].
  rewrite Hq. cbn [negb andb].
  apply negb_true_iff in Hl, Hb. rewrite Hl, Hb, Ea.
  repeat split; try assumption.
  unfold Lexer.advance in Ea. rewrite He in Ea.
  assert (Hcl : Ascii.eqb (Lexer.char_at L (Lexer.position L)) Lexer.lf = false).
  { unfold Lexer.peek in Hpk. rewrite He in Hpk. rewrite Hpk. exact Hl. }
  rewrite Hcl in Ea. inversion Ea. reflexivity.
Qed.

Lemma string_loop_hangs quote rest body : forall pre fuel value L,
  quote <> Lexer.lf ->
  Lexer.input L = pre ++ body ++ String Lexer.lf rest ->
  Lexer.position L = String.length pre ->
  forallb (plain quote) (list_ascii_of_string body) = true ->
  Lexer.string_loop fuel quote value L = None.
Proof.
  induction body as [ | c body IH ]; intros pre fuel value L Hq Hi Hp Hb.
  - cbn in Hi. destruct (peek_at _ _ _ _ Hi Hp) as [ He Hpk ].
    apply string_loop_at_line_feed; assumption.
  - destruct fuel as [ | f ]; [ reflexivity | ].
    cbn in Hb. apply andb_true_iff in Hb. destruct Hb as [ Hc Hb ].
    cbn in Hi.
    destruct (string_loop_plain quote f value L pre c _ Hi Hp Hc)
      as (L' & -> & Hi' & Hp' & _).
    eapply IH; eassumption.
Qed.

(** ** The lexer reads one text, forwards *)

Lemma advance_input L : Lexer.input (snd (Lexer.advance L)) = Lexer.input L.
Proof.
  unfold Lexer.advance. destruct (Lexer.isAtEnd L); [ reflexivity | ].
  cbn [snd]. destruct (Ascii.eqb _ Lexer.lf); reflexivity.
Qed.

Lemma advance_position L :
  Lexer.position L <= Lexer.position (snd (Lexer.advance L)).
Proof.
  unfold Lexer.advance. destruct (Lexer.isAtEnd L); [ cbn; lia | ].
  cbn [snd]. destruct (Ascii.eqb _ Lexer.lf); cbn; lia.
Qed.

Lemma advance_position_S L :
  Lexer.isAtEnd L = false ->
  Lexer.position (snd (Lexer.advance L)) = S (Lexer.position L).
Proof.
  intros He. unfold Lexer.advance. rewrite He.
  cbn [snd]. destruct (Ascii.eqb _ Lexer.lf); reflexivity.
Qed.

Lemma take_while_input fuel pred : forall v L v' L',
  Lexer.take_while fuel pred v L = Some (v', L') ->
  Lexer.input L' = Lexer.input L /\ Lexer.position L <= Lexer.position L'.
Proof.
  induction fuel as [ | f IH ]; intros v L v' L' E; cbn [Lexer.take_while] in E;
    [ discriminate | ].
  destruct (negb (Lexer.isAtEnd L) && pred (Lexer.peek L)).
  - pose proof (advance_input L) as Hi. pose proof (advance_position L) as Hp.
    destruct (Lexer.advance L) as [ c L1 ]. cbn [snd] in *.
    apply IH in E. destruct E as [ Hi' Hp' ]. split; [ congruence | lia ].
  - inversion E; subst. auto.
Qed.

Lemma string_loop_input quote fuel : forall v L v' L',
  Lexer.string_loop fuel quote v L = Some (v', L') ->
  Lexer.input L' = Lexer.input L /\ Lexer.position L <= Lexer.position L'.
Proof.
  induction fuel as [ | f IH ]; intros v L v' L' E;
    cbn [Lexer.string_loop] in E; [ discriminate | ].
  destruct (negb (Lexer.isAtEnd L) && negb (Ascii.eqb (Lexer.peek L) quote)).
  - destruct (Ascii.eqb (Lexer.peek L) Lexer.lf).
    + apply IH in E. cbn in E. exact E.
    + pose proof (advance_input L) as Hi.
      pose proof (advance_position L) as Hp.
      destruct (Lexer.advance L) as [ c L1 ]. cbn [snd] in *.
      destruct (Ascii.eqb (Lexer.peek L) Lexer.backslash).
      * pose proof (advance_input L1) as Hi1.
        pose proof (advance_position L1) as Hp1.
        destruct (Lexer.advance L1) as [ escaped L2 ]. cbn [snd] in *.
        apply IH in E. destruct E as [ Hi' Hp' ].
        split; [ congruence | lia ].
      * apply IH in E. destruct E as [ Hi' Hp' ]. split; [ congruence | lia ].
  - inversion E; subst. auto.
Qed.

Lemma skip_comment_input fuel : forall L L',
  Lexer.skip_comment fuel L = Some L' ->
  Lexer.input L' = Lexer.input L /\ Lexer.position L <= Lexer.position L'.
Proof.
  induction fuel as [ | f IH ]; intros L L' E; cbn [Lexer.skip_comment] in E;
    [ discriminate | ].
  destruct (negb (Lexer.isAtEnd L) && negb (Ascii.eqb (Lexer.peek L) Lexer.lf)).
  - apply IH in E. destruct E as [ Hi Hp ].
    rewrite advance_input in Hi. pose proof (advance_position L).
    split; [ exact Hi | lia ].
  - inversion E; subst. auto.
Qed.

Lemma skipWhitespace_input fuel : forall L L',
  Lexer.skipWhitespace fuel L = Some L' ->
  Lexer.input L' = Lexer.input L /\ Lexer.position L <= Lexer.position L'.
Proof.
  induction fuel as [ | f IH ]; intros L L' E; cbn [Lexer.skipWhitespace] in E;
    [ discriminate | ].
  destruct (Lexer.isAtEnd L); [ inversion E; subst; auto | ].
  cbv zeta in E.
  destruct (Ascii.eqb (Lexer.peek L) " " || Ascii.eqb (Lexer.peek L) Lexer.cr
            || Ascii.eqb (Lexer.peek L) Lexer.tab).
  - apply IH in E. destruct E as [ Hi Hp ].
    rewrite advance_input in Hi. pose proof (advance_position L).
    split; [ exact Hi | lia ].
  - destruct (Ascii.eqb (Lexer.peek L) "#").
    + destruct (Lexer.skip_comment (S f) L) as [ L1 | ] eqn:Ec;
        [ | discriminate ].
      apply skip_comment_input in Ec. apply IH in E.
      destruct Ec, E. split; [ congruence | lia ].
    + inversion E; subst. auto.
Qed.

Lemma match_input L c :
  Lexer.input (snd (Lexer.match_ L c)) = Lexer.input L
  /\ Lexer.position L <= Lexer.position (snd (Lexer.match_ L c)).
Proof.
  unfold Lexer.match_.
  destruct (Lexer.isAtEnd L || negb (Ascii.eqb _ c)); cbn; auto.
Qed.

Lemma one_or_two_input L c second two one sl sc token L2 :
  Lexer.one_or_two L c second two one sl sc = Parsed (token, L2) ->
  Lexer.input L2 = Lexer.input L /\ Lexer.position L <= Lexer.position L2.
Proof.
  unfold Lexer.one_or_two. pose proof (match_input L second) as H.
  destruct (Lexer.match_ L second) as [ [ | ] L1 ]; cbn [snd] in H;
    intros E; inversion E; subst; auto.
Qed.

(** a token takes at least the character [nextToken] starts from *)
Lemma nextToken_input fuel L0 token L2 :
  Lexer.isAtEnd L0 = false ->
  Lexer.nextToken fuel L0 = Parsed (token, L2) ->
  Lexer.input L2 = Lexer.input L0 /\ Lexer.position L0 < Lexer.position L2.
Proof.
  intros Hend. unfold Lexer.nextToken.
  pose proof (advance_input L0) as Hi. pose proof (advance_position_S _ Hend) as Hp.
  destruct (Lexer.advance L0) as [ char L ] eqn:Ea. cbn [snd] in Hi, Hp.
  cbv zeta. intros E.
  repeat match type of E with
         | (if Ascii.eqb char ?c then _ else _) = _ =>
             destruct (Ascii.eqb char c);
             [ first
                 [ inversion E; subst; split; [ exact Hi | lia ]
                 | destruct (one_or_two_input _ _ _ _ _ _ _ _ _ E);
                   split; [ congruence | lia ] ]
             | ]
         end.
  destruct (Ascii.eqb char ":").
  - pose proof (match_input L "=") as Hm.
    destruct (Lexer.match_ L "=") as [ [ | ] L1 ]; cbn [snd] in Hm.
    + inversion E; subst. destruct Hm. split; [ congruence | lia ].
    + destruct (one_or_two_input _ _ _ _ _ _ _ _ _ E).
      split; [ congruence | lia ].
  - destruct (Ascii.eqb char Lexer.dquote || Ascii.eqb char Lexer.squote).
    + unfold Lexer.string_ in E.
      destruct (Lexer.string_loop fuel char "" L) as [ [v L1] | ] eqn:Es;
        [ | discriminate ].
      apply string_loop_input in Es. destruct Es as [ Hi1 Hp1 ].
      destruct (Lexer.isAtEnd L1); [ discriminate | ].
      pose proof (advance_input L1) as Hi2.
      pose proof (advance_position L1) as Hp2.
      destruct (Lexer.advance L1) as [ c L3 ]. cbn [snd] in *.
      inversion E; subst. split; [ congruence | lia ].
    + destruct (back_up_peek _ _ _ Ea Hend) as [ Heb Hpkb ].
      assert (Hib : Lexer.input (Lexer.back_up L) = Lexer.input L0)
        by (cbn; exact Hi).
      assert (Hpb : Lexer.position (Lexer.back_up L) = Lexer.position L0)
        by (cbn; lia).
      destruct (Lexer.isDigit char) eqn:Hd.
      * unfold Lexer.number in E.
        destruct (Lexer.take_while fuel Lexer.isDigit "" (Lexer.back_up L))
          as [ [v L1] | ] eqn:Et; [ | discriminate ].
        assert (Hlt : Lexer.input L1 = Lexer.input L0
                      /\ Lexer.position L0 < Lexer.position L1).
        { destruct fuel as [ | f ]; [ discriminate | ].
          cbn [Lexer.take_while] in Et. rewrite Heb, Hpkb, Hd in Et.
          cbn [negb andb] in Et.
          pose proof (advance_input (Lexer.back_up L)) as Hi1.
          pose proof (advance_position_S _ Heb) as Hp1.
          destruct (Lexer.advance (Lexer.back_up L)) as [ c L' ].
          cbn [snd] in *. apply take_while_input in Et.
          destruct Et. split; [ congruence | lia ]. }
        destruct Hlt as [ Hi1 Hp1 ].
        destruct (negb (Lexer.isAtEnd L1) && Ascii.eqb (Lexer.peek L1) "."
                  && Lexer.isDigit (Lexer.peekNext L1)).
        -- pose proof (advance_input L1) as Hi2.
           pose proof (advance_position L1) as Hp2.
           destruct (Lexer.advance L1) as [ dot L3 ]. cbn [snd] in *.
           destruct (Lexer.take_while fuel Lexer.isDigit _ L3)
             as [ [v' L4] | ] eqn:Et2; [ | discriminate ].
           apply take_while_input in Et2. destruct Et2.
           inversion E; subst. split; [ congruence | lia ].
        -- inversion E; subst. split; [ congruence | lia ].
      * destruct (Lexer.isAlpha char) eqn:Hal; [ | discriminate ].
        unfold Lexer.identifier in E.
        destruct (Lexer.take_while fuel Lexer.isAlphaNumeric ""
                    (Lexer.back_up L)) as [ [v L1] | ] eqn:Et;
          [ | discriminate ].
        destruct fuel as [ | f ]; [ discriminate | ].
        cbn [Lexer.take_while] in Et. rewrite Heb, Hpkb in Et.
        unfold Lexer.isAlphaNumeric in Et at 1. rewrite Hal in Et.
        cbn [negb andb orb] in Et.
        pose proof (advance_input (Lexer.back_up L)) as Hi1.
        pose proof (advance_position_S _ Heb) as Hp1.
        destruct (Lexer.advance (Lexer.back_up L)) as [ c L' ].
        cbn [snd] in *. apply take_while_input in Et. destruct Et.
        inversion E; subst. split; [ congruence | lia ].
Qed.

Lemma reaches_input text L : reaches text L -> Lexer.input L = text.
Proof.
  induction 1 as [ | fuel L L1 token L2 Hr IH He Hs He1 Hn ].
  - reflexivity.
  - apply skipWhitespace_input in Hs. destruct Hs as [ Hi1 _ ].
    apply (nextToken_input _ _ _ _ He1) in Hn. destruct Hn as [ Hi2 _ ].
    congruence.
Qed.

(** ** More budget changes no result *)

Lemma take_while_mono pred : forall f F v L r,
  f <= F -> Lexer.take_while f pred v L = Some r ->
  Lexer.take_while F pred v L = Some r.
Proof.
  induction f as [ | f IH ]; intros F v L r Hle E; [ discriminate | ].
  destruct F as [ | F ]; [ lia | ]. cbn [Lexer.take_while] in *.
  destruct (negb (Lexer.isAtEnd L) && pred (Lexer.peek L)); [ | exact E ].
  destruct (Lexer.advance L) as [ c L1 ]. apply IH; [ lia | exact E ].
Qed.

Lemma string_loop_mono quote : forall f F v L r,
  f <= F -> Lexer.string_loop f quote v L = Some r ->
  Lexer.string_loop F quote v L = Some r.
Proof.
  induction f as [ | f IH ]; intros F v L r Hle E; [ discriminate | ].
  destruct F as [ | F ]; [ lia | ]. cbn [Lexer.string_loop] in *.
  destruct (negb (Lexer.isAtEnd L) && negb (Ascii.eqb (Lexer.peek L) quote));
    [ | exact E ].
  destruct (Ascii.eqb (Lexer.peek L) Lexer.lf); [ apply IH; [ lia | exact E ] | ].
  destruct (Ascii.eqb (Lexer.peek L) Lexer.backslash).
  - destruct (Lexer.advance L) as [ c L1 ].
    destruct (Lexer.advance L1) as [ escaped L2 ].
    apply IH; [ lia | exact E ].
  - destruct (Lexer.advance L) as [ c L1 ]. apply IH; [ lia | exact E ].
Qed.

Lemma skip_comment_mono : forall f F L r,
  f <= F -> Lexer.skip_comment f L = Some r ->
  Lexer.skip_comment F L = Some r.
Proof.
  induction f as [ | f IH ]; intros F L r Hle E; [ discriminate | ].
  destruct F as [ | F ]; [ lia | ]. cbn [Lexer.skip_comment] in *.
  destruct (negb (Lexer.isAtEnd L) && negb (Ascii.eqb (Lexer.peek L) Lexer.lf));
    [ | exact E ].
  apply IH; [ lia | exact E ].
Qed.

Lemma skipWhitespace_mono : forall f F L r,
  f <= F -> Lexer.skipWhitespace f L = Some r ->
  Lexer.skipWhitespace F L = Some r.
Proof.
  induction f as [ | f IH ]; intros F L r Hle E; [ discriminate | ].
  destruct F as [ | F ]; [ lia | ]. cbn [Lexer.skipWhitespace] in *.
  destruct (Lexer.isAtEnd L); [ exact E | ]. cbv zeta in *.
  destruct (Ascii.eqb (Lexer.peek L) " " || Ascii.eqb (Lexer.peek L) Lexer.cr
            || Ascii.eqb (Lexer.peek L) Lexer.tab).
  - apply IH; [ lia | exact E ].
  - destruct (Ascii.eqb (Lexer.peek L) "#"); [ | exact E ].
    destruct (Lexer.skip_comment (S f) L) as [ L1 | ] eqn:Ec; [ | discriminate ].
    rewrite (skip_comment_mono (S f) (S F) _ _ ltac:(lia) Ec).
    apply IH; [ lia | exact E ].
Qed.

Lemma string_mono f F quote sl sc L r :
  f <= F -> Lexer.string_ f quote sl sc L = r -> r <> Timeout ->
  Lexer.string_ F quote sl sc L = r.
Proof.
  unfold Lexer.string_. intros Hle E Hr.
  destruct (Lexer.string_loop f quote "" L) as [ p | ] eqn:Es;
    [ | congruence ].
  rewrite (string_loop_mono _ _ _ _ _ _ Hle Es). exact E.
Qed.

Lemma number_mono f F sl sc L r :
  f <= F -> Lexer.number f sl sc L = r -> r <> Timeout ->
  Lexer.number F sl sc L = r.
Proof.
  unfold Lexer.number. intros Hle E Hr.
  destruct (Lexer.take_while f Lexer.isDigit "" (Lexer.back_up L))
    as [ [v L1] | ] eqn:Et; [ | congruence ].
  rewrite (take_while_mono _ _ _ _ _ _ Hle Et).
  destruct (negb (Lexer.isAtEnd L1) && Ascii.eqb (Lexer.peek L1) "."
            && Lexer.isDigit (Lexer.peekNext L1)); [ | exact E ].
  destruct (Lexer.advance L1) as [ dot L2 ].
  destruct (Lexer.take_while f Lexer.isDigit _ L2) as [ [v' L3] | ] eqn:Et2;
    [ | congruence ].
  rewrite (take_while_mono _ _ _ _ _ _ Hle Et2). exact E.
Qed.

Lemma identifier_mono f F sl sc L r :
  f <= F -> Lexer.identifier f sl sc L = r -> r <> Timeout ->
  Lexer.identifier F sl sc L = r.
Proof.
  unfold Lexer.identifier. intros Hle E Hr.
  destruct (Lexer.take_while f Lexer.isAlphaNumeric "" (Lexer.back_up L))
    as [ [v L1] | ] eqn:Et; [ | congruence ].
  rewrite (take_while_mono _ _ _ _ _ _ Hle Et). exact E.
Qed.

Lemma nextToken_mono f F L r :
  f <= F -> Lexer.nextToken f L = r -> r <> Timeout ->
  Lexer.nextToken F L = r.
Proof.
  intros Hle E Hr. revert E. unfold Lexer.nextToken.
  destruct (Lexer.advance L) as [ char L1 ]. cbv zeta.
  repeat match goal with
         | |- (if Ascii.eqb char ?c then _ else _) = _ -> _ =>
             destruct (Ascii.eqb char c); [ exact (fun E => E) | ]
         end.
  destruct (Ascii.eqb char Lexer.dquote || Ascii.eqb char Lexer.squote).
  - intros E. exact (string_mono _ _ _ _ _ _ _ Hle E Hr).
  - destruct (Lexer.isDigit char).
    + intros E. exact (number_mono _ _ _ _ _ _ Hle E Hr).
    + destruct (Lexer.isAlpha char); [ | exact (fun E => E) ].
      intros E. exact (identifier_mono _ _ _ _ _ _ Hle E Hr).
Qed.

(** two budgets give the same result, unless one is too small *)
Lemma skipWhitespace_agrees f F L L1 :
  Lexer.skipWhitespace f L = Some L1 ->
  Lexer.skipWhitespace F L = Some L1 \/ Lexer.skipWhitespace F L = None.
Proof.
  intros E. destruct (Nat.le_ge_cases f F) as [ Hle | Hge ].
  - left. exact (skipWhitespace_mono _ _ _ _ Hle E).
  - destruct (Lexer.skipWhitespace F L) as [ L1' | ] eqn:E'; [ | auto ].
    left. pose proof (skipWhitespace_mono _ _ _ _ Hge E'). congruence.
Qed.

Lemma nextToken_agrees f F L r :
  Lexer.nextToken f L = Parsed r ->
  Lexer.nextToken F L = Parsed r \/ Lexer.nextToken F L = Timeout.
Proof.
  intros E. destruct (Nat.le_ge_cases f F) as [ Hle | Hge ].
  - left. apply (nextToken_mono _ _ _ _ Hle E). discriminate.
  - destruct (Lexer.nextToken F L) as [ r' | e | ] eqn:E'; [ | | auto ].
    + left. pose proof (nextToken_mono _ _ _ _ Hge E' ltac:(discriminate)).
      congruence.
    + pose proof (nextToken_mono _ _ _ _ Hge E' ltac:(discriminate)).
      congruence.
Qed.

(** ** A string literal that never ends *)

Lemma tokenize_loop_stalls text L :
  reaches text L ->
  (forall F tokens, Lexer.tokenize_loop F tokens L = Timeout) ->
  forall F tokens, Lexer.tokenize_loop F tokens (Lexer.new text) = Timeout.
Proof.
  induction 1 as [ | fuel L L1 token L2 Hr IH He Hs He1 Hn ]; intros Hstall.
  - exact Hstall.
  - apply IH. intros F tokens.
    destruct F as [ | F ]; [ reflexivity | ].
    cbn [Lexer.tokenize_loop]. rewrite He.
    destruct (skipWhitespace_agrees _ (S F) _ _ Hs) as [ -> | -> ];
      [ | reflexivity ].
    rewrite He1.
    destruct (nextToken_agrees _ (S F) _ _ Hn) as [ -> | -> ];
      [ | reflexivity ].
    apply Hstall.
Qed.

Lemma quote_token quote fuel L0 L :
  quote = Lexer.dquote \/ quote = Lexer.squote ->
  Lexer.advance L0 = (quote, L) ->
  Lexer.nextToken fuel L0
  = Lexer.string_ fuel quote (Lexer.cur_line L0) (Lexer.cur_column L0) L.
Proof.
  intros Hq Ea. unfold Lexer.nextToken. rewrite Ea. cbv zeta.
  destruct Hq as [ -> | -> ]; reflexivity.
Qed.

(** X10.  A string literal with a line feed before its closing quote makes
    [tokenize] loop for ever: wherever in the text the literal starts, and
    whatever follows the line feed, the lexer never returns.  The loop of
    [string] counts the line and does not consume the character. *)
Theorem line_feed_in_string_never_returns
  text L fuel0 L1 quote pre body rest :
  reaches text L ->
  Lexer.skipWhitespace fuel0 L = Some L1 ->
  quote = Lexer.dquote \/ quote = Lexer.squote ->
  text = pre ++ String quote (body ++ String Lexer.lf rest) ->
  Lexer.position L1 = String.length pre ->
  forallb (plain quote) (list_ascii_of_string body) = true ->
  forall fuel, Lexer.tokenize fuel text = Timeout.
Proof.
  intros Hr Hs Hq Htext Hp Hb fuel.
  assert (Hi1 : Lexer.input L1 = text).
  { apply skipWhitespace_input in Hs. destruct Hs as [ -> _ ].
    apply reaches_input. exact Hr. }
  rewrite Htext in Hi1.
  destruct (peek_at _ _ _ _ Hi1 Hp) as [ He1 Hpk1 ].
  destruct (advance_at _ _ _ _ Hi1 Hp) as (L' & Ea & Hi' & Hp').
  assert (Hql : quote <> Lexer.lf).
  { destruct Hq as [ -> | -> ]; discriminate. }
  assert (Hn : forall F, Lexer.nextToken F L1 = Timeout).
  { intros F. rewrite (quote_token quote F L1 L' Hq Ea).
    unfold Lexer.string_.
    rewrite (string_loop_hangs quote rest body _ F "" L' Hql Hi' Hp' Hb).
    reflexivity. }
  assert (He : Lexer.isAtEnd L = false).
  { destruct (Lexer.isAtEnd L) eqn:E; [ | reflexivity ].
    destruct fuel0 as [ | f ]; [ discriminate | ].
    cbn [Lexer.skipWhitespace] in Hs. rewrite E in Hs.
    inversion Hs; subst. congruence. }
  unfold Lexer.tokenize.
  rewrite (tokenize_loop_stalls text L Hr); [ reflexivity | ].
  intros F tokens. destruct F as [ | F ]; [ reflexivity | ].
  cbn [Lexer.tokenize_loop]. rewrite He.
  destruct (skipWhitespace_agrees _ (S F) _ _ Hs) as [ -> | -> ];
    [ | reflexivity ].
  rewrite He1, Hn. reflexivity.
Qed.

Lemma line_feed_in_string_never_returns_witness :
  Lexer.tokenize 1000 line_feed_text = Timeout.
Proof.
  refine (line_feed_in_string_never_returns line_feed_text
            before_blank 10 before_literal Lexer.dquote "$s := " "a"
            ("b" ++ String Lexer.dquote "") _ eq_refl (or_introl eq_refl)
            eq_refl eq_refl eq_refl 1000).
  refine (reaches_token line_feed_text 10
            (Lexer.mkLexer line_feed_text 2 1 3)
            (Lexer.mkLexer line_feed_text 3 1 4)
            (mkToken ASSIGN_OP ":=" 1 4) before_blank
            _ eq_refl eq_refl eq_refl eq_refl).
  refine (reaches_token line_feed_text 10
            (Lexer.mkLexer line_feed_text 1 1 2)
            (Lexer.mkLexer line_feed_text 1 1 2)
            (mkToken IDENTIFIER "s" 1 2) (Lexer.mkLexer line_feed_text 2 1 3)
            _ eq_refl eq_refl eq_refl eq_refl).
  exact (reaches_token line_feed_text 10
           (Lexer.new line_feed_text) (Lexer.new line_feed_text)
           (mkToken DOLLAR "$" 1 1) (Lexer.mkLexer line_feed_text 1 1 2)
           (reaches_start line_feed_text) eq_refl eq_refl eq_refl eq_refl).
Defined.

Lemma string_app_nil_r (s : string) : s ++ "" = s.
Proof. induction s as [ | c s IH ]; cbn; [ reflexivity | now rewrite IH ]. Qed.

Lemma string_loop_to_end quote body : forall pre fuel value L,
  Lexer.input L = pre ++ body ->
  Lexer.position L = String.length pre ->
  forallb (plain quote) (list_ascii_of_string body) = true ->
  String.length body < fuel ->
  exists L',
    Lexer.string_loop fuel quote value L = Some (value ++ body, L')
    /\ Lexer.isAtEnd L' = true.
Proof.
  induction body as [ | c body IH ]; intros pre fuel value L Hi Hp Hb Hf.
  - destruct fuel as [ | f ]; [ cbn in Hf; lia | ].
    rewrite string_app_nil_r in Hi.
    pose proof (at_end _ _ Hi Hp) as He.
    exists L. cbn [Lexer.string_loop]. rewrite He, string_app_nil_r.
    split; reflexivity.
  - destruct fuel as [ | f ]; [ cbn in Hf; lia | ].
    cbn in Hb. apply andb_true_iff in Hb. destruct Hb as [ Hc Hb ].
    destruct (string_loop_plain quote f value L pre c _ Hi Hp Hc)
      as (L1 & -> & Hi1 & Hp1 & _).
    destruct (IH _ f (value ++ Lexer.str c) L1 Hi1 Hp1 Hb) as (L' & E & He).
    { cbn in Hf. lia. }
    exists L'. rewrite E, string_app_assoc. split; [ reflexivity | exact He ].
Qed.

(** X11.  A string literal that reaches the end of the text without its
    closing quote is rejected with the error [Unterminated string], at the
    line and column of the opening quote. *)
Theorem unterminated_string quote pre body L fuel :
  quote = Lexer.dquote \/ quote = Lexer.squote ->
  Lexer.input L = pre ++ String quote body ->
  Lexer.position L = String.length pre ->
  forallb (plain quote) (list_ascii_of_string body) = true ->
  String.length body < fuel ->
  Lexer.nextToken fuel L
  = Failed (mkParseError "Unterminated string"
              (Lexer.cur_line L) (Lexer.cur_column L)).
Proof.
  intros Hq Hi Hp Hb Hf.
  destruct (advance_at _ _ _ _ Hi Hp) as (L' & Ea & Hi' & Hp').
  rewrite (quote_token quote fuel L L' Hq Ea). unfold Lexer.string_.
  destruct (string_loop_to_end quote body _ fuel "" L' Hi' Hp' Hb Hf)
    as (Lend & -> & ->).
  reflexivity.
Qed.

Lemma unterminated_string_witness :
  Lexer.nextToken 10 at_open_quote
  = Failed (mkParseError "Unterminated string" 1 7).
Proof.
  apply (unterminated_string Lexer.squote "$s := " "abc" at_open_quote 10).
  - right. reflexivity.
  - reflexivity.
  - reflexivity.
  - reflexivity.
  - cbn. lia.
Defined.

(** ** The lexer comes to an end *)

Lemma advance_remaining L :
  Lexer.isAtEnd L = false ->
  S (remaining (snd (Lexer.advance L))) = remaining L.
Proof.
  intros He. unfold remaining.
  rewrite advance_input, (advance_position_S _ He).
  apply isAtEnd_false in He. lia.
Qed.

Lemma remaining_le L L' :
  Lexer.input L' = Lexer.input L -> Lexer.position L <= Lexer.position L' ->
  remaining L' <= remaining L.
Proof. unfold remaining. intros -> Hp. lia. Qed.

Lemma remaining_lt L L' :
  Lexer.isAtEnd L = false ->
  Lexer.input L' = Lexer.input L -> Lexer.position L < Lexer.position L' ->
  remaining L' < remaining L.
Proof.
  unfold remaining. intros He -> Hp. apply isAtEnd_false in He. lia.
Qed.

Lemma take_while_total pred : forall fuel v L,
  remaining L < fuel -> exists r, Lexer.take_while fuel pred v L = Some r.
Proof.
  induction fuel as [ | f IH ]; intros v L Hf; [ lia | ].
  cbn [Lexer.take_while].
  destruct (Lexer.isAtEnd L) eqn:He; cbn [negb andb];
    [ eexists; reflexivity | ].
  destruct (pred (Lexer.peek L)); [ | eexists; reflexivity ].
  pose proof (advance_remaining _ He) as Hr.
  destruct (Lexer.advance L) as [ c L1 ]. cbn [snd] in Hr.
  apply IH. lia.
Qed.

Lemma string_loop_total quote : forall fuel v L,
  has_char Lexer.lf (Lexer.input L) = false ->
  remaining L < fuel ->
  exists r, Lexer.string_loop fuel quote v L = Some r.
Proof.
  induction fuel as [ | f IH ]; intros v L Hno Hf; [ lia | ].
  cbn [Lexer.string_loop].
  destruct (Lexer.isAtEnd L) eqn:He; cbn [negb andb];
    [ eexists; reflexivity | ].
  destruct (Ascii.eqb (Lexer.peek L) quote); cbn [negb];
    [ eexists; reflexivity | ].
  rewrite (peek_absent _ _ He Hno).
  pose proof (advance_remaining _ He) as Hr.
  pose proof (advance_input L) as Hi.
  destruct (Lexer.advance L) as [ c L1 ]. cbn [snd] in Hr, Hi.
  destruct (Ascii.eqb (Lexer.peek L) Lexer.backslash).
  - pose proof (advance_input L1) as Hi2.
    pose proof (advance_position L1) as Hp2.
    pose proof (remaining_le L1 (snd (Lexer.advance L1)) Hi2 Hp2) as Hr2.
    destruct (Lexer.advance L1) as [ escaped L2 ]. cbn [snd] in *.
    apply IH; [ congruence | lia ].
  - apply IH; [ congruence | lia ].
Qed.

Lemma skip_comment_total : forall fuel L,
  remaining L < fuel -> exists r, Lexer.skip_comment fuel L = Some r.
Proof.
  induction fuel as [ | f IH ]; intros L Hf; [ lia | ].
  cbn [Lexer.skip_comment].
  destruct (Lexer.isAtEnd L) eqn:He; cbn [negb andb];
    [ eexists; reflexivity | ].
  destruct (Ascii.eqb (Lexer.peek L) Lexer.lf); cbn [negb];
    [ eexists; reflexivity | ].
  pose proof (advance_remaining _ He) as Hr. apply IH. lia.
Qed.

Lemma skipWhitespace_total : forall fuel L,
  remaining L < fuel -> exists r, Lexer.skipWhitespace fuel L = Some r.
Proof.
  induction fuel as [ | f IH ]; intros L Hf; [ lia | ].
  cbn [Lexer.skipWhitespace].
  destruct (Lexer.isAtEnd L) eqn:He; [ eexists; reflexivity | ]. cbv zeta.
  pose proof (advance_remaining _ He) as Hr.
  destruct (Ascii.eqb (Lexer.peek L) " " || Ascii.eqb (Lexer.peek L) Lexer.cr
            || Ascii.eqb (Lexer.peek L) Lexer.tab).
  - apply IH. lia.
  - destruct (Ascii.eqb (Lexer.peek L) "#") eqn:Eh;
      [ | eexists; reflexivity ].
    destruct (skip_comment_total (S f) L Hf) as [ L1 Ec ]. rewrite Ec.
    apply IH.
    cbn [Lexer.skip_comment] in Ec. rewrite He in Ec.
    apply Ascii.eqb_eq in Eh. rewrite Eh in Ec.
    change (Ascii.eqb "#" Lexer.lf) with false in Ec. cbn [negb andb] in Ec.
    apply skip_comment_input in Ec. destruct Ec as [ Hi Hp ].
    pose proof (remaining_le _ _ Hi Hp). lia.
Qed.

Lemma one_or_two_returns L c second two one sl sc :
  Lexer.one_or_two L c second two one sl sc <> Timeout.
Proof.
  unfold Lexer.one_or_two.
  destruct (Lexer.match_ L second) as [ [ | ] L1 ]; discriminate.
Qed.

Lemma nextToken_total fuel L0 :
  Lexer.isAtEnd L0 = false ->
  string_safe (Lexer.input L0) ->
  remaining L0 < fuel ->
  Lexer.nextToken fuel L0 <> Timeout.
Proof.
  intros Hend Hsafe Hf. unfold Lexer.nextToken.
  pose proof (advance_input L0) as Hi.
  pose proof (advance_remaining _ Hend) as Hr.
  destruct (Lexer.advance L0) as [ char L ] eqn:Ea. cbn [snd] in Hi, Hr.
  pose proof (advance_not_at_end _ _ _ Ea Hend) as Hc.
  cbv zeta.
  repeat match goal with
         | |- (if Ascii.eqb char ?c then _ else _) <> _ =>
             destruct (Ascii.eqb char c);
             [ first [ discriminate | apply one_or_two_returns ] | ]
         end.
  destruct (Ascii.eqb char ":").
  - destruct (Lexer.match_ L "=") as [ [ | ] L1 ];
      [ discriminate | apply one_or_two_returns ].
  - destruct (Ascii.eqb char Lexer.dquote || Ascii.eqb char Lexer.squote)
      eqn:Eq.
    + assert (Hno : has_char Lexer.lf (Lexer.input L) = false).
      { rewrite Hi. destruct Hsafe as [ H | [ Hd Hs ] ]; [ exact H | ].
        rewrite Hc, (peek_absent _ _ Hend Hd), (peek_absent _ _ Hend Hs) in Eq.
        discriminate. }
      unfold Lexer.string_.
      destruct (string_loop_total char fuel "" L Hno ltac:(lia))
        as [ [v L1] -> ].
      destruct (Lexer.isAtEnd L1); [ discriminate | ].
      destruct (Lexer.advance L1). discriminate.
    + assert (Hb : remaining (Lexer.back_up L) < fuel).
      { destruct (advance_moves _ _ _ Ea Hend) as (_ & HpL & HiL).
        unfold remaining in *. cbn. rewrite HiL, HpL.
        apply isAtEnd_false in Hend. lia. }
      destruct (Lexer.isDigit char).
      * unfold Lexer.number.
        destruct (take_while_total Lexer.isDigit fuel "" _ Hb)
          as [ [v L1] Et ].
        rewrite Et. apply take_while_input in Et. destruct Et as [ Hi1 Hp1 ].
        pose proof (remaining_le _ _ Hi1 Hp1) as Hr1.
        destruct (negb (Lexer.isAtEnd L1) && Ascii.eqb (Lexer.peek L1) "."
                  && Lexer.isDigit (Lexer.peekNext L1)); [ | discriminate ].
        pose proof (advance_input L1) as Hi2.
        pose proof (advance_position L1) as Hp2.
        pose proof (remaining_le _ _ Hi2 Hp2) as Hr2.
        destruct (Lexer.advance L1) as [ dot L3 ]. cbn [snd] in *.
        destruct (take_while_total Lexer.isDigit fuel (v ++ Lexer.str dot) L3
                    ltac:(lia)) as [ [v' L4] -> ].
        discriminate.
      * destruct (Lexer.isAlpha char); [ | discriminate ].
        unfold Lexer.identifier.
        destruct (take_while_total Lexer.isAlphaNumeric fuel "" _ Hb)
          as [ [v L1] -> ].
        discriminate.
Qed.

Lemma tokenize_loop_total : forall fuel tokens L,
  string_safe (Lexer.input L) ->
  remaining L < fuel ->
  Lexer.tokenize_loop fuel tokens L <> Timeout.
Proof.
  induction fuel as [ | f IH ]; intros tokens L Hsafe Hf; [ lia | ].
  cbn [Lexer.tokenize_loop].
  destruct (Lexer.isAtEnd L) eqn:He; [ discriminate | ].
  destruct (skipWhitespace_total (S f) L Hf) as [ L1 Es ]. rewrite Es.
  apply skipWhitespace_input in Es. destruct Es as [ Hi1 Hp1 ].
  pose proof (remaining_le _ _ Hi1 Hp1) as Hr1.
  destruct (Lexer.isAtEnd L1) eqn:He1; [ discriminate | ].
  assert (Hsafe1 : string_safe (Lexer.input L1)) by (rewrite Hi1; exact Hsafe).
  pose proof (nextToken_total (S f) L1 He1 Hsafe1 ltac:(lia)) as Hn.
  destruct (Lexer.nextToken (S f) L1) as [ [token L2] | e | ] eqn:En;
    [ | discriminate | congruence ].
  apply (nextToken_input _ _ _ _ He1) in En. destruct En as [ Hi2 Hp2 ].
  pose proof (remaining_lt _ _ He1 Hi2 Hp2) as Hr2.
  apply IH; [ rewrite Hi2; exact Hsafe1 | lia ].
Qed.

Lemma tokenize_total text fuel :
  string_safe text ->
  String.length text < fuel ->
  Lexer.tokenize fuel text <> Timeout.
Proof.
  intros Hsafe Hf.
  pose proof (tokenize_loop_total fuel [] (Lexer.new text) Hsafe) as H.
  unfold Lexer.tokenize.
  destruct (Lexer.tokenize_loop fuel [] (Lexer.new text)) as [ [ts L] | e | ];
    try discriminate.
  intros _. apply H; [ | reflexivity ]. unfold remaining. cbn. lia.
Qed.

(** X12.  On a text that holds no line feed, or holds no quote, the lexer
    comes to an end: [tokenize] returns its tokens or raises a
    [ParseError], within a number of steps bounded by the length of the
    text. *)
Theorem tokenize_terminates text fuel :
  string_safe text ->
  String.length text < fuel ->
  (exists tokens, Lexer.tokenize fuel text = Parsed tokens)
  \/ (exists e, Lexer.tokenize fuel text = Failed e).
Proof.
  intros Hsafe Hf. pose proof (tokenize_total text fuel Hsafe Hf) as H.
  destruct (Lexer.tokenize fuel text) as [ ts | e | ].
  - left. eexists. reflexivity.
  - right. eexists. reflexivity.
  - congruence.
Qed.

Lemma tokenize_terminates_witness :
  (exists tokens, Lexer.tokenize 100 weighted_grammar = Parsed tokens)
  \/ (exists e, Lexer.tokenize 100 weighted_grammar = Failed e).
Proof.
  apply tokenize_terminates; [ left; reflexivity | cbn; lia ].
Defined.

(* ================================================================== *)
(** * Further properties of the parser *)

Lemma tokenize_identifier_words fuel text tokens :
  Lexer.tokenize fuel text = Parsed tokens ->
  forall t, In t tokens -> type t = IDENTIFIER -> word_text (Types.value t).
Proof.
  unfold Lexer.tokenize.
  destruct (Lexer.tokenize_loop fuel [] (Lexer.new text))
    as [ [body L] | e | ] eqn:E; try discriminate.
  intros E' t Hin Ht. inversion E'; subst.
  apply tokenize_loop_shape in E; [ | constructor ].
  apply in_app_or in Hin. destruct Hin as [ Hin | [ <- | [] ] ].
  - rewrite Forall_forall in E. specialize (E t Hin). cbv beta in E.
    rewrite Ht in E. exact E.
  - discriminate.
Qed.

Section ParsedShape.

Variable tokens : list Token.

Lemma consume_token ty msg cur t cur' :
  consume tokens ty msg cur = Parsed (t, cur') ->
  type t = ty /\ (ty <> EOF -> In t tokens).
Proof.
  unfold consume. intros E.
  apply pbind_Parsed in E. destruct E as (c & c1 & Ec & E).
  destruct c.
  - apply check_true in Ec. destruct Ec as [ -> Hc ].
    destruct (Hc eq_refl) as [ Hty Hne ].
    apply (advance_token _ _ _ _ Hne) in E. subst t.
    split; [ exact Hty | ]. intros Hn. eapply token_at_In; eauto.
  - apply pbind_Parsed in E. destruct E as (t' & c2 & _ & E). discriminate.
Qed.

Lemma parseAlternative_elements fuel cur alt cur' :
  parseAlternative tokens fuel cur = Parsed (alt, cur') ->
  elements alt <> [].
Proof.
  unfold parseAlternative. intros E.
  apply pbind_Parsed in E. destruct E as ([elems w] & c1 & _ & E).
  cbn [fst snd] in E. destruct elems as [ | x r ].
  - apply pbind_Parsed in E. destruct E as (t & c2 & _ & E). discriminate.
  - apply pret_Parsed in E. destruct E as [ -> _ ]. cbn. discriminate.
Qed.

Lemma alternatives_loop_elements n fuel : forall alts cur alts' cur',
  alternatives_loop tokens n fuel alts cur = Parsed (alts', cur') ->
  alts <> [] /\ Forall (fun a => elements a <> []) alts ->
  alts' <> [] /\ Forall (fun a => elements a <> []) alts'.
Proof.
  induction n as [ | m IH ]; intros alts cur alts' cur' E Ha;
    cbn [alternatives_loop] in E; [ discriminate | ].
  apply pbind_Parsed in E. destruct E as ([ | ] & c1 & _ & E).
  - apply pbind_Parsed in E. destruct E as (alt & c2 & Ealt & E).
    eapply IH; [ exact E | ]. destruct Ha as [ Hne Hall ]. split.
    + destruct alts; discriminate.
    + apply Forall_app. split; [ exact Hall | ].
      constructor; [ | constructor ].
      eapply parseAlternative_elements; eauto.
  - apply pret_Parsed in E. destruct E as [ -> _ ]. exact Ha.
Qed.

Hypothesis Hwords :
  forall t, In t tokens -> type t = IDENTIFIER -> word_text (Types.value t).

Lemma parseRule_ok fuel cur rule cur' :
  parseRule tokens fuel cur = Parsed (rule, cur') ->
  rule_ok (name rule) rule.
Proof.
  unfold parseRule, parseAlternatives. intros E.
  apply pbind_Parsed in E. destruct E as (t1 & c1 & _ & E).
  apply pbind_Parsed in E. destruct E as (nameToken & c2 & En & E).
  apply pbind_Parsed in E. destruct E as (t3 & c3 & _ & E).
  apply pbind_Parsed in E. destruct E as (alts & c4 & Ea & E).
  apply pret_Parsed in E. destruct E as [ -> _ ]. cbn [alternatives name].
  apply consume_token in En. destruct En as [ Hty Hin ].
  apply pbind_Parsed in Ea. destruct Ea as (first & c5 & Ef & Ea).
  apply alternatives_loop_elements in Ea.
  - destruct Ea as [ Hne Hall ]. repeat split; auto.
    apply Hwords; [ apply Hin; discriminate | exact Hty ].
  - split; [ discriminate | ].
    constructor; [ | constructor ].
    eapply parseAlternative_elements; eauto.
Qed.

Lemma alist_set_key_In {A} k (v : A) l x :
  In x (map fst (alist_set k v l)) -> x = k \/ In x (map fst l).
Proof.
  induction l as [ | [k' v'] r IH ]; cbn [alist_set map fst]; intros Hx.
  - destruct Hx as [ <- | [] ]. left. reflexivity.
  - destruct (String.eqb k k') eqn:E; cbn [map fst] in *.
    + destruct Hx as [ <- | Hx ]; [ left; reflexivity | right; right; exact Hx ].
    + destruct Hx as [ <- | Hx ]; [ right; left; reflexivity | ].
      destruct (IH Hx) as [ -> | H ]; [ left; reflexivity | right; right; exact H ].
Qed.

Lemma alist_set_keys {A} k (v : A) l :
  NoDup (map fst l) -> NoDup (map fst (alist_set k v l)).
Proof.
  induction l as [ | [k' v'] r IH ]; cbn [alist_set map fst]; intros Hl.
  - constructor; [ intros [] | constructor ].
  - inversion Hl as [ | x l' Hnot Hr ]; subst.
    destruct (String.eqb k k') eqn:E; cbn [map fst].
    + constructor; [ | exact Hr ].
      apply String.eqb_eq in E. subst k'. exact Hnot.
    + constructor; [ | apply IH; exact Hr ].
      intros Hx. apply alist_set_key_In in Hx.
      destruct Hx as [ -> | Hx ]; [ | tauto ].
      rewrite String.eqb_refl in E. discriminate.
Qed.

Lemma alist_set_pairs {A} (Q : string -> A -> Prop) k v l :
  Forall (fun kv => Q (fst kv) (snd kv)) l -> Q k v ->
  Forall (fun kv => Q (fst kv) (snd kv)) (alist_set k v l).
Proof.
  intros Hl Hv. induction Hl as [ | [k' v'] r Hx Hr IH ]; cbn [alist_set].
  - constructor; auto.
  - destruct (String.eqb k k'); constructor; auto.
Qed.

Lemma parse_loop_ok n fuel : forall rules cur rules' cur',
  parse_loop tokens n fuel rules cur = Parsed (rules', cur') ->
  NoDup (map fst rules)
  /\ Forall (fun kr => rule_ok (fst kr) (snd kr)) rules ->
  NoDup (map fst rules')
  /\ Forall (fun kr => rule_ok (fst kr) (snd kr)) rules'.
Proof.
  induction n as [ | m IH ]; intros rules cur rules' cur' E Hr;
    cbn [parse_loop] in E; [ discriminate | ].
  apply pbind_Parsed in E. destruct E as ([ | ] & c1 & _ & E).
  - apply pret_Parsed in E. destruct E as [ -> _ ]. exact Hr.
  - apply pbind_Parsed in E. destruct E as ([] & c2 & _ & E).
    apply pbind_Parsed in E. destruct E as ([ | ] & c3 & _ & E).
    + apply pret_Parsed in E. destruct E as [ -> _ ]. exact Hr.
    + apply pbind_Parsed in E. destruct E as (rule & c4 & Erule & E).
      eapply IH; [ exact E | ]. destruct Hr as [ Hk Hall ]. split.
      * apply alist_set_keys. exact Hk.
      * apply (alist_set_pairs rule_ok); [ exact Hall | ].
        eapply parseRule_ok; eauto.
Qed.

Lemma parse_tokens_ok fuel g :
  parse_tokens tokens fuel = Parsed g -> grammar_ok g.
Proof.
  unfold parse_tokens.
  destruct (parse_loop tokens fuel fuel [] 0) as [ [rs c] | e | ] eqn:E;
    try discriminate.
  apply parse_loop_ok in E; [ | split; constructor ].
  destruct rs as [ | r rs ]; [ discriminate | ].
  intros E'. inversion E'; subst. destruct E as [ Hk Hall ].
  split; [ discriminate | ]. split; assumption.
Qed.

End ParsedShape.

(** X13.  A grammar that [compile] returns holds at least one rule; its
    rules are stored under distinct names, each under the name it bears,
    a word; every rule has at least one alternative and every alternative
    at least one element. *)
Theorem compiled_grammar_shape fuel text g :
  Generator.compile fuel text = Parsed g -> grammar_ok g.
Proof.
  unfold Generator.compile, Parser.parse.
  destruct (Lexer.tokenize fuel text) as [ tokens | e | ] eqn:Et;
    try discriminate.
  intros E. eapply parse_tokens_ok; [ | exact E ].
  exact (tokenize_identifier_words _ _ _ Et).
Qed.

Lemma compiled_grammar_shape_witness : grammar_ok weighted_grammar_ast.
Proof.
  apply (compiled_grammar_shape 100 weighted_grammar). vm_compute.
  reflexivity.
Defined.

(** ** The parser comes to an end *)

Lemma total_bind {A B} (c : P A) (k : A -> P B) cur
  (mid : A -> nat -> Prop) (post : B -> nat -> Prop) :
  total_to c cur mid ->
  (forall a c1, mid a c1 -> total_to (k a) c1 post) ->
  total_to (pbind c k) cur post.
Proof.
  unfold total_to, pbind. destruct (c cur) as [ [a c1] | e | ]; auto.
  intros Hc Hk. exact (Hk a c1 Hc).
Qed.

Lemma total_ret {A} (a : A) cur (post : A -> nat -> Prop) :
  post a cur -> total_to (pret a) cur post.
Proof. exact (fun H => H). Qed.

Lemma total_weaken {A} (p : P A) cur (post post' : A -> nat -> Prop) :
  total_to p cur post -> (forall a c, post a c -> post' a c) ->
  total_to p cur post'.
Proof.
  unfold total_to. destruct (p cur) as [ [a c1] | e | ]; auto.
Qed.

Section ParserProgress.

Variable tokens : list Token.

Local Abbreviation rem := (tokens_left tokens).
Local Abbreviation live := (on_token tokens).

Ltac rlia := cbv beta in *; try unfold tokens_left in *; lia.

Lemma live_lt cur : live cur -> rem (S cur) < rem cur.
Proof.
  unfold on_token, tokens_left, token_at. intros H.
  destruct (Nat.lt_ge_cases cur (List.length tokens)) as [ Hlt | Hge ];
    [ rlia | ].
  rewrite nth_overflow in H by exact Hge. discriminate.
Qed.

Lemma peek_spec cur :
  total_to (peek tokens) cur (fun _ c => c = cur).
Proof. reflexivity. Qed.

Lemma previous_spec cur :
  total_to (previous tokens) cur (fun _ c => c = cur).
Proof. reflexivity. Qed.

Lemma isAtEnd_spec cur :
  total_to (isAtEnd tokens) cur
    (fun e c => c = cur /\ (e = false -> live cur)).
Proof.
  unfold total_to, isAtEnd, peek, pbind, pret. split; [ reflexivity | ].
  exact (fun H => H).
Qed.

Lemma check_spec ty cur :
  total_to (check tokens ty) cur
    (fun b c => c = cur /\ (b = true -> live cur)).
Proof.
  unfold total_to, check, isAtEnd, peek, pbind, pret.
  destruct (TokenType_eqb (type (token_at tokens cur)) EOF) eqn:E;
    (split; [ reflexivity | ]).
  - discriminate.
  - intros _. exact E.
Qed.

Lemma advance_live cur :
  live cur -> advance tokens cur = Parsed (token_at tokens cur, S cur).
Proof.
  unfold on_token, advance, isAtEnd, peek, previous, pbind, pret. intros ->.
  cbn. rewrite Nat.sub_0_r. reflexivity.
Qed.

Lemma advance_spec cur :
  total_to (advance tokens) cur (fun _ c => rem c <= rem cur).
Proof.
  unfold total_to, advance, isAtEnd, peek, previous, pbind, pret.
  destruct (TokenType_eqb (type (token_at tokens cur)) EOF); rlia.
Qed.

Lemma match_spec tys cur :
  total_to (match_ tokens tys) cur
    (fun b c => if b then rem c < rem cur else c = cur).
Proof.
  induction tys as [ | ty rest IH ]; cbn [match_].
  - reflexivity.
  - eapply total_bind; [ apply check_spec | ].
    intros [ | ] c1 [ -> Hl ].
    + unfold total_to, pbind. rewrite (advance_live _ (Hl eq_refl)).
      cbn. apply live_lt. exact (Hl eq_refl).
    + exact IH.
Qed.

Lemma consume_spec ty msg cur :
  total_to (consume tokens ty msg) cur (fun _ c => rem c < rem cur).
Proof.
  unfold consume. eapply total_bind; [ apply check_spec | ].
  intros [ | ] c1 [ -> Hl ].
  - unfold total_to. rewrite (advance_live _ (Hl eq_refl)).
    apply live_lt. exact (Hl eq_refl).
  - reflexivity.
Qed.

Lemma isStartOfNextRule_spec cur :
  total_to (isStartOfNextRule tokens) cur (fun _ c => c = cur).
Proof.
  unfold isStartOfNextRule. eapply total_bind; [ apply check_spec | ].
  intros b c1 [ -> _ ]. reflexivity.
Qed.

Lemma isInExpressionContext_spec cur :
  total_to (isInExpressionContext tokens) cur (fun _ c => c = cur).
Proof. reflexivity. Qed.

Lemma dotted_spec : forall n path cur,
  rem cur < n ->
  total_to (dotted tokens n path) cur (fun _ c => rem c <= rem cur).
Proof.
  induction n as [ | f IH ]; intros path cur Hn; [ rlia | ].
  cbn [dotted]. eapply total_bind; [ apply match_spec | ].
  intros [ | ] c1 H1.
  - eapply total_bind; [ apply consume_spec | ].
    intros t c2 H2. eapply total_weaken; [ apply IH; rlia | ].
    cbv beta. intros _ c H. rlia.
  - subst c1. apply total_ret. rlia.
Qed.

Lemma parseDollarExpression_spec fuel cur :
  rem cur < fuel ->
  total_to (parseDollarExpression tokens fuel) cur
    (fun _ c => rem c < rem cur).
Proof.
  intros Hf. unfold parseDollarExpression.
  eapply total_bind; [ apply match_spec | ].
  intros [ | ] c1 H1.
  - eapply total_bind; [ apply consume_spec | ]. intros t2 c2 H2.
    eapply total_bind; [ apply consume_spec | ]. intros t3 c3 H3.
    eapply total_bind; [ apply dotted_spec; rlia | ]. intros path c4 H4.
    apply total_ret. rlia.
  - subst c1.
    eapply total_bind; [ apply consume_spec | ]. intros t2 c2 H2.
    eapply total_bind; [ apply match_spec | ].
    intros [ | ] c3 H3.
    + eapply total_bind; [ apply consume_spec | ]. intros t4 c4 H4.
      eapply total_bind; [ apply dotted_spec; rlia | ]. intros path c5 H5.
      apply total_ret. rlia.
    + subst c3.
      eapply total_bind; [ apply isInExpressionContext_spec | ].
      intros [ | ] c4 ->; apply total_ret; exact H2.
Qed.

Lemma parseConditional_of_spec (pa : P ASTNode) F cur :
  (forall c, rem c < F -> total_to pa c (fun _ c' => rem c' < rem c)) ->
  rem cur < F ->
  total_to (parseConditional_of tokens pa) cur (fun _ c => rem c < rem cur).
Proof.
  intros Hpa Hf. unfold parseConditional_of.
  eapply total_bind; [ apply Hpa; exact Hf | ]. intros expr c1 H1.
  eapply total_bind; [ apply match_spec | ].
  intros [ | ] c2 H2.
  - eapply total_bind; [ apply Hpa; rlia | ]. intros tv c3 H3.
    eapply total_bind; [ apply match_spec | ].
    intros [ | ] c4 H4.
    + eapply total_bind.
      * eapply total_bind; [ apply Hpa; rlia | ]. intros e c5 H5.
        apply (total_ret (Some e) c5 (fun _ c => rem c < rem c4)). exact H5.
      * intros fv c6 H6. apply total_ret. rlia.
    + subst c4. apply total_ret. rlia.
  - subst c2. apply total_ret. exact H1.
Qed.

Section Expression.

Variable f : nat.
Variable rec : P ASTNode.
Hypothesis Hrec :
  forall c, rem c < f -> total_to rec c (fun _ c' => rem c' < rem c).

Lemma parsePrimary_spec cur :
  rem cur <= f ->
  total_to (parsePrimary tokens f rec) cur (fun _ c => rem c < rem cur).
Proof.
  intros Hf. unfold parsePrimary.
  eapply total_bind; [ apply match_spec | ].
  intros [ | ] c1 H1; [ apply total_ret; exact H1 | subst c1 ].
  eapply total_bind; [ apply match_spec | ].
  intros [ | ] c1 H1; [ apply total_ret; exact H1 | subst c1 ].
  eapply total_bind; [ apply match_spec | ].
  intros [ | ] c1 H1.
  { eapply total_weaken; [ apply parseDollarExpression_spec; rlia | ].
    cbv beta. intros _ c H. rlia. }
  subst c1.
  eapply total_bind; [ apply match_spec | ].
  intros [ | ] c1 H1; [ apply total_ret; exact H1 | subst c1 ].
  eapply total_bind; [ apply match_spec | ].
  intros [ | ] c1 H1; [ | reflexivity ].
  eapply total_bind.
  - apply (parseConditional_of_spec rec f c1 Hrec). rlia.
  - intros expr c2 H2.
    eapply total_bind; [ apply consume_spec | ]. intros t c3 H3.
    apply total_ret. rlia.
Qed.

Lemma binary_loop_spec ops (operand : P ASTNode) :
  (forall c, rem c <= f ->
             total_to operand c (fun _ c' => rem c' < rem c)) ->
  forall n expr cur,
    rem cur < n -> rem cur <= f ->
    total_to (binary_loop tokens n ops operand expr) cur
      (fun _ c => rem c <= rem cur).
Proof.
  intros Hop. induction n as [ | m IH ]; intros expr cur Hn Hf; [ rlia | ].
  cbn [binary_loop]. eapply total_bind; [ apply match_spec | ].
  intros [ | ] c1 H1.
  - eapply total_bind; [ apply previous_spec | ]. intros t c2 ->.
    eapply total_bind; [ apply Hop; rlia | ]. intros rhs c3 H3.
    eapply total_weaken; [ apply IH; rlia | ].
    cbv beta. intros _ c H. rlia.
  - subst c1. apply total_ret. rlia.
Qed.

Lemma parseMultiplication_spec cur :
  rem cur <= f ->
  total_to (parseMultiplication tokens f rec) cur
    (fun _ c => rem c < rem cur).
Proof.
  intros Hf. unfold parseMultiplication.
  eapply total_bind; [ apply parsePrimary_spec; exact Hf | ].
  intros expr c1 H1.
  eapply total_weaken.
  - apply binary_loop_spec; [ apply parsePrimary_spec | rlia | rlia ].
  - cbv beta. intros _ c H. rlia.
Qed.

Lemma parseAddition_spec cur :
  rem cur <= f ->
  total_to (parseAddition tokens f rec) cur (fun _ c => rem c < rem cur).
Proof.
  intros Hf. unfold parseAddition.
  eapply total_bind; [ apply parseMultiplication_spec; exact Hf | ].
  intros expr c1 H1.
  eapply total_weaken.
  - apply binary_loop_spec; [ apply parseMultiplication_spec | rlia | rlia ].
  - cbv beta. intros _ c H. rlia.
Qed.

Lemma parseComparison_spec cur :
  rem cur <= f ->
  total_to (parseComparison tokens f rec) cur (fun _ c => rem c < rem cur).
Proof.
  intros Hf. unfold parseComparison.
  eapply total_bind; [ apply parseAddition_spec; exact Hf | ].
  intros expr c1 H1.
  eapply total_weaken.
  - apply binary_loop_spec; [ apply parseAddition_spec | rlia | rlia ].
  - cbv beta. intros _ c H. rlia.
Qed.

Lemma parseAssignment_body_spec cur :
  rem cur <= f ->
  total_to (parseAssignment_body tokens f rec) cur
    (fun _ c => rem c < rem cur).
Proof.
  intros Hf. unfold parseAssignment_body.
  eapply total_bind; [ apply parseComparison_spec; exact Hf | ].
  intros expr c1 H1.
  eapply total_bind; [ apply match_spec | ].
  intros [ | ] c2 H2.
  - eapply total_bind; [ apply previous_spec | ]. intros t c3 ->.
    eapply total_bind; [ apply Hrec; rlia | ]. intros rhs c4 H4.
    eapply total_bind.
    + instantiate (1 := fun _ c => c = c4).
      destruct expr; reflexivity.
    + intros target c5 ->. apply total_ret. rlia.
  - subst c2. apply total_ret. exact H1.
Qed.

End Expression.

Lemma parseAssignment_spec : forall fuel cur,
  rem cur < fuel ->
  total_to (parseAssignment tokens fuel) cur (fun _ c => rem c < rem cur).
Proof.
  induction fuel as [ | f IH ]; intros cur Hf; [ rlia | ].
  cbn [parseAssignment]. apply parseAssignment_body_spec; [ exact IH | rlia ].
Qed.

Lemma parseExpression_spec fuel cur :
  rem cur < fuel ->
  total_to (parseExpression tokens fuel) cur (fun _ c => rem c < rem cur).
Proof.
  intros Hf. unfold parseExpression, parseConditional.
  apply (parseConditional_of_spec _ fuel); [ | exact Hf ].
  intros c Hc. apply parseAssignment_spec. exact Hc.
Qed.

Lemma bracket_loop_spec fuel : forall n exprs cur,
  rem cur < n -> rem cur < fuel ->
  total_to (bracket_loop tokens n fuel exprs) cur
    (fun _ c => rem c < rem cur).
Proof.
  induction n as [ | m IH ]; intros exprs cur Hn Hf; [ rlia | ].
  cbn [bracket_loop].
  eapply total_bind; [ apply parseExpression_spec; exact Hf | ].
  intros expr c1 H1.
  eapply total_bind; [ apply match_spec | ].
  intros [ | ] c2 H2.
  - eapply total_weaken; [ apply IH; rlia | ].
    cbv beta. intros _ c H. rlia.
  - subst c2. apply total_ret. exact H1.
Qed.

Lemma parseBracketedExpression_spec fuel cur :
  rem cur < fuel ->
  total_to (parseBracketedExpression tokens fuel) cur
    (fun _ c => rem c < rem cur).
Proof.
  intros Hf. unfold parseBracketedExpression.
  eapply total_bind; [ apply match_spec | ]. intros isSilent c1 H1.
  assert (Hc1 : rem c1 <= rem cur) by (destruct isSilent; subst; rlia).
  eapply total_bind; [ apply bracket_loop_spec; rlia | ]. intros exprs c2 H2.
  eapply total_bind; [ apply consume_spec | ]. intros t c3 H3.
  apply total_ret. rlia.
Qed.

Lemma parseElement_spec fuel cur :
  live cur -> rem cur < fuel ->
  total_to (parseElement tokens fuel) cur (fun _ c => rem c < rem cur).
Proof.
  intros Hl Hf. unfold parseElement.
  eapply total_bind; [ apply match_spec | ].
  intros [ | ] c1 H1.
  { eapply total_weaken; [ apply parseBracketedExpression_spec; rlia | ].
    cbv beta. intros _ c H. rlia. }
  subst c1.
  eapply total_bind; [ apply match_spec | ].
  intros [ | ] c1 H1.
  { eapply total_weaken; [ apply parseDollarExpression_spec; rlia | ].
    cbv beta. intros _ c H. rlia. }
  subst c1.
  assert (Hadv : forall (k : Token -> P ASTNode),
             (forall t, total_to (k t) (S cur) (fun _ c => c = S cur)) ->
             total_to (pbind (advance tokens) k) cur
               (fun _ c => rem c < rem cur)).
  { intros k Hk. unfold total_to, pbind. rewrite (advance_live _ Hl).
    specialize (Hk (token_at tokens cur)). unfold total_to in Hk.
    destruct (k (token_at tokens cur) (S cur)) as [ [a c] | e | ]; auto.
    subst c. apply live_lt. exact Hl. }
  eapply total_bind; [ apply check_spec | ].
  intros [ | ] c1 [ -> _ ]; [ apply Hadv; reflexivity | ].
  eapply total_bind; [ apply check_spec | ].
  intros [ | ] c1 [ -> _ ]; [ apply Hadv; reflexivity | ].
  eapply total_bind; [ apply check_spec | ].
  intros [ | ] c1 [ -> _ ]; [ apply Hadv; reflexivity | ].
  apply Hadv. intros t.
  destruct (negb (TokenType_eqb (type t) EOF)); reflexivity.
Qed.

Lemma alternative_loop_spec fuel : forall n elems w cur,
  rem cur < n -> rem cur < fuel ->
  total_to (alternative_loop tokens n fuel elems w) cur
    (fun _ c => rem c <= rem cur).
Proof.
  induction n as [ | m IH ]; intros elems w cur Hn Hf; [ rlia | ].
  cbn [alternative_loop].
  eapply total_bind; [ apply isAtEnd_spec | ]. intros e c1 [ -> He ].
  eapply total_bind; [ apply check_spec | ]. intros p c1 [ -> _ ].
  eapply total_bind; [ apply isStartOfNextRule_spec | ]. intros r c1 ->.
  destruct e; cbn [negb andb]; [ apply total_ret; rlia | ].
  destruct (negb p && negb r); [ | apply total_ret; rlia ].
  eapply total_bind; [ apply match_spec | ].
  intros [ | ] c1 H1.
  - eapply total_weaken; [ apply IH; rlia | ].
    cbv beta. intros _ c H. rlia.
  - subst c1.
    eapply total_bind; [ apply parseElement_spec; auto | ].
    intros element c2 H2.
    eapply total_bind; [ apply match_spec | ]. intros dc c3 H3.
    assert (Hc3 : rem c3 <= rem c2) by (destruct dc; subst; rlia).
    eapply total_bind.
    + instantiate (1 := fun _ c => c = c3).
      destruct dc; [ | reflexivity ].
      eapply total_weaken; [ apply check_spec | ]. cbv beta. tauto.
    + intros [ | ] c4 ->.
      * eapply total_bind; [ apply advance_spec | ]. intros t c5 H5.
        apply total_ret. rlia.
      * eapply total_weaken; [ apply IH; rlia | ].
        cbv beta. intros _ c H. rlia.
Qed.

Lemma parseAlternative_spec fuel cur :
  rem cur < fuel ->
  total_to (parseAlternative tokens fuel) cur (fun _ c => rem c <= rem cur).
Proof.
  intros Hf. unfold parseAlternative.
  eapply total_bind; [ apply alternative_loop_spec; exact Hf | ].
  intros [ elems w ] c1 H1. cbn [fst snd].
  destruct elems; [ reflexivity | apply total_ret; exact H1 ].
Qed.

Lemma alternatives_loop_spec fuel : forall n alts cur,
  rem cur < n -> rem cur < fuel ->
  total_to (alternatives_loop tokens n fuel alts) cur
    (fun _ c => rem c <= rem cur).
Proof.
  induction n as [ | m IH ]; intros alts cur Hn Hf; [ rlia | ].
  cbn [alternatives_loop].
  eapply total_bind; [ apply match_spec | ].
  intros [ | ] c1 H1.
  - eapply total_bind; [ apply parseAlternative_spec; rlia | ].
    intros alt c2 H2.
    eapply total_weaken; [ apply IH; rlia | ].
    cbv beta. intros _ c H. rlia.
  - subst c1. apply total_ret. rlia.
Qed.

Lemma parseRule_spec fuel cur :
  rem cur < fuel ->
  total_to (parseRule tokens fuel) cur (fun _ c => rem c < rem cur).
Proof.
  intros Hf. unfold parseRule, parseAlternatives.
  eapply total_bind; [ apply consume_spec | ]. intros t1 c1 H1.
  eapply total_bind; [ apply consume_spec | ]. intros t2 c2 H2.
  eapply total_bind; [ apply consume_spec | ]. intros t3 c3 H3.
  eapply total_bind.
  - instantiate (1 := fun _ c => rem c <= rem c3).
    eapply total_bind; [ apply parseAlternative_spec; rlia | ].
    intros first c4 H4.
    eapply total_weaken; [ apply alternatives_loop_spec; rlia | ].
    cbv beta. intros _ c H. rlia.
  - intros alts c5 H5. apply total_ret. rlia.
Qed.

Lemma skipNewlines_spec : forall n cur,
  rem cur < n ->
  total_to (skipNewlines tokens n) cur (fun _ c => rem c <= rem cur).
Proof.
  induction n as [ | m IH ]; intros cur Hn; [ rlia | ].
  cbn [skipNewlines]. eapply total_bind; [ apply match_spec | ].
  intros [ | ] c1 H1.
  - eapply total_weaken; [ apply IH; rlia | ].
    cbv beta. intros _ c H. rlia.
  - subst c1. apply total_ret. rlia.
Qed.

Lemma parse_loop_spec fuel : forall n rules cur,
  rem cur < n -> rem cur < fuel ->
  total_to (parse_loop tokens n fuel rules) cur (fun _ _ => True).
Proof.
  induction n as [ | m IH ]; intros rules cur Hn Hf; [ rlia | ].
  cbn [parse_loop].
  eapply total_bind; [ apply isAtEnd_spec | ].
  intros [ | ] c1 [ -> _ ]; [ exact I | ].
  eapply total_bind; [ apply skipNewlines_spec; exact Hf | ].
  intros [] c2 H2.
  eapply total_bind; [ apply isAtEnd_spec | ].
  intros [ | ] c3 [ -> _ ]; [ exact I | ].
  eapply total_bind; [ apply parseRule_spec; rlia | ].
  intros rule c4 H4. apply IH; rlia.
Qed.

Lemma parse_tokens_total fuel :
  List.length tokens < fuel -> parse_tokens tokens fuel <> Timeout.
Proof.
  intros Hf. unfold parse_tokens.
  pose proof (parse_loop_spec fuel fuel [] 0) as H. unfold total_to in H.
  destruct (parse_loop tokens fuel fuel [] 0) as [ [ [ | r rs ] c ] | e | ];
    try discriminate.
  intros _. apply H; rlia.
Qed.

End ParserProgress.

(** every token takes a character of the text *)
Lemma tokenize_loop_count : forall fuel tokens L tokens' L',
  Lexer.tokenize_loop fuel tokens L = Parsed (tokens', L') ->
  List.length tokens' + remaining L' <= List.length tokens + remaining L.
Proof.
  induction fuel as [ | f IH ]; intros tokens L tokens' L' E;
    cbn [Lexer.tokenize_loop] in E; [ discriminate | ].
  destruct (Lexer.isAtEnd L); [ inversion E; subst; lia | ].
  destruct (Lexer.skipWhitespace (S f) L) as [ L1 | ] eqn:Es;
    [ | discriminate ].
  apply skipWhitespace_input in Es. destruct Es as [ Hi1 Hp1 ].
  pose proof (remaining_le _ _ Hi1 Hp1) as Hr1.
  destruct (Lexer.isAtEnd L1) eqn:He1; [ inversion E; subst; lia | ].
  destruct (Lexer.nextToken (S f) L1) as [ [token L2] | e | ] eqn:En;
    try discriminate.
  apply (nextToken_input _ _ _ _ He1) in En. destruct En as [ Hi2 Hp2 ].
  pose proof (remaining_lt _ _ He1 Hi2 Hp2) as Hr2.
  apply IH in E. rewrite length_app in E. cbn in E. lia.
Qed.

Lemma tokenize_count fuel text tokens :
  Lexer.tokenize fuel text = Parsed tokens ->
  List.length tokens <= S (String.length text).
Proof.
  unfold Lexer.tokenize.
  destruct (Lexer.tokenize_loop fuel [] (Lexer.new text))
    as [ [body L] | e | ] eqn:E; try discriminate.
  intros E'. inversion E'; subst.
  apply tokenize_loop_count in E. rewrite length_app.
  assert (Hr : remaining (Lexer.new text) = String.length text).
  { unfold remaining. cbn. lia. }
  rewrite Hr in E. cbn in *. lia.
Qed.

(** X14.  [compile] comes to an end on every text that holds no line feed
    or holds no quote: lexer and parser together return a grammar or raise
    a [ParseError], within a number of steps bounded by the length of the
    text.  Every loop and every recursive call of the parser consumes a
    token. *)
Theorem compile_terminates text fuel :
  string_safe text ->
  S (String.length text) < fuel ->
  (exists g, Generator.compile fuel text = Parsed g)
  \/ (exists e, Generator.compile fuel text = Failed e).
Proof.
  intros Hsafe Hf. unfold Generator.compile, Parser.parse.
  pose proof (tokenize_total text fuel Hsafe ltac:(lia)) as Ht.
  destruct (Lexer.tokenize fuel text) as [ tokens | e | ] eqn:Et.
  - pose proof (tokenize_count _ _ _ Et) as Hc.
    pose proof (parse_tokens_total tokens fuel ltac:(lia)) as Hp.
    destruct (parse_tokens tokens fuel) as [ g | e | ].
    + left. eexists. reflexivity.
    + right. eexists. reflexivity.
    + congruence.
  - right. eexists. reflexivity.
  - congruence.
Qed.

Lemma compile_terminates_witness :
  (exists g, Generator.compile 100 healing_text = Parsed g)
  \/ (exists e, Generator.compile 100 healing_text = Failed e).
Proof.
  apply compile_terminates; [ left; reflexivity | cbn; lia ].
Defined.

(** ** A text without rules *)

Lemma blank_peek L :
  blank_text (Lexer.input L) -> Lexer.isAtEnd L = false ->
  (Ascii.eqb (Lexer.peek L) " " || Ascii.eqb (Lexer.peek L) Lexer.tab
   || Ascii.eqb (Lexer.peek L) Lexer.cr
   || Ascii.eqb (Lexer.peek L) Lexer.lf) = true.
Proof.
  intros Hb He. apply peek_get, string_get_In in He.
  unfold blank_text in Hb. rewrite forallb_forall in Hb.
  exact (Hb _ He).
Qed.

Lemma skipWhitespace_blank : forall fuel L L1,
  blank_text (Lexer.input L) ->
  Lexer.skipWhitespace fuel L = Some L1 ->
  Lexer.isAtEnd L1 = true \/ Lexer.peek L1 = Lexer.lf.
Proof.
  induction fuel as [ | f IH ]; intros L L1 Hb E;
    cbn [Lexer.skipWhitespace] in E; [ discriminate | ].
  destruct (Lexer.isAtEnd L) eqn:He.
  { inversion E; subst. left. exact He. }
  pose proof (blank_peek L Hb He) as Hp. cbv zeta in E.
  destruct (Ascii.eqb (Lexer.peek L) " ") eqn:E1;
    [ apply (IH _ _ ltac:(rewrite advance_input; exact Hb) E) | ].
  destruct (Ascii.eqb (Lexer.peek L) Lexer.cr) eqn:E2;
    [ apply (IH _ _ ltac:(rewrite advance_input; exact Hb) E) | ].
  destruct (Ascii.eqb (Lexer.peek L) Lexer.tab) eqn:E3;
    [ apply (IH _ _ ltac:(rewrite advance_input; exact Hb) E) | ].
  cbn [orb] in Hp, E. apply Ascii.eqb_eq in Hp. rewrite Hp in E.
  cbn in E. inversion E; subst. right. exact Hp.
Qed.

Lemma nextToken_line_feed fuel L :
  Lexer.isAtEnd L = false -> Lexer.peek L = Lexer.lf ->
  exists token L2,
    Lexer.nextToken fuel L = Parsed (token, L2) /\ Types.type token = NEWLINE.
Proof.
  intros He Hp. unfold Lexer.nextToken.
  pose proof (advance_peek L He) as Ha.
  destruct (Lexer.advance L) as [ char L2 ]. cbn [fst] in Ha.
  rewrite Ha, Hp. cbn. eexists _, _. split; reflexivity.
Qed.

Lemma tokenize_loop_blank : forall fuel tokens L tokens' L',
  blank_text (Lexer.input L) ->
  Forall (fun t => Types.type t = NEWLINE) tokens ->
  Lexer.tokenize_loop fuel tokens L = Parsed (tokens', L') ->
  Forall (fun t => Types.type t = NEWLINE) tokens'.
Proof.
  induction fuel as [ | f IH ]; intros tokens L tokens' L' Hb Hall E;
    cbn [Lexer.tokenize_loop] in E; [ discriminate | ].
  destruct (Lexer.isAtEnd L); [ inversion E; subst; exact Hall | ].
  destruct (Lexer.skipWhitespace (S f) L) as [ L1 | ] eqn:Es;
    [ | discriminate ].
  pose proof (skipWhitespace_blank _ _ _ Hb Es) as Hs.
  apply skipWhitespace_input in Es. destruct Es as [ Hi1 _ ].
  destruct (Lexer.isAtEnd L1) eqn:He1; [ inversion E; subst; exact Hall | ].
  destruct Hs as [ Hs | Hs ]; [ discriminate | ].
  destruct (nextToken_line_feed (S f) L1 He1 Hs) as (token & L2 & En & Ht).
  rewrite En in E.
  apply (nextToken_input _ _ _ _ He1) in En. destruct En as [ Hi2 _ ].
  apply IH in E; [ exact E | rewrite Hi2, Hi1; exact Hb | ].
  apply Forall_app. split; [ exact Hall | ]. constructor; [ exact Ht | constructor ].
Qed.

Lemma tokenize_loop_blank_passes : forall fuel tokens L e,
  blank_text (Lexer.input L) ->
  Lexer.tokenize_loop fuel tokens L <> Failed e.
Proof.
  induction fuel as [ | f IH ]; intros tokens L e Hb;
    cbn [Lexer.tokenize_loop]; [ discriminate | ].
  destruct (Lexer.isAtEnd L); [ discriminate | ].
  destruct (Lexer.skipWhitespace (S f) L) as [ L1 | ] eqn:Es;
    [ | discriminate ].
  pose proof (skipWhitespace_blank _ _ _ Hb Es) as Hs.
  apply skipWhitespace_input in Es. destruct Es as [ Hi1 _ ].
  destruct (Lexer.isAtEnd L1) eqn:He1; [ discriminate | ].
  destruct Hs as [ Hs | Hs ]; [ discriminate | ].
  destruct (nextToken_line_feed (S f) L1 He1 Hs) as (token & L2 & En & Ht).
  rewrite En.
  apply (nextToken_input _ _ _ _ He1) in En. destruct En as [ Hi2 _ ].
  apply IH. rewrite Hi2, Hi1. exact Hb.
Qed.

Lemma blank_has_no c s :
  blank_text s ->
  (Ascii.eqb c " " || Ascii.eqb c Lexer.tab
   || Ascii.eqb c Lexer.cr || Ascii.eqb c Lexer.lf) = false ->
  has_char c s = false.
Proof.
  unfold blank_text, has_char. intros Hb Hc.
  rewrite forallb_forall in Hb.
  destruct (existsb (Ascii.eqb c) (list_ascii_of_string s)) eqn:E;
    [ | reflexivity ].
  apply existsb_exists in E. destruct E as (x & Hin & Hx).
  apply Ascii.eqb_eq in Hx. subst x. specialize (Hb _ Hin). congruence.
Qed.

Section BlankTokens.

Variable body : list Token.
Variable eof : Token.
Hypothesis Hbody : Forall (fun t => Types.type t = NEWLINE) body.
Hypothesis Heof : Types.type eof = EOF.

Local Abbreviation tokens := (body ++ [eof])%list.

Lemma blank_token_at cur :
  cur < List.length body -> Types.type (token_at tokens cur) = NEWLINE.
Proof.
  intros Hlt. unfold token_at. rewrite app_nth1 by exact Hlt.
  rewrite Forall_forall in Hbody. apply Hbody, nth_In. exact Hlt.
Qed.

Lemma blank_token_end :
  Types.type (token_at tokens (List.length body)) = EOF.
Proof.
  unfold token_at. rewrite app_nth2 by lia.
  rewrite Nat.sub_diag. exact Heof.
Qed.

Lemma match_newline cur :
  cur < List.length body ->
  match_ tokens [NEWLINE] cur = Parsed (true, S cur).
Proof.
  intros Hlt. pose proof (blank_token_at cur Hlt) as Ht.
  assert (Hl : TokenType_eqb (Types.type (token_at tokens cur)) EOF = false)
    by (rewrite Ht; reflexivity).
  cbn [match_]. unfold pbind at 1. unfold check, isAtEnd, peek, pbind, pret.
  rewrite Hl, Ht. cbn [TokenType_eqb].
  fold (pbind (advance tokens) (fun _ => pret true) cur).
  unfold pbind. rewrite (advance_live tokens cur Hl). reflexivity.
Qed.

Lemma match_newline_end :
  match_ tokens [NEWLINE] (List.length body)
  = Parsed (false, List.length body).
Proof.
  cbn [match_]. unfold pbind at 1. unfold check, isAtEnd, peek, pbind, pret.
  rewrite blank_token_end. reflexivity.
Qed.

Lemma skipNewlines_blank : forall n cur,
  cur <= List.length body -> List.length body - cur < n ->
  skipNewlines tokens n cur = Parsed (tt, List.length body).
Proof.
  induction n as [ | m IH ]; intros cur Hle Hn; [ lia | ].
  cbn [skipNewlines]. unfold pbind.
  destruct (Nat.eq_dec cur (List.length body)) as [ -> | Hne ].
  - rewrite match_newline_end. reflexivity.
  - rewrite match_newline by lia. apply IH; lia.
Qed.

Lemma parse_tokens_blank fuel :
  List.length body < fuel ->
  parse_tokens tokens fuel = Failed (mkParseError "No rules found" 1 1).
Proof.
  intros Hf. unfold parse_tokens.
  assert (He : forall cur,
             isAtEnd tokens cur
             = Parsed (TokenType_eqb (Types.type (token_at tokens cur)) EOF,
                       cur)) by reflexivity.
  destruct fuel as [ | f ]; [ lia | ]. cbn [parse_loop].
  unfold pbind. rewrite He.
  destruct (Nat.eq_dec 0 (List.length body)) as [ E0 | Hne ].
  - pose proof blank_token_end as H. rewrite <- E0 in H.
    rewrite H. reflexivity.
  - rewrite (blank_token_at 0) by lia.
    cbn [TokenType_eqb].
    rewrite (skipNewlines_blank (S f) 0) by lia.
    rewrite He, blank_token_end. reflexivity.
Qed.

End BlankTokens.

(** X15.  A text of spaces, tabs, carriage returns and line feeds only (the
    empty text among them) holds no rule: [compile] raises the
    [ParseError] "No rules found" at line 1, column 1. *)
Theorem blank_text_has_no_rules text fuel :
  blank_text text ->
  String.length text < fuel ->
  Generator.compile fuel text = Failed (mkParseError "No rules found" 1 1).
Proof.
  intros Hb Hf. unfold Generator.compile, Parser.parse.
  assert (Hsafe : string_safe text).
  { right. split; apply blank_has_no; auto. }
  pose proof (tokenize_total text fuel Hsafe Hf) as Ht.
  pose proof (tokenize_count fuel text) as Hc.
  unfold Lexer.tokenize in *.
  destruct (Lexer.tokenize_loop fuel [] (Lexer.new text))
    as [ [body L] | e | ] eqn:E.
  - specialize (Hc _ eq_refl). rewrite length_app in Hc. cbn in Hc.
    apply parse_tokens_blank.
    + apply (tokenize_loop_blank _ _ (Lexer.new text) _ _ Hb (Forall_nil _) E).
    + reflexivity.
    + lia.
  - exfalso. apply (tokenize_loop_blank_passes _ _ (Lexer.new text) e Hb E).
  - congruence.
Qed.

Lemma blank_text_has_no_rules_witness :
  Generator.compile 10 (String Lexer.lf (String " " (String Lexer.lf "")))
  = Failed (mkParseError "No rules found" 1 1).
Proof.
  apply blank_text_has_no_rules; [ reflexivity | cbn; lia ].
Defined.
